(** * canmatrix: signals, frames and identifiers of a CAN matrix

    A shallow embedding of [canmatrix/canmatrix.py]: the [Signal] start-bit
    conventions and raw/physical scaling, the [Frame] format construction,
    [Frame.encode] / [Frame.decode], the DLC recomputation of [CanMatrix] and
    the J1939 view [CanId], followed by the properties established for them. *)

From Stdlib Require Import ZArith List String Ascii Bool Lia DecimalString.
From Stdlib Require Import QArith Qcanon.
Import ListNotations.

Local Open Scope string_scope.
Local Open Scope Z_scope.

(** ** Exceptions *)

(** The exceptions the modelled code can raise, by Python class. *)
Inductive exn : Type :=
| Exception (msg : string)        (* raise Exception("startBit lower zero") *)
| ValueError                      (* "... is invalid value choice for ..." *)
| DivisionByZero                  (* decimal.DivisionByZero *)
| InvalidOperation                (* decimal.InvalidOperation *)
| OverflowError                   (* a float or an int out of an infinity *)
| TypeError                       (* operand of the wrong Python type *)
| UnboundLocalError (var : string)(* a local read before its first binding *)
| AttributeError                  (* an attribute of [None] *)
| IndexError                      (* list index out of range *)
| BitstructError.                 (* bitstruct.Error *)

Inductive result (A : Type) : Type :=
| Ok (a : A)
| Raise (e : exn).
Arguments Ok {A} a.
Arguments Raise {A} e.

(** ** decimal.Decimal

    [defaultFloatFactory = decimal.Decimal].  A finite [Decimal] is modelled by
    its numeric value, a normalised rational; every arithmetic operation
    returns the exact result rounded to the context precision
    ([getcontext().prec = 28] significant digits, [ROUND_HALF_EVEN]), as the
    [decimal] module does.  Construction from an [int] or from a literal is
    exact.  The operations below round and nothing else: they are those of
    the module as long as the result stays within the exponent limits of the
    context, which [within_context] states; beyond them the module raises
    [Overflow] or rounds a subnormal at a fixed exponent.  The infinities and
    NaN are values of their own in [pyvalue].  A zero has no sign here:
    [Decimal('-0')] is the value 0, and a quotient of an infinity by a zero
    takes the sign of the infinity. *)

Definition Decimal : Type := Qc.

Definition context_prec : Z := 28.

Fixpoint ndigits_aux (fuel : nat) (n : Z) : Z :=
  match fuel with
  | O => 0
  | S k => if n <? 10 then 1 else 1 + ndigits_aux k (n / 10)
  end.

(** Number of decimal digits of a positive integer. *)
Definition ndigits (n : Z) : Z := ndigits_aux (S (Z.to_nat (Z.log2 n))) n.

(** [floor (log10 (n / d))] for positive [n] and [d]: the adjusted exponent. *)
Definition adjusted (n d : Z) : Z :=
  let k := ndigits n - ndigits d in
  if 0 <=? k
  then (if d * 10 ^ k <=? n then k else k - 1)
  else (if d <=? n * 10 ^ (- k) then k else k - 1).

(** Nearest integer to [n / d] ([0 <= n], [0 < d]), ties to even. *)
Definition round_half_even (n d : Z) : Z :=
  let f := n / d in
  let r := n mod d in
  match 2 * r ?= d with
  | Lt => f
  | Gt => f + 1
  | Eq => if Z.even f then f else f + 1
  end.

(** Value of the coefficient [m] at exponent [e]. *)
Definition scale10 (m e : Z) : Qc :=
  if 0 <=? e then Q2Qc (inject_Z (m * 10 ^ e))
  else Q2Qc (Qmake m (Z.to_pos (10 ^ (- e)))).

(** Rounding of an exact result to [context_prec] significant digits. *)
Definition rnd (q : Qc) : Decimal :=
  let n := Z.abs (Qnum q) in
  let d := Zpos (Qden q) in
  if n =? 0 then Q2Qc 0
  else
    let e := adjusted n d - (context_prec - 1) in
    let m := if 0 <=? e then round_half_even n (d * 10 ^ e)
             else round_half_even (n * 10 ^ (- e)) d in
    scale10 (Z.sgn (Qnum q) * m) e.

Definition of_int (z : Z) : Decimal := Q2Qc (inject_Z z).

Definition dadd (x y : Decimal) : Decimal := rnd (x + y)%Qc.
Definition dsub (x y : Decimal) : Decimal := rnd (x - y)%Qc.
Definition dmul (x y : Decimal) : Decimal := rnd (x * y)%Qc.

Definition is_zero (x : Decimal) : bool := Qnum x =? 0.

Definition is_negative (x : Decimal) : bool := Qnum x <? 0.

(** Division traps on a zero divisor: [DivisionByZero], and
    [InvalidOperation] for 0/0; both are raised under the default context. *)
Definition ddiv (x y : Decimal) : result Decimal :=
  if is_zero y
  then Raise (if is_zero x then InvalidOperation else DivisionByZero)
  else Ok (rnd (x / y)%Qc).

Definition dle (x y : Decimal) : bool :=
  match (x ?= y)%Qc with Gt => false | _ => true end.

Definition deqb (x y : Decimal) : bool :=
  match (x ?= y)%Qc with Eq => true | _ => false end.

(** [int(d)]: truncation towards zero. *)
Definition int_of (d : Decimal) : Z := Z.quot (Qnum d) (Zpos (Qden d)).

(** The exponent limits of the default context. *)
Definition context_Emax : Z := 999999.
Definition context_Emin : Z := -999999.

(** The adjusted exponent of a value other than zero: the exponent of its
    leading digit. *)
Definition adjusted_exponent (q : Qc) : Z :=
  adjusted (Z.abs (Qnum q)) (Zpos (Qden q)).

(** The exact result [q] of an operation is within the exponent limits of the
    context: it is zero, or its leading digit is not below [10^Emin] (it is
    then no subnormal, which the module rounds at the exponent [Etiny]) and,
    once rounded to the precision, not above [10^Emax] (no [Overflow], which
    the default context traps).  The module then returns [rnd q]. *)
Definition within_context (q : Qc) : Prop :=
  q = Q2Qc 0 \/
  (context_Emin <= adjusted_exponent q /\
   adjusted_exponent (rnd q) <= context_Emax).

(** [d] is representable in the context, so that an operation whose exact
    result is [d] returns [d]: rounding to the precision leaves it as it is,
    and it is within the exponent limits. *)
Definition exact (d : Decimal) : Prop := rnd d = d /\ within_context d.

(** ** Signal *)

(** The [multiplex] attribute: [None], the string ['Multiplexor'], or the
    number of the multiplex group the signal belongs to. *)
Inductive multiplex_t : Type :=
| MuxNone
| Multiplexor
| MuxNumber (n : Z).

(** A Python value handed to [phys2raw], stored in a [data] dict or returned
    by [raw2phys]: [None], a string, an [int] (or [bool]), a
    [decimal.Decimal], finite, infinite or (quiet) NaN, or a [float], finite
    (given by its value), infinite or NaN. *)
Inductive pyvalue : Type :=
| PyNone
| PyStr (s : string)
| PyInt (z : Z)
| PyNum (d : Decimal)
| PyInfinity (negative : bool)
| PyNaN
| PyFloat (f : Qc)
| PyFloatInfinity (negative : bool)
| PyFloatNaN.

(** A raw value as returned by [phys2raw]: an [int], or a [Decimal] for a
    float signal, which is infinite when the value given was. *)
Inductive rawvalue : Type :=
| RawInt (z : Z)
| RawDec (d : Decimal)
| RawInfinity (negative : bool).

(** ** Logging and the effect type *)

(** What the code writes on its side channels: the [print] of [setStartbit],
    and the [logger.info] of [phys2raw] with the four values it formats into
    "Value {} is not valid for {}. Min={} and Max={}". *)
Inductive event : Type :=
| Printed_wrong_startBit (name : string) (startBit : Z)
| Logged_not_valid (value : pyvalue) (name : string) (min max : Decimal).

(** A computation that may log and may raise. *)
Definition Eff (A : Type) : Type := (list event * result A)%type.

Definition ret {A} (a : A) : Eff A := ([], Ok a).
Definition raise {A} (e : exn) : Eff A := ([], Raise e).
Definition tell (ev : event) : Eff unit := ([ev], Ok tt).

Definition bind {A B} (m : Eff A) (k : A -> Eff B) : Eff B :=
  match m with
  | (l, Ok a) => let '(l', r) := k a in ((l ++ l')%list, r)
  | (l, Raise e) => (l, Raise e)
  end.

Notation "x <- m ;; k" := (bind m (fun x => k))
  (at level 61, m at next level, right associativity).
Notation "m ;;; k" := (bind m (fun _ => k))
  (at level 61, right associativity).


Record Signal : Type := mkSignal {
  name : string;
  startBit : Z;
  size : Z;
  is_little_endian : bool;
  is_signed : bool;
  offset : Decimal;
  factor : Decimal;
  min : Decimal;
  max : Decimal;
  multiplex : multiplex_t;
  is_float : bool;
  (* user attributes, each held as the integer [int()] makes of it *)
  attributes : list (string * Z);
  (* the value table, in the iteration order of the dict *)
  values : list (Z * string);
  mux_val : option Z;
  is_multiplexer : bool
}.

Definition set_startBit (self : Signal) (b : Z) : Signal :=
  mkSignal (name self) b (size self) (is_little_endian self) (is_signed self)
           (offset self) (factor self) (min self) (max self) (multiplex self)
           (is_float self) (attributes self) (values self) (mux_val self)
           (is_multiplexer self).

Definition set_mux (self : Signal) (m : multiplex_t) (v : option Z) (b : bool)
  : Signal :=
  mkSignal (name self) (startBit self) (size self) (is_little_endian self)
           (is_signed self) (offset self) (factor self) (min self) (max self)
           m (is_float self) (attributes self) (values self) v b.

(** [Signal.multiplexSetter]: the flags it leaves on [self], and the value it
    returns for the [multiplex] attribute. *)
Definition multiplexSetter (self : Signal) (value : multiplex_t)
  : Signal * multiplex_t :=
  match value with
  | MuxNumber n => (set_mux self (multiplex self) (Some n) false, MuxNumber n)
  | _ => (set_mux self (multiplex self) None true, value)
  end.

(** [2 ** e] as Python computes it: an [int] for [0 <= e], else a fraction. *)
Definition pow2 (e : Z) : Decimal :=
  if 0 <=? e then of_int (2 ^ e) else Q2Qc (Qmake 1 (Z.to_pos (2 ^ (- e)))).

(** [Signal.calculateRawRange], from the bit width and the signedness. *)
Definition calculateRawRange_of (sz : Z) (signed : bool) : Decimal * Decimal :=
  let rawRange := pow2 (sz - (if signed then 1 else 0)) in
  ((if signed then (- rawRange)%Qc else of_int 0), (rawRange - of_int 1)%Qc).

Definition calculateRawRange (self : Signal) : Decimal * Decimal :=
  calculateRawRange_of (size self) (is_signed self).

Definition calcMin (self : Signal) : Decimal :=
  dadd (offset self) (dmul (fst (calculateRawRange self)) (factor self)).

Definition calcMax (self : Signal) : Decimal :=
  dadd (offset self) (dmul (snd (calculateRawRange self)) (factor self)).

(** The constructor generated by [attr.s], with [__attrs_post_init__]:
    [min] and [max], when not given, default to [calcMin()] and [calcMax()],
    and [multiplex] goes through [multiplexSetter]. *)
Definition Signal_init (name : string) (startBit size : Z)
    (is_little_endian is_signed : bool) (offset factor : Decimal)
    (min max : option Decimal) (multiplex : multiplex_t) (is_float : bool)
    (attributes : list (string * Z)) (values : list (Z * string)) : Signal :=
  let mn := match min with
            | Some m => m
            | None => dadd offset
                        (dmul (fst (calculateRawRange_of size is_signed)) factor)
            end in
  let mx := match max with
            | Some m => m
            | None => dadd offset
                        (dmul (snd (calculateRawRange_of size is_signed)) factor)
            end in
  let self := mkSignal name startBit size is_little_endian is_signed offset
                       factor mn mx multiplex is_float attributes values
                       None false in
  let '(self', m) := multiplexSetter self (multiplex) in
  set_mux self' m (mux_val self') (is_multiplexer self').

(** The byte reflection of a bit index, [b - (b % 8) + 7 - (b % 8)]. *)
Definition byte_reflect (b : Z) : Z := b - (b mod 8) + 7 - (b mod 8).

(** [bitNumbering is not None and bitNumbering != self.is_little_endian] *)
Definition numbering_differs (self : Signal) (bitNumbering : option bool) : bool :=
  match bitNumbering with
  | None => false
  | Some bn => negb (Bool.eqb bn (is_little_endian self))
  end.

(** [startLittle is True and self.is_little_endian is False] *)
Definition from_lsb (self : Signal) (startLittle : option bool) : bool :=
  match startLittle with
  | Some true => negb (is_little_endian self)
  | _ => false
  end.

(** The bit position [Signal.setStartbit] computes before it checks it. *)
Definition setStartbit_position (self : Signal) (startBit : Z)
    (bitNumbering startLittle : option bool) : Z :=
  let startBit := if numbering_differs self bitNumbering
                  then byte_reflect startBit else startBit in
  let startBit := if from_lsb self startLittle
                  then startBit + 1 - size self else startBit in
  startBit.

(** [Signal.setStartbit]: the signal after the call, and what the call did. *)
Definition setStartbit (self : Signal) (startBit : Z)
    (bitNumbering startLittle : option bool) : Signal * Eff unit :=
  let startBit := setStartbit_position self startBit bitNumbering startLittle in
  if startBit <? 0
  then (self, (tell (Printed_wrong_startBit (name self) startBit) ;;;
               raise (Exception "startBit lower zero")))
  else (set_startBit self startBit, ret tt).

(** [Signal.getStartbit] *)
Definition getStartbit (self : Signal)
    (bitNumbering startLittle : option bool) : Z :=
  let startBitInternal := startBit self in
  let startBitInternal := if from_lsb self startLittle
                          then startBitInternal + size self - 1
                          else startBitInternal in
  let startBitInternal := if numbering_differs self bitNumbering
                          then byte_reflect startBitInternal
                          else startBitInternal in
  startBitInternal.

(** [self.attributes.get(key, default)] *)
Fixpoint attributes_get (attrs : list (string * Z)) (key : string) (default : Z)
  : Z :=
  match attrs with
  | [] => default
  | (k, v) :: rest => if String.eqb k key then v else attributes_get rest key default
  end.

(** The [for ... else] loop of [phys2raw] over [self.values.items()]: the key
    of the first entry whose name is [value], if there is one. *)
Fixpoint lookup_choice (table : list (Z * string)) (value : string) : option Z :=
  match table with
  | [] => None
  | (value_key, value_string) :: rest =>
      if String.eqb value_string value then Some value_key
      else lookup_choice rest value
  end.

(** The [logger.info] call of [phys2raw]. *)
Definition log_not_valid (self : Signal) (value : pyvalue) : Eff unit :=
  tell (Logged_not_valid value (name self) (min self) (max self)).

(** The part of [phys2raw] that follows the resolution of a value choice, for
    an [int] or a finite [Decimal] [given], of numeric value [value]: the
    range check, which only logs, and the scaling. *)
Definition phys2raw_numeric (self : Signal) (given : pyvalue) (value : Decimal)
  : Eff rawvalue :=
  (if dle (min self) value && dle value (max self) then ret tt
   else log_not_valid self given) ;;;
  match ddiv (dsub value (offset self)) (factor self) with
  | Raise e => raise e
  | Ok raw_value =>
      if is_float self then ret (RawDec raw_value)
      else ret (RawInt (int_of raw_value))
  end.

(** The same part for any value.  An infinite [Decimal] is within no range,
    stays infinite in the subtraction and in the division (by zero too), and
    is refused by [int].  A [Decimal] compares with a [float], by value, but
    is not subtracted from one.  The comparison with a NaN is an
    [InvalidOperation], the one with [None] or a string a [TypeError]. *)
Definition phys2raw_checked (self : Signal) (value : pyvalue) : Eff rawvalue :=
  match value with
  | PyInt z => phys2raw_numeric self value (of_int z)
  | PyNum d => phys2raw_numeric self value d
  | PyInfinity negative =>
      log_not_valid self value ;;;
      if is_float self
      then ret (RawInfinity (xorb negative (is_negative (factor self))))
      else raise OverflowError
  | PyFloat f =>
      (if dle (min self) f && dle f (max self) then ret tt
       else log_not_valid self value) ;;;
      raise TypeError
  | PyFloatInfinity _ => log_not_valid self value ;;; raise TypeError
  | PyNaN | PyFloatNaN => raise InvalidOperation
  | PyNone | PyStr _ => raise TypeError
  end.

(** [Signal.phys2raw]; a name of the value table is replaced by its key, an
    [int]. *)
Definition phys2raw (self : Signal) (value : pyvalue) : Eff rawvalue :=
  match value with
  | PyNone => ret (RawInt (attributes_get (attributes self) "GenSigStartValue" 0))
  | PyStr s =>
      match lookup_choice (values self) s with
      | Some value_key => phys2raw_checked self (PyInt value_key)
      | None => raise ValueError
      end
  | _ => phys2raw_checked self value
  end.

(** The loop of [raw2phys] over the value table: the name of the first entry
    whose key equals the physical value. *)
Fixpoint lookup_name (table : list (Z * string)) (value : Decimal) : option string :=
  match table with
  | [] => None
  | (value_key, value_string) :: rest =>
      if deqb (of_int value_key) value then Some value_string
      else lookup_name rest value
  end.

(** [raw2phys] for a finite raw value, given as a [Decimal]. *)
Definition raw2phys_finite (self : Signal) (value : Decimal)
    (decodeToStr : bool) : pyvalue :=
  let value := dadd (dmul value (factor self)) (offset self) in
  if decodeToStr then
    match lookup_name (values self) value with
    | Some value_string => PyStr value_string
    | None => PyNum value
    end
  else PyNum value.

(** [Signal.raw2phys].  An infinite raw value times a factor of zero is an
    [InvalidOperation]; with another factor the product and the sum are
    infinite, and no key of the value table equals them. *)
Definition raw2phys (self : Signal) (value : rawvalue) (decodeToStr : bool)
  : result pyvalue :=
  match value with
  | RawInt z => Ok (raw2phys_finite self (of_int z) decodeToStr)
  | RawDec d => Ok (raw2phys_finite self d decodeToStr)
  | RawInfinity negative =>
      if is_zero (factor self) then Raise InvalidOperation
      else Ok (PyInfinity (xorb negative (is_negative (factor self))))
  end.

(** Python's [==] on the values modelled: numbers compare by value across
    [int], [Decimal] and [float], an infinity equals the infinity of its
    sign, a NaN equals nothing. *)
Definition number_of (v : pyvalue) : option Qc :=
  match v with
  | PyInt z => Some (of_int z)
  | PyNum d => Some d
  | PyFloat f => Some f
  | _ => None
  end.

Definition infinity_of (v : pyvalue) : option bool :=
  match v with
  | PyInfinity negative | PyFloatInfinity negative => Some negative
  | _ => None
  end.

Definition pyvalue_eqb (v w : pyvalue) : bool :=
  match number_of v, number_of w with
  | Some a, Some b => deqb a b
  | _, _ =>
      match infinity_of v, infinity_of w with
      | Some a, Some b => Bool.eqb a b
      | _, _ =>
          match v, w with
          | PyNone, PyNone => true
          | PyStr s, PyStr t => String.eqb s t
          | _, _ => false
          end
      end
  end.

(** ** Frame *)

Record Frame : Type := mkFrame {
  frame_name : string;
  id : Z;
  frame_size : Z;                 (* [size], the DLC in bytes *)
  extended : bool;
  is_complex_multiplexed : bool;
  signals : list Signal;
  j1939_pgn : option Z;           (* [None] until set *)
  j1939_source : Z;
  j1939_prio : Z;
  is_j1939 : bool
}.

Definition set_size (self : Frame) (sz : Z) : Frame :=
  mkFrame (frame_name self) (id self) sz (extended self)
          (is_complex_multiplexed self) (signals self) (j1939_pgn self)
          (j1939_source self) (j1939_prio self) (is_j1939 self).

(** [Frame.is_multiplexed]: the first multiplexer met returns [True]. *)
Fixpoint any_multiplexer (sigs : list Signal) : bool :=
  match sigs with
  | [] => false
  | sig :: rest => if is_multiplexer sig then true else any_multiplexer rest
  end.

Definition is_multiplexed (self : Frame) : bool := any_multiplexer (signals self).

(** The [float] nearest to the integer [n], ties to even: [n] itself while
    it has at most 53 bits, and else the multiple of [2^k] nearest to it,
    where [k] is the number of its bits beyond 53. *)
Definition nearest_double (n : Z) : Z :=
  let a := Z.abs n in
  let k := Z.log2 a + 1 - 53 in
  if k <=? 0 then n
  else Z.sgn n * (round_half_even a (2 ^ k) * 2 ^ k).

(** [math.ceil(maxBit / 8)].  The quotient is a float
    ([from __future__ import division]): the one nearest to the exact
    quotient, which is [nearest_double maxBit / 8] since a division by 8 only
    changes the exponent; a quotient that rounds to [2^1024] or more is an
    [OverflowError].  [math.ceil] of a float is exact. *)
Definition ceil_div_8 (maxBit : Z) : result Z :=
  let eighths := nearest_double maxBit in
  if 2 ^ 1027 <=? Z.abs eighths then Raise OverflowError
  else Ok (- ((- eighths) / 8)).

(** The loop of [calcDLC] and of the "force" branch of [recalcDLC]:
    [maxBit] after the signals [sigs], from its value before them. *)
Fixpoint maxBit_loop (sigs : list Signal) (maxBit : Z) : Z :=
  match sigs with
  | [] => maxBit
  | sig :: rest =>
      let maxBit := if maxBit <? getStartbit sig None None + size sig
                    then getStartbit sig None None + size sig
                    else maxBit in
      maxBit_loop rest maxBit
  end.

(** [Frame.calcDLC] *)
Definition calcDLC (self : Frame) : result Frame :=
  let maxBit := maxBit_loop (signals self) 0 in
  match ceil_div_8 maxBit with
  | Raise e => Raise e
  | Ok bytes => Ok (set_size self (Z.max (frame_size self) bytes))
  end.

(** ** The bitstruct format of a frame *)

(** One piece of a format string: ['p' + str(n)], or a signal's
    [endian + bit_type + str(size)]. *)
Inductive fmt_item : Type :=
| Pad (n : Z)
| Field (little : bool) (bit_type : Ascii.ascii) (width : Z).

(** [Signal.bitstruct_format] *)
Definition Signal_bitstruct_format (self : Signal) : fmt_item :=
  let bit_type := if is_float self then "f"%char
                  else if is_signed self then "s"%char else "u"%char in
  Field (is_little_endian self) bit_type (size self).

Definition item_width (it : fmt_item) : Z :=
  match it with
  | Pad n => n
  | Field _ _ w => w
  end.

(** Total bit width of a format, [bitstruct.calcsize]. *)
Definition calcsize (fmt : list fmt_item) : Z :=
  fold_right (fun it acc => item_width it + acc) 0 fmt.

(** [str(n)] for an integer. *)
Definition str (n : Z) : string := DecimalString.NilZero.string_of_int (Z.to_int n).

Definition item_string (it : fmt_item) : string :=
  match it with
  | Pad n => "p" ++ str n
  | Field little bit_type w =>
      String (if little then "<"%char else ">"%char) (String bit_type (str w))
  end.

(** [''.join(fmt)] *)
Definition join (fmt : list fmt_item) : string :=
  fold_right (fun it acc => item_string it ++ acc) "" fmt.

(** [sorted(..., key=lambda s: s.getStartbit())]: a stable sort. *)
Fixpoint insert_sorted (x : Signal) (l : list Signal) : list Signal :=
  match l with
  | [] => [x]
  | y :: l' =>
      if getStartbit x None None <=? getStartbit y None None
      then x :: y :: l'
      else y :: insert_sorted x l'
  end.

Fixpoint sorted (l : list Signal) : list Signal :=
  match l with
  | [] => []
  | x :: l' => insert_sorted x (sorted l')
  end.

(** The loop of [Frame.bitstruct_format] over the sorted signals; the result
    is the pieces appended to [fmt], in order, and the final [end]. *)
Fixpoint format_loop (frame_bits : Z) (sigs : list Signal) (end_ : Z)
  : list fmt_item * Z :=
  match sigs with
  | [] => ([], end_)
  | signal :: rest =>
      let start := frame_bits - getStartbit signal None None - size signal in
      let padding := end_ - (start + size signal) in
      let '(fmt, e) := format_loop frame_bits rest start in
      ((if 0 <? padding then [Pad padding] else [])
         ++ Signal_bitstruct_format signal :: fmt, e)
  end%list.

(** [Frame.bitstruct_format]; the format is kept as the list of its pieces,
    [join] gives the string. *)
Definition bitstruct_format (self : Frame) (signalsToDecode : option (list Signal))
  : list fmt_item :=
  let frame_bits := frame_size self * 8 in
  let sigs := match signalsToDecode with
              | None => sorted (signals self)
              | Some l => sorted l
              end in
  let '(fmt, e) := format_loop frame_bits sigs frame_bits in
  (fmt ++ (if e =? 0 then [] else [Pad e]))%list.

(** ** bitstruct

    [bitstruct] is a third-party package.  Its [pack] and [unpack] are
    modelled after its documentation: the fields of the format are laid out
    one after the other from the most significant bit of the first byte, a
    ['p'] field is zero bits on packing and skipped on unpacking, ['u'] and
    ['s'] are unsigned and two's complement integers, a ['<'] field has the
    order of its bits reversed, and the last byte is filled with zero bits.
    A field of width zero or less is a bad format, an integer that does not
    fit its field is refused, and unpacking wants at least [calcsize] bits.
    The IEEE encodings of the ['f'] fields are parameters. *)

Section Codec.

Variable pack_float : Z -> Decimal -> result (list bool).
Variable unpack_float : Z -> list bool -> result Decimal.

(** The [width] low bits of [v], most significant first. *)
Definition bits_of (width : Z) (v : Z) : list bool :=
  map (fun i => Z.testbit v (Z.of_nat i)) (rev (seq 0 (Z.to_nat width))).

Definition unsigned_of (bits : list bool) : Z :=
  fold_left (fun acc (b : bool) => 2 * acc + (if b then 1 else 0)) bits 0.

Definition signed_of (bits : list bool) : Z :=
  let u := unsigned_of bits in
  match bits with
  | true :: _ => u - 2 ^ Z.of_nat (List.length bits)
  | _ => u
  end.

Definition good_format (fmt : list fmt_item) : bool :=
  forallb (fun it => 0 <? item_width it) fmt.

(** An infinity in a float field of 16, 32 or 64 bits, the widths
    [bitstruct] has for floats: the sign, an exponent of ones (5, 8 or 11
    bits) and a significand of zeros. *)
Definition pack_infinity (w : Z) (negative : bool) : result (list bool) :=
  let exponent_bits :=
    if w =? 16 then Some 5 else if w =? 32 then Some 8
    else if w =? 64 then Some 11 else None in
  match exponent_bits with
  | Some e =>
      Ok (negative :: repeat true (Z.to_nat e)
                   ++ repeat false (Z.to_nat (w - 1 - e)))%list
  | None => Raise BitstructError
  end.

Definition pack_value (it : fmt_item) (v : rawvalue) : result (list bool) :=
  match it with
  | Pad _ => Raise BitstructError
  | Field little bit_type w =>
      let ordered (bits : list bool) := if little then rev bits else bits in
      if Ascii.eqb bit_type "f" then
        match match v with
              | RawInt z => pack_float w (of_int z)
              | RawDec d => pack_float w d
              | RawInfinity negative => pack_infinity w negative
              end with
        | Ok bits => Ok (ordered bits)
        | Raise e => Raise e
        end
      else
        match v with
        | RawDec _ | RawInfinity _ => Raise TypeError
        | RawInt z =>
            let lo := if Ascii.eqb bit_type "s" then - 2 ^ (w - 1) else 0 in
            let hi := if Ascii.eqb bit_type "s" then 2 ^ (w - 1) else 2 ^ w in
            if (lo <=? z) && (z <? hi) then Ok (ordered (bits_of w z))
            else Raise BitstructError
        end
  end.

Fixpoint pack_bits (fmt : list fmt_item) (args : list rawvalue)
  : result (list bool) :=
  match fmt with
  | [] => Ok []
  | Pad n :: fmt' =>
      match pack_bits fmt' args with
      | Ok bits => Ok (repeat false (Z.to_nat n) ++ bits)%list
      | Raise e => Raise e
      end
  | it :: fmt' =>
      match args with
      | [] => Raise BitstructError
      | v :: args' =>
          match pack_value it v, pack_bits fmt' args' with
          | Ok b, Ok bits => Ok (b ++ bits)%list
          | Raise e, _ => Raise e
          | _, Raise e => Raise e
          end
      end
  end.

Definition byte_of (bits : list bool) : Z := unsigned_of bits.

(** Cuts a bit string, whose length is a multiple of 8, into bytes. *)
Fixpoint bytes_of_bits (fuel : nat) (bits : list bool) : list Z :=
  match fuel, bits with
  | S k, _ :: _ => byte_of (firstn 8 bits) :: bytes_of_bits k (skipn 8 bits)
  | _, _ => []
  end.

Definition bits_of_bytes (data : list Z) : list bool :=
  flat_map (bits_of 8) data.

(** [bitstruct.pack(fmt, *args)] *)
Definition pack (fmt : list fmt_item) (args : list rawvalue) : result (list Z) :=
  if good_format fmt then
    match pack_bits fmt args with
    | Ok bits =>
        let tail := Z.of_nat (List.length bits) mod 8 in
        let bits := if tail =? 0 then bits
                    else (bits ++ repeat false (Z.to_nat (8 - tail)))%list in
        Ok (bytes_of_bits (List.length bits) bits)
    | Raise e => Raise e
    end
  else Raise BitstructError.

Definition unpack_value (it : fmt_item) (bits : list bool) : result rawvalue :=
  match it with
  | Pad _ => Raise BitstructError
  | Field little bit_type w =>
      let value_bits := if little then rev bits else bits in
      if Ascii.eqb bit_type "f" then
        match unpack_float w value_bits with
        | Ok d => Ok (RawDec d)
        | Raise e => Raise e
        end
      else if Ascii.eqb bit_type "s" then Ok (RawInt (signed_of value_bits))
      else Ok (RawInt (unsigned_of value_bits))
  end.

Fixpoint unpack_bits (fmt : list fmt_item) (bits : list bool)
  : result (list rawvalue) :=
  match fmt with
  | [] => Ok []
  | Pad n :: fmt' => unpack_bits fmt' (skipn (Z.to_nat n) bits)
  | it :: fmt' =>
      let w := Z.to_nat (item_width it) in
      match unpack_value it (firstn w bits), unpack_bits fmt' (skipn w bits) with
      | Ok v, Ok vs => Ok (v :: vs)
      | Raise e, _ => Raise e
      | _, Raise e => Raise e
      end
  end.

(** [bitstruct.unpack(fmt, data)] *)
Definition unpack (fmt : list fmt_item) (data : list Z) : result (list rawvalue) :=
  if good_format fmt then
    let bits := bits_of_bytes data in
    if Z.of_nat (List.length bits) <? calcsize fmt then Raise BitstructError
    else unpack_bits fmt bits
  else Raise BitstructError.

(** ** Frame.encode and Frame.decode *)

(** [data.get(key)] on the dict of values to encode. *)
Fixpoint data_get (data : list (string * pyvalue)) (key : string) : pyvalue :=
  match data with
  | [] => PyNone
  | (k, v) :: rest => if String.eqb k key then v else data_get rest key
  end.

(** [d[key] = v] on an [OrderedDict]. *)
Fixpoint odict_set (d : list (string * pyvalue)) (key : string) (v : pyvalue)
  : list (string * pyvalue) :=
  match d with
  | [] => [(key, v)]
  | (k, w) :: rest =>
      if String.eqb k key then (k, v) :: rest else (k, w) :: odict_set rest key v
  end.

(** [signal.mux_val == muxVal or signal.mux_val is None] *)
Definition mux_selected (signal : Signal) (muxVal : pyvalue) : bool :=
  match mux_val signal with
  | None => true
  | Some n => pyvalue_eqb (PyInt n) muxVal
  end.

(** The search for the multiplexer in [encode]: the last signal with
    [is_multiplexer], and the value [data] has for it. *)
Fixpoint find_muxSignal (sigs : list Signal) (data : list (string * pyvalue))
    (found : option (Signal * pyvalue)) : option (Signal * pyvalue) :=
  match sigs with
  | [] => found
  | signal :: rest =>
      find_muxSignal rest data
        (if is_multiplexer signal
         then Some (signal, data_get data (name signal)) else found)
  end.

(** [signal_value.append(signal.phys2raw(data.get(signal.name)))], for each
    signal in turn. *)
Fixpoint raw_values (sigs : list Signal) (data : list (string * pyvalue))
  : Eff (list rawvalue) :=
  match sigs with
  | [] => ret []
  | signal :: rest =>
      v <- phys2raw signal (data_get data (name signal)) ;;
      vs <- raw_values rest data ;;
      ret (v :: vs)
  end.

Definition lift {A} (r : result A) : Eff A := ([], r).

(** The signals [encode] selects, and the format it builds for them. *)
Definition encode_layout (self : Frame) (data : list (string * pyvalue))
  : Eff (list fmt_item * list Signal) :=
  if is_complex_multiplexed self then
    raise (UnboundLocalError "signals")
  else if is_multiplexed self then
    match find_muxSignal (signals self) data None with
    | None => raise AttributeError
    | Some (muxSignal, muxVal) =>
        let encodeSignals :=
          muxSignal :: filter (fun signal => mux_selected signal muxVal)
                              (signals self) in
        ret (bitstruct_format self (Some encodeSignals), sorted encodeSignals)
    end
  else ret (bitstruct_format self None, sorted (signals self)).

(** [Frame.encode] *)
Definition encode (self : Frame) (data : list (string * pyvalue)) : Eff (list Z) :=
  layout <- encode_layout self data ;;
  let '(fmt, sigs) := layout in
  signal_value <- raw_values sigs data ;;
  lift (pack fmt signal_value).

(** [for signal, value in zip(signals, values): signals_values[signal.name] =
    signal.raw2phys(value, decodeToStr)] *)
Fixpoint decode_values (sigs : list Signal) (vals : list rawvalue)
    (decodeToStr : bool) (signals_values : list (string * pyvalue))
  : result (list (string * pyvalue)) :=
  match sigs, vals with
  | signal :: sigs', value :: vals' =>
      match raw2phys signal value decodeToStr with
      | Raise e => Raise e
      | Ok physical =>
          decode_values sigs' vals' decodeToStr
                        (odict_set signals_values (name signal) physical)
      end
  | _, _ => Ok signals_values
  end.

(** [int(x)] for a decoded value; a value name is not a numeral. *)
Definition py_int (v : pyvalue) : result Z :=
  match v with
  | PyInt z => Ok z
  | PyNum d | PyFloat d => Ok (int_of d)
  | PyStr _ | PyNaN | PyFloatNaN => Raise ValueError
  | PyInfinity _ | PyFloatInfinity _ => Raise OverflowError
  | PyNone => Raise TypeError
  end.

(** The first loop of the multiplexed branch of [decode].  The locals it
    carries from one iteration to the next are [signals_values] and [muxVal],
    both unbound at first; [muxVal] is assigned in every iteration. *)
Fixpoint decode_mux_loop (self : Frame) (data : list Z) (decodeToStr : bool)
    (sigs : list Signal) (signals_values : option (list (string * pyvalue)))
    (muxVal : option Z) : result (option Z) :=
  match sigs with
  | [] => Ok muxVal
  | signal :: rest =>
      let updated :=
        if is_multiplexer signal then
          match unpack (bitstruct_format self (Some [signal])) data with
          | Ok vals =>
              match decode_values (sorted (signals self)) vals decodeToStr []
              with
              | Ok signals_values => Ok (Some signals_values)
              | Raise e => Raise e
              end
          | Raise e => Raise e
          end
        else Ok signals_values in
      match updated with
      | Raise e => Raise e
      | Ok None => Raise (UnboundLocalError "signals_values")
      | Ok (Some []) => Raise IndexError
      | Ok (Some ((key, first) :: others)) =>
          match py_int first with
          | Raise e => Raise e
          | Ok m =>
              decode_mux_loop self data decodeToStr rest
                              (Some ((key, first) :: others)) (Some m)
          end
      end
  end.

(** The signals [decode] selects, and the format it builds for them. *)
Definition decode_layout (self : Frame) (data : list Z) (decodeToStr : bool)
  : result (list fmt_item * list Signal) :=
  if is_complex_multiplexed self then
    Raise (UnboundLocalError "signals")
  else if is_multiplexed self then
    match decode_mux_loop self data decodeToStr (signals self) None None with
    | Raise e => Raise e
    | Ok None => Raise (UnboundLocalError "muxVal")
    | Ok (Some muxVal) =>
        let muxedSignals :=
          filter (fun signal => mux_selected signal (PyInt muxVal))
                 (signals self) in
        Ok (bitstruct_format self (Some muxedSignals), sorted muxedSignals)
    end
  else Ok (bitstruct_format self None, sorted (signals self)).

(** [Frame.decode] *)
Definition decode (self : Frame) (data : list Z) (decodeToStr : bool)
  : result (list (string * pyvalue)) :=
  match decode_layout self data decodeToStr with
  | Raise e => Raise e
  | Ok (fmt, sigs) =>
      match unpack fmt data with
      | Raise e => Raise e
      | Ok vals => decode_values sigs vals decodeToStr []
      end
  end.

End Codec.

(** ** CanMatrix.recalcDLC *)

Record CanMatrix : Type := mkCanMatrix {
  frames : list Frame
}.

(** The body of the loop of [recalcDLC], for one frame. *)
Definition recalcDLC_frame (strategy : string) (frame : Frame) : result Frame :=
  match (if String.eqb "max" strategy then calcDLC frame else Ok frame) with
  | Raise e => Raise e
  | Ok frame =>
      if String.eqb "force" strategy then
        let maxBit := maxBit_loop (signals frame) 0 in
        match ceil_div_8 maxBit with
        | Raise e => Raise e
        | Ok bytes => Ok (set_size frame bytes)
        end
      else Ok frame
  end.

(** The loop of [recalcDLC] over the frames; an exception ends it. *)
Fixpoint recalcDLC_loop (strategy : string) (frames : list Frame)
  : result (list Frame) :=
  match frames with
  | [] => Ok []
  | frame :: rest =>
      match recalcDLC_frame strategy frame with
      | Raise e => Raise e
      | Ok frame' =>
          match recalcDLC_loop strategy rest with
          | Raise e => Raise e
          | Ok rest' => Ok (frame' :: rest')
          end
      end
  end.

(** [CanMatrix.recalcDLC] *)
Definition recalcDLC (self : CanMatrix) (strategy : string)
  : result CanMatrix :=
  match recalcDLC_loop strategy (frames self) with
  | Raise e => Raise e
  | Ok frames' => Ok (mkCanMatrix frames')
  end.

(** ** J1939 identifiers *)

(** [Frame.recalcJ1939Id]; [j1939_pgn] is [None] until it is set, and
    [None & 0xffff] is a [TypeError]. *)
Definition recalcJ1939Id (self : Frame) : result Frame :=
  match j1939_pgn self with
  | None => Raise TypeError
  | Some pgn =>
      let new_id := Z.land (j1939_source self) 255
                    + Z.shiftl (Z.land pgn 65535) 8
                    + Z.shiftl (Z.land (j1939_prio self) 7) 26 in
      Ok (mkFrame (frame_name self) new_id (frame_size self) true
                  (is_complex_multiplexed self) (signals self) (j1939_pgn self)
                  (j1939_source self) (j1939_prio self) true)
  end.

(** [CanId]: the three class attributes, [None] until [__init__] sets them. *)
Record CanId : Type := mkCanId {
  source : option Z;
  destination : option Z;
  pgn : option Z
}.

(** [CanId.__init__] *)
Definition CanId_init (id : Z) (extended : bool) : CanId :=
  if extended then
    mkCanId (Some (Z.land id 255))
            (Some (Z.land (Z.shiftr id (8 * 3)) 255))
            (Some (Z.land (Z.shiftr id 8) 65535))
  else mkCanId None None None.

(** [CanId.tuples] *)
Definition tuples (self : CanId) : option Z * option Z * option Z :=
  (destination self, pgn self, source self).

(** ** Notions used to state the properties *)

(** The bits [s] occupies: [getStartbit() <= bit < getStartbit() + size]. *)
Definition in_field (s : Signal) (bit : Z) : Prop :=
  getStartbit s None None <= bit < getStartbit s None None + size s.

Definition overlap (a b : Signal) : Prop :=
  exists bit, in_field a bit /\ in_field b bit.

(** No two signals of the list, taken at different places, share a bit. *)
Fixpoint pairwise_disjoint (l : list Signal) : Prop :=
  match l with
  | [] => True
  | x :: l' => Forall (fun y => ~ overlap x y) l' /\ pairwise_disjoint l'
  end.

(** The list is in ascending order of start bit. *)
Fixpoint ascending (l : list Signal) : Prop :=
  match l with
  | [] => True
  | x :: l' =>
      Forall (fun y => getStartbit x None None <= getStartbit y None None) l'
      /\ ascending l'
  end.

(** Each signal ends where the ones after it have not yet begun. *)
Fixpoint separated (l : list Signal) : Prop :=
  match l with
  | [] => True
  | x :: l' =>
      Forall (fun y => getStartbit x None None + size x
                       <= getStartbit y None None) l'
      /\ separated l'
  end.

(** The field of [s] lies within a payload of [frame_bits] bits. *)
Definition fits (frame_bits : Z) (s : Signal) : Prop :=
  0 <= getStartbit s None None /\
  0 <= size s /\
  getStartbit s None None + size s <= frame_bits.

(** The largest [getStartbit() + size] over the signals, and 0 if none. *)
Definition max_end (sigs : list Signal) : Z :=
  fold_right (fun s m => Z.max (getStartbit s None None + size s) m) 0 sigs.

(** [self.min <= value <= self.max] *)
Definition in_range (self : Signal) (value : Decimal) : Prop :=
  (min self <= value)%Qc /\ (value <= max self)%Qc.

(** [phys2raw(raw2phys(raw))] *)
Definition phys2raw_raw2phys (self : Signal) (raw : Z) : result rawvalue :=
  match raw2phys self (RawInt raw) false with
  | Ok physical => snd (phys2raw self physical)
  | Raise e => Raise e
  end.

(** [phys2raw(raw2phys(raw)) == raw] *)
Definition roundtrip_ok (self : Signal) (raw : Z) : bool :=
  match phys2raw_raw2phys self raw with
  | Ok (RawInt z) => z =? raw
  | _ => false
  end.

(** Python's [==] between two dicts: the same keys, with equal values. *)
Definition dict_eqb (a b : list (string * pyvalue)) : bool :=
  (Nat.eqb (List.length a) (List.length b)) &&
  forallb (fun '(k, v) =>
             match find (fun '(k', _) => String.eqb k' k) b with
             | Some (_, w) => pyvalue_eqb v w
             | None => false
             end) a.

(** [result == expected], for a call that may have raised. *)
Definition returns_dict (r : result (list (string * pyvalue)))
    (expected : list (string * pyvalue)) : bool :=
  match r with
  | Ok d => dict_eqb d expected
  | Raise _ => false
  end.

(** [frame.decode(frame.encode(data))] *)
Definition decode_encode
    (pack_float : Z -> Decimal -> result (list bool))
    (unpack_float : Z -> list bool -> result Decimal)
    (frame : Frame) (data : list (string * pyvalue))
  : result (list (string * pyvalue)) :=
  match snd (encode pack_float frame data) with
  | Ok payload => decode unpack_float frame payload false
  | Raise e => Raise e
  end.

(** [Signal(name, startBit=..., size=..., multiplex=...)], the other
    arguments at their defaults: little endian, signed, factor 1, offset 0. *)
Definition plain_signal (name : string) (startBit size : Z)
    (multiplex : multiplex_t) : Signal :=
  Signal_init name startBit size true true (of_int 0) (of_int 1) None None
              multiplex false [] [].

(** [Frame(name, size=..., signals=...)], the other arguments at their
    defaults. *)
Definition plain_frame (name : string) (size : Z) (sigs : list Signal) : Frame :=
  mkFrame name 0 size false false sigs None 0 0 false.

(** ** Concrete signals and frames used in the examples *)

(** A big endian signal of 12 bits stored at bit 3, read and written back in
    the other bit numbering and from its least significant bit. *)
Definition signal_be12 : Signal :=
  Signal_init "speed" 3 12 false false (of_int 0) (of_int 1) None None
              MuxNone false [] [].


(** A frame of one byte whose only signal is built with the default
    [multiplex=None]. *)
Definition lone_signal : Signal := plain_signal "level" 0 8 MuxNone.
Definition lone_frame : Frame := plain_frame "Status" 1 [lone_signal].

(** A frame with the J1939 fields source 0x12, PGN 0xBEEF and priority 3. *)
Definition j1939_frame : Frame :=
  mkFrame "J" 0 8 false false [] (Some 48879) 18 3 false.

(** The identifier composed as [source | (pgn << 8) | (priority << 26)]. *)
Definition compose_id (source pgn priority : Z) : Z :=
  Z.lor source (Z.lor (Z.shiftl pgn 8) (Z.shiftl priority 26)).

(** A frame declared with 8 bytes whose signals end at bit 12. *)
Definition wide_frame : Frame :=
  plain_frame "Wide" 8 [plain_signal "a" 0 4 MuxNone; plain_signal "b" 4 8 MuxNone].

(** A frame whose only signal is one bit wide and starts at bit 2^56. *)
Definition huge_frame : Frame :=
  plain_frame "Huge" 0 [plain_signal "far" (2 ^ 56) 1 MuxNone].

(** A gear selector of 3 unsigned bits with a value table. *)
Definition gear_signal : Signal :=
  Signal_init "gear" 0 3 true false (of_int 0) (of_int 1) None None MuxNone
              false [] [(0, "Park"); (1, "Reverse"); (2, "Neutral"); (3, "Drive")].


(** A signal of 8 unsigned bits with factor 0.1 and offset -40. *)
Definition tenth_signal : Signal :=
  Signal_init "tenth" 0 8 true false (of_int (-40)) (Q2Qc (1 # 10))
              None None MuxNone false [] [].



(** A frame of one byte with a signal on bits 4 to 7 and a signal of width
    zero placed at bit 4. *)
Definition nibble_signal : Signal := plain_signal "nibble" 4 4 MuxNone.
Definition empty_signal : Signal := plain_signal "empty" 4 0 MuxNone.
Definition nibble_frame : Frame :=
  plain_frame "Nibble" 1 [nibble_signal; empty_signal].

(** The multiplexed frame of one byte: the multiplexor on bits 0 and 1,
    [A] on bits 2 to 5 in group 0, [B] on bits 2 to 7 in group 1. *)
Definition sig_mux : Signal := plain_signal "mux" 0 2 Multiplexor.
Definition sig_A : Signal := plain_signal "A" 2 4 (MuxNumber 0).
Definition sig_B : Signal := plain_signal "B" 2 6 (MuxNumber 1).
Definition mux_frame : Frame := plain_frame "Muxed" 1 [sig_mux; sig_A; sig_B].

Definition data_A : list (string * pyvalue) :=
  [("mux", PyNum (of_int 0)); ("A", PyNum (of_int 5))].
Definition data_B : list (string * pyvalue) :=
  [("mux", PyNum (of_int 1)); ("B", PyNum (of_int 30))].

(** ** Further operations of the frame format *)

(** A piece of a format that carries a value, as opposed to padding. *)
Definition is_field (it : fmt_item) : bool :=
  match it with
  | Field _ _ _ => true
  | Pad _ => false
  end.

(** ** The PGN of a frame *)

Definition set_j1939_pgn (self : Frame) (value : option Z) : Frame :=
  mkFrame (frame_name self) (id self) (frame_size self) (extended self)
          (is_complex_multiplexed self) (signals self) value
          (j1939_source self) (j1939_prio self) (is_j1939 self).

(** The property [Frame.pgn]: [CanId(self.id).pgn]. *)
Definition Frame_pgn (self : Frame) : option Z :=
  pgn (CanId_init (id self) true).

(** Its setter: [self.j1939_pgn = value; self.recalcJ1939Id()]. *)
Definition Frame_set_pgn (self : Frame) (value : Z) : result Frame :=
  recalcJ1939Id (set_j1939_pgn self (Some value)).

(** ** Looking a frame up in the matrix *)

Definition extendedMarker : Z := 2147483648.  (* 0x80000000 *)

(** The loop of [CanMatrix.frameById] over [self.frames]. *)
Fixpoint frameById_loop (tests : list Frame) (Id : Z) (extended_ : option bool)
  : option Frame :=
  match tests with
  | [] => None
  | test :: rest =>
      if id test =? Id then
        match extended_ with
        | None => Some test
        | Some e =>
            if Bool.eqb (extended test) e then Some test
            else frameById_loop rest Id extended_
        end
      else
        match extended_ with
        | Some _ => frameById_loop rest Id extended_
        | None =>
            if extended test && negb (Z.land Id extendedMarker =? 0) then
              if id test =? Id - extendedMarker then Some test
              else frameById_loop rest Id extended_
            else frameById_loop rest Id extended_
        end
  end.

(** [CanMatrix.frameById] *)
Definition frameById (self : CanMatrix) (Id : Z) (extended_ : option bool)
  : option Frame :=
  frameById_loop (frames self) Id extended_.

(** [CanMatrix.frameByName] *)
Fixpoint frameByName_loop (tests : list Frame) (name : string) : option Frame :=
  match tests with
  | [] => None
  | test :: rest =>
      if String.eqb (frame_name test) name then Some test
      else frameByName_loop rest name
  end.

Definition frameByName (self : CanMatrix) (name : string) : option Frame :=
  frameByName_loop (frames self) name.

(** [CanMatrix.addFrame]: the matrix after the call, and the frame returned,
    [self.frames[len(self.frames) - 1]]. *)
Definition addFrame (self : CanMatrix) (frame : Frame) : CanMatrix * Frame :=
  let fs := (frames self ++ [frame])%list in
  (mkCanMatrix fs, last fs frame).

(** [CanMatrix.encode]: [self.frameById(frame_id).encode(data)]; [None] has
    no [encode]. *)
Definition CanMatrix_encode
    (pack_float : Z -> Decimal -> result (list bool))
    (self : CanMatrix) (frame_id : Z) (data : list (string * pyvalue))
  : Eff (list Z) :=
  match frameById self frame_id None with
  | Some frame => encode pack_float frame data
  | None => raise AttributeError
  end.

(** [CanMatrix.decode] *)
Definition CanMatrix_decode
    (unpack_float : Z -> list bool -> result Decimal)
    (self : CanMatrix) (frame_id : Z) (data : list Z) (decodeToStr : bool)
  : result (list (string * pyvalue)) :=
  match frameById self frame_id None with
  | Some frame => decode unpack_float frame data decodeToStr
  | None => Raise AttributeError
  end.

(** What [frameById] looks for: the same id, with the same [extended] flag
    when one is given; or, when none is given, an extended frame whose id is
    [Id] without the marker bit 31 that [Id] carries. *)
Definition frame_matches (Id : Z) (extended_ : option bool) (test : Frame)
  : bool :=
  match extended_ with
  | Some e => (id test =? Id) && Bool.eqb (extended test) e
  | None =>
      (id test =? Id)
      || (extended test && Z.testbit Id 31 && (id test =? Id - extendedMarker))
  end.

(** ** The value table of a signal *)

Definition set_values (self : Signal) (table : list (Z * string)) : Signal :=
  mkSignal (name self) (startBit self) (size self) (is_little_endian self)
           (is_signed self) (offset self) (factor self) (min self) (max self)
           (multiplex self) (is_float self) (attributes self) table
           (mux_val self) (is_multiplexer self).

(** [table[key] = valueName] on the dict of values: the entry of an existing
    key is replaced where it is, a new key is added at the end. *)
Fixpoint values_set (table : list (Z * string)) (key : Z) (valueName : string)
  : list (Z * string) :=
  match table with
  | [] => [(key, valueName)]
  | (k, v) :: rest =>
      if k =? key then (k, valueName) :: rest
      else (k, v) :: values_set rest key valueName
  end.

(** [Signal.addValues] *)
Definition addValues (self : Signal) (value : Z) (valueName : string) : Signal :=
  set_values self (values_set (values self) value valueName).

(** ** The signals of a frame *)

Definition set_signals (self : Frame) (sigs : list Signal) : Frame :=
  mkFrame (frame_name self) (id self) (frame_size self) (extended self)
          (is_complex_multiplexed self) sigs (j1939_pgn self)
          (j1939_source self) (j1939_prio self) (is_j1939 self).

(** [Frame.signalByName] *)
Fixpoint signalByName_loop (sigs : list Signal) (n : string) : option Signal :=
  match sigs with
  | [] => None
  | signal :: rest =>
      if String.eqb (name signal) n then Some signal
      else signalByName_loop rest n
  end.

Definition signalByName (self : Frame) (n : string) : option Signal :=
  signalByName_loop (signals self) n.

(** [Frame.addSignal]: the frame after the call, and the signal returned,
    [self.signals[len(self.signals) - 1]]. *)
Definition addSignal (self : Frame) (signal : Signal) : Frame * Signal :=
  let sigs := (signals self ++ [signal])%list in
  (set_signals self sigs, last sigs signal).

(** [l.remove(x)] where [x] is the object at index [i] of [l] and the objects
    of the list are distinct ([Signal] compares by identity): the element at
    index [i] goes. *)
Fixpoint remove_at {A : Type} (i : nat) (l : list A) : list A :=
  match l, i with
  | [], _ => []
  | _ :: l', O => l'
  | x :: l', S j => x :: remove_at j l'
  end.

(** The inner loop of [CanMatrix.deleteZeroSignals],
    [for signal in frame.signals: if 0 == signal.size:
    frame.signals.remove(signal)].  The list iterator holds the index [i] of
    the next element and stops when [i] reaches the current length; the loop
    body removes from the very list that is iterated. *)
Fixpoint deleteZero_loop (fuel i : nat) (sigs : list Signal) : list Signal :=
  match fuel with
  | O => sigs
  | S fuel' =>
      match nth_error sigs i with
      | None => sigs
      | Some signal =>
          if 0 =? size signal
          then deleteZero_loop fuel' (S i) (remove_at i sigs)
          else deleteZero_loop fuel' (S i) sigs
      end
  end.

(** The index grows at each step and the list never does: as many steps as
    the list is long are enough. *)
Definition deleteZeroSignals_frame (frame : Frame) : Frame :=
  set_signals frame
    (deleteZero_loop (List.length (signals frame)) 0 (signals frame)).

(** [CanMatrix.deleteZeroSignals] *)
Definition deleteZeroSignals (self : CanMatrix) : CanMatrix :=
  mkCanMatrix (map deleteZeroSignals_frame (frames self)).

(** What that loop leaves of a list: after a signal of width zero is removed,
    the signal that follows it is stepped over. *)
Fixpoint skipping_zero (l : list Signal) : list Signal :=
  match l with
  | [] => []
  | s :: rest =>
      if 0 =? size s then
        match rest with
        | [] => []
        | t :: rest' => t :: skipping_zero rest'
        end
      else s :: skipping_zero rest
  end.

Definition nonzero_width (s : Signal) : bool := negb (0 =? size s).

(** No signal of width zero is directly followed by another one. *)
Fixpoint no_adjacent_zero (l : list Signal) : Prop :=
  match l with
  | [] => True
  | s :: rest =>
      match rest with
      | [] => True
      | t :: _ => ~ (size s = 0 /\ size t = 0)
      end /\ no_adjacent_zero rest
  end.

(** The multiplexed frame with the multiplexor listed after [A]. *)
Definition late_mux_frame : Frame :=
  plain_frame "LateMux" 1 [sig_A; sig_mux; sig_B].

(** A frame with a signal of width zero between two signals. *)
Definition gap_frame : Frame :=
  plain_frame "Gap" 1 [plain_signal "a" 0 4 MuxNone;
                       plain_signal "none" 4 0 MuxNone;
                       plain_signal "b" 4 4 MuxNone].

(** ** computeSignalValueInFrame *)

(** [(7 - (b % 8)) + 8*(int(b/8))]: the position of bit [b] when the bits of
    each byte are counted from the other end.  [b/8] is a float quotient that
    [int] truncates towards zero. *)
Definition sawtooth (b : Z) : Z := (7 - b mod 8) + 8 * Z.quot b 8.

(** [x << n]; a negative shift count is a [ValueError]. *)
Definition py_shiftl (x n : Z) : result Z :=
  if n <? 0 then Raise ValueError else Ok (Z.shiftl x n).

(** The [while ln > 0] loop of the Intel branch. *)
Fixpoint intel_loop (fuel : nat) (pos ln value frame : Z) : result Z :=
  match fuel with
  | O => Ok frame
  | S fuel' =>
      if 0 <? ln then
        let availbitsInByte := 1 + pos mod 8 in
        let valueInByte := Z.land value (Z.shiftl 1 availbitsInByte - 1) in
        let posInFrame := sawtooth pos in
        match py_shiftl valueInByte posInFrame with
        | Raise e => Raise e
        | Ok shifted =>
            intel_loop fuel' (pos + 15) (ln - availbitsInByte)
                       (Z.shiftr value availbitsInByte) (Z.lor frame shifted)
        end
      else Ok frame
  end.

(** [int(format(value, 'b')[::-1], 2)] for a positive [value]: its binary
    digits read from the other end. *)
Fixpoint mirror_digits (p : positive) (acc : Z) : Z :=
  match p with
  | xH => 2 * acc + 1
  | xO q => mirror_digits q (2 * acc)
  | xI q => mirror_digits q (2 * acc + 1)
  end.

(** The same for any [value]: ['0'] for zero, and a [ValueError] for a
    negative value, whose digits end in the sign once reversed. *)
Definition mirror (value : Z) : result Z :=
  match value with
  | Z0 => Ok 0
  | Zpos p => Ok (mirror_digits p 0)
  | Zneg _ => Raise ValueError
  end.

(** [computeSignalValueInFrame]; each round of the Intel loop takes at least
    one bit off [ln], so that [ln] rounds are enough. *)
Definition computeSignalValueInFrame (startBit ln fmt value : Z) : result Z :=
  if fmt =? 1 then
    intel_loop (Z.to_nat ln) (sawtooth startBit) ln value 0
  else
    let lsbpos := sawtooth startBit in
    let msbpos := 1 + lsbpos - ln in
    match mirror value with
    | Raise e => Raise e
    | Ok cvalue => py_shiftl cvalue msbpos
    end.

(** ** Unused bits and dummy signals *)

(** The list [l] with [v] at index [k]. *)
Fixpoint update (l : list Z) (k : nat) (v : Z) : list Z :=
  match l, k with
  | [], _ => []
  | _ :: l', O => v :: l'
  | x :: l', S k' => x :: update l' k' v
  end.

(** [l[idx] = v] on a Python list: an index from [-len(l)] to [-1] counts from
    the end, one outside [-len(l) .. len(l) - 1] is an [IndexError]. *)
Definition list_assign (l : list Z) (idx v : Z) : result (list Z) :=
  let n := Z.of_nat (List.length l) in
  if (0 <=? idx) && (idx <? n) then Ok (update l (Z.to_nat idx) v)
  else if (- n <=? idx) && (idx <? 0) then Ok (update l (Z.to_nat (n + idx)) v)
  else Raise IndexError.

(** [l[p]] for an index within the list. *)
Definition zth (l : list Z) (p : Z) : Z := nth (Z.to_nat p) l 0.

(** [range(a, a + n)] *)
Definition zrange (a n : Z) : list Z :=
  map (fun k => a + Z.of_nat k) (seq 0 (Z.to_nat n)).

(** [for bit in bits: field[bit] = i] *)
Fixpoint mark_bits (bits : list Z) (field : list Z) (i : Z)
  : result (list Z) :=
  match bits with
  | [] => Ok field
  | bit :: rest =>
      match list_assign field bit i with
      | Raise e => Raise e
      | Ok field' => mark_bits rest field' i
      end
  end.

(** The loop of [findNotUsedBits] over the signals: [i] counts them from 1,
    little endian signals mark [bitfieldLe], the others [bitfieldBe]. *)
Fixpoint mark_signals (sigs : list Signal) (i : Z)
    (bitfieldLe bitfieldBe : list Z) : result (list Z * list Z) :=
  match sigs with
  | [] => Ok (bitfieldLe, bitfieldBe)
  | sig :: rest =>
      let i := i + 1 in
      let bits := zrange (getStartbit sig None None) (size sig) in
      if is_little_endian sig then
        match mark_bits bits bitfieldLe i with
        | Raise e => Raise e
        | Ok le => mark_signals rest i le bitfieldBe
        end
      else
        match mark_bits bits bitfieldBe i with
        | Raise e => Raise e
        | Ok be => mark_signals rest i bitfieldLe be
        end
  end.

(** The two double loops that close [findNotUsedBits]: position [i*8+j] takes
    the entry of [bitfieldLe] at [i*8+(7-j)], and where that is 0 the entry
    of [bitfieldBe] at [i*8+j]. *)
Definition merge_bitfields (bitfieldLe bitfieldBe : list Z) : list Z :=
  let bitfield :=
    map (fun p => zth bitfieldLe (p / 8 * 8 + (7 - p mod 8))) (zrange 0 64) in
  map (fun p => if zth bitfield p =? 0 then zth bitfieldBe p
                else zth bitfield p) (zrange 0 64).

(** [Frame.findNotUsedBits] *)
Definition findNotUsedBits (self : Frame) : result (list Z) :=
  match mark_signals (signals self) 0 (repeat 0 64%nat) (repeat 0 64%nat) with
  | Raise e => Raise e
  | Ok (bitfieldLe, bitfieldBe) => Ok (merge_bitfields bitfieldLe bitfieldBe)
  end.

(** [Signal("_Dummy_%s_%d" % (self.name, sigCount), size=..., startBit=...,
    is_little_endian=False)] *)
Definition dummy_signal (frame_name : string) (sigCount startBit size : Z)
  : Signal :=
  Signal_init ("_Dummy_" ++ frame_name ++ "_" ++ str sigCount) startBit size
              false true (of_int 0) (of_int 1) None None MuxNone false [] [].

(** The loop of [createDummySignals] over the positions [i], [i + 1], ... of
    the bit field, whose entries from [i] on are [bitfield]; the result is
    the signals added, in order. *)
Fixpoint dummy_scan (frame_name : string) (bitfield : list Z)
    (i startBit sigCount : Z) : list Signal :=
  match bitfield with
  | [] => []
  | b :: rest =>
      let startBit := if (b =? 0) && (startBit =? -1) then i else startBit in
      if ((i =? 63) || negb (b =? 0)) && negb (startBit =? -1) then
        let i' := if i =? 63 then 64 else i in
        dummy_signal frame_name sigCount startBit (i' - startBit)
        :: dummy_scan frame_name rest (i + 1) (-1) (sigCount + 1)
      else dummy_scan frame_name rest (i + 1) startBit sigCount
  end.

(** [Frame.createDummySignals] *)
Definition createDummySignals (self : Frame) : result Frame :=
  match findNotUsedBits self with
  | Raise e => Raise e
  | Ok bitfield =>
      Ok (set_signals self
            (signals self
             ++ dummy_scan (frame_name self) bitfield 0 (-1) 0)%list)
  end.

(** Bit [p] lies in the field of a signal of the given byte order. *)
Definition claims (little : bool) (sigs : list Signal) (p : Z) : Prop :=
  exists s, In s sigs /\ is_little_endian s = little /\ in_field s p.

(** A frame of 12 bytes, as CAN FD allows, with a signal in its ninth byte. *)
Definition fd_frame : Frame :=
  plain_frame "Fd" 12 [plain_signal "head" 0 8 MuxNone;
                       plain_signal "tail" 64 8 MuxNone].

(** A raw value that the bit field of the signal can hold: an integer within
    the two's complement range of [size] bits for a signed signal, within
    [0 .. 2^size - 1] for an unsigned one. *)
Definition packable (s : Signal) (v : rawvalue) : Prop :=
  match v with
  | RawInt z =>
      if is_signed s then - 2 ^ (size s - 1) <= z < 2 ^ (size s - 1)
      else 0 <= z < 2 ^ size s
  | RawDec _ | RawInfinity _ => False
  end.

(** Values for the two signals of [wide_frame]. *)
Definition wide_data : list (string * pyvalue) :=
  [("a", PyNum (of_int 3)); ("b", PyNum (of_int 100))].

(** The signals of [wide_frame] listed in the other order. *)
Definition wide_frame_reversed : Frame :=
  plain_frame "Wide" 8 [plain_signal "b" 4 8 MuxNone; plain_signal "a" 0 4 MuxNone].

(** A codec without floating point fields. *)
Definition no_pack_float (w : Z) (d : Decimal) : result (list bool) :=
  Raise BitstructError.
Definition no_unpack_float (w : Z) (bits : list bool) : result Decimal :=
  Raise BitstructError.

(** A frame of one byte without a multiplexer: both signals carry a multiplex
    number. *)
Definition grouped_frame : Frame :=
  plain_frame "Grouped" 1 [plain_signal "x" 0 4 (MuxNumber 0);
                           plain_signal "y" 4 4 (MuxNumber 1)].
Definition grouped_data : list (string * pyvalue) :=
  [("x", PyNum (of_int 3)); ("y", PyNum (of_int (-2)))].
(** * Properties *)

(** ** Start bits *)

Section StartBit.

Variable self : Signal.
Variables bitNumbering startLittle : option bool.

Lemma byte_reflect_mod (b : Z) : byte_reflect b mod 8 = 7 - b mod 8.
Proof.
  unfold byte_reflect.
  pose proof (Z.mod_pos_bound b 8 ltac:(lia)) as Hb.
  replace (b - b mod 8 + 7 - b mod 8) with (7 - b mod 8 + (b / 8) * 8).
  - rewrite Z.mod_add by lia. apply Z.mod_small. lia.
  - pose proof (Z.div_mod b 8 ltac:(lia)). lia.
Qed.

(** The reflection of a bit within its byte is its own inverse. *)
Lemma byte_reflect_involutive (b : Z) : byte_reflect (byte_reflect b) = b.
Proof.
  pose proof (byte_reflect_mod b) as Hm.
  unfold byte_reflect at 1. rewrite Hm. unfold byte_reflect. lia.
Qed.

Lemma set_startBit_same : set_startBit self (startBit self) = self.
Proof. destruct self; reflexivity. Qed.

(** The position [setStartbit] computes from what [getStartbit] returns is
    the stored start bit: the two transforms are undone in reverse order. *)
Lemma setStartbit_position_getStartbit :
  setStartbit_position self (getStartbit self bitNumbering startLittle)
                       bitNumbering startLittle = startBit self.
Proof.
  unfold setStartbit_position, getStartbit.
  destruct (numbering_differs self bitNumbering),
           (from_lsb self startLittle);
    rewrite ?byte_reflect_involutive; lia.
Qed.

End StartBit.

(** C5: when [setStartbit], applied to the result of [getStartbit] with the
    same [bitNumbering] and [startLittle], succeeds, it leaves the signal with
    the start bit it had (and the signal as a whole as it was). *)
Theorem setStartbit_getStartbit_roundtrip :
  forall (self self' : Signal) (bitNumbering startLittle : option bool)
         (out : list event),
    setStartbit self (getStartbit self bitNumbering startLittle)
                bitNumbering startLittle = (self', (out, Ok tt)) ->
    startBit self' = startBit self /\ self' = self.
Proof.
  intros self self' bn sl out H.
  unfold setStartbit in H.
  rewrite setStartbit_position_getStartbit in H.
  destruct (startBit self <? 0) eqn:Hneg.
  - cbn in H. inversion H.
  - unfold ret in H. inversion H; subst.
    rewrite set_startBit_same. split; reflexivity.
Qed.

(** The round trip succeeds exactly when the stored start bit is not
    negative. *)
Lemma setStartbit_getStartbit_succeeds :
  forall (self : Signal) (bitNumbering startLittle : option bool),
    0 <= startBit self ->
    setStartbit self (getStartbit self bitNumbering startLittle)
                bitNumbering startLittle = (self, ret tt).
Proof.
  intros self bn sl H. unfold setStartbit.
  rewrite setStartbit_position_getStartbit.
  destruct (startBit self <? 0) eqn:Hneg; [apply Z.ltb_lt in Hneg; lia|].
  now rewrite set_startBit_same.
Qed.

Lemma setStartbit_getStartbit_roundtrip_witness :
  getStartbit signal_be12 (Some true) (Some true) = 9 /\
  startBit (fst (setStartbit signal_be12 9 (Some true) (Some true))) = 3.
Proof.
  split; [reflexivity|].
  apply (setStartbit_getStartbit_roundtrip signal_be12
           (fst (setStartbit signal_be12 9 (Some true) (Some true)))
           (Some true) (Some true) []).
  reflexivity.
Defined.

(** C6: [setStartbit] computes a bit position by the byte reflection and the
    lsb-to-msb transform; when that position is negative the call raises and
    the signal is left as it was, otherwise the position is stored. *)
Theorem setStartbit_rejects_negative :
  forall (self : Signal) (startBit' : Z) (bitNumbering startLittle : option bool),
    let position :=
      setStartbit_position self startBit' bitNumbering startLittle in
    (position < 0 ->
       fst (setStartbit self startBit' bitNumbering startLittle) = self /\
       snd (snd (setStartbit self startBit' bitNumbering startLittle))
         = Raise (Exception "startBit lower zero")) /\
    (0 <= position ->
       startBit (fst (setStartbit self startBit' bitNumbering startLittle))
         = position /\
       snd (snd (setStartbit self startBit' bitNumbering startLittle)) = Ok tt).
Proof.
  intros self b bn sl position. unfold setStartbit. fold position.
  split; intros H.
  - destruct (position <? 0) eqn:E; [|apply Z.ltb_ge in E; lia].
    split; reflexivity.
  - destruct (position <? 0) eqn:E; [apply Z.ltb_lt in E; lia|].
    split; reflexivity.
Qed.

Lemma setStartbit_rejects_negative_witness :
  (fst (setStartbit signal_be12 4 None (Some true)) = signal_be12 /\
   snd (snd (setStartbit signal_be12 4 None (Some true)))
     = Raise (Exception "startBit lower zero")) /\
  (startBit (fst (setStartbit signal_be12 20 None (Some true))) = 9 /\
   snd (snd (setStartbit signal_be12 20 None (Some true))) = Ok tt).
Proof.
  split.
  - apply (setStartbit_rejects_negative signal_be12 4 None (Some true)).
    vm_compute. reflexivity.
  - apply (setStartbit_rejects_negative signal_be12 20 None (Some true)).
    vm_compute. discriminate.
Defined.

(** ** Multiplexed frames *)

(** [is_multiplexed] follows the [is_multiplexer] flags of the signals. *)
Lemma is_multiplexed_iff (self : Frame) :
  is_multiplexed self = true <->
  exists sig, In sig (signals self) /\ is_multiplexer sig = true.
Proof.
  unfold is_multiplexed. induction (signals self) as [|s l IH]; simpl.
  - split; [discriminate|]. intros [sig [[] _]].
  - destruct (is_multiplexer s) eqn:E.
    + split; [|reflexivity]. intros _. exists s. auto.
    + rewrite IH. split.
      * intros [sig [Hin Hm]]. exists sig. auto.
      * intros [sig [[->|Hin] Hm]]; [congruence|]. exists sig. auto.
Qed.

(** [multiplexSetter] flags as multiplexer every signal whose [multiplex] is
    not a number, the ones built with [None] included. *)
Lemma is_multiplexer_Signal_init :
  forall nm sb sz le sg off fac mn mx (m : multiplex_t) fl attrs vals,
    is_multiplexer (Signal_init nm sb sz le sg off fac mn mx m fl attrs vals)
    = match m with MuxNumber _ => false | _ => true end.
Proof. intros. destruct m; reflexivity. Qed.

(** C4, evaluated on the code: a frame whose only signal has [multiplex=None],
    so that no signal of it is designated as the multiplexor, is reported as
    multiplexed. *)
Theorem is_multiplexed_without_multiplexor :
  multiplex lone_signal = MuxNone /\
  Forall (fun sig => multiplex sig <> Multiplexor) (signals lone_frame) /\
  is_multiplexer lone_signal = true /\
  is_multiplexed lone_frame = true.
Proof.
  repeat split.
  repeat constructor. discriminate.
Qed.

(** ** J1939 identifiers *)

(** With the fields in their ranges, the sum [recalcJ1939Id] computes is the
    bitwise or of the shifted fields. *)
Lemma recalcJ1939Id_j1939_frame :
  exists f, recalcJ1939Id j1939_frame = Ok f /\
            id f = compose_id 18 48879 3 /\ id f = 213839634.
Proof. eexists. repeat split. Qed.

Lemma land_low (a n : Z) : 0 <= n -> Z.land a (2 ^ n - 1) = a mod 2 ^ n.
Proof.
  intros Hn. rewrite <- Z.land_ones by assumption.
  now rewrite Z.ones_equiv, Z.sub_1_r.
Qed.

(** For any fields, the identifier [recalcJ1939Id] builds decomposes into
    the masked source and PGN, and a destination byte that holds the masked
    priority shifted by two. *)
Lemma CanId_recalcJ1939Id (f : Frame) (p : Z) :
  j1939_pgn f = Some p ->
  exists f',
    recalcJ1939Id f = Ok f' /\
    source (CanId_init (id f') true) = Some (Z.land (j1939_source f) 255) /\
    pgn (CanId_init (id f') true) = Some (Z.land p 65535) /\
    destination (CanId_init (id f') true)
      = Some (Z.shiftl (Z.land (j1939_prio f) 7) 2).
Proof.
  intros Hp. unfold recalcJ1939Id. rewrite Hp. eexists. split; [reflexivity|].
  cbn [id CanId_init source pgn destination].
  change 255 with (2 ^ 8 - 1). change 65535 with (2 ^ 16 - 1).
  change 7 with (2 ^ 3 - 1).
  rewrite !land_low by lia.
  rewrite !Z.shiftr_div_pow2, !Z.shiftl_mul_pow2 by lia.
  pose proof (Z.mod_pos_bound (j1939_source f) (2 ^ 8) ltac:(lia)) as Hs.
  pose proof (Z.mod_pos_bound p (2 ^ 16) ltac:(lia)) as Hg.
  pose proof (Z.mod_pos_bound (j1939_prio f) (2 ^ 3) ltac:(lia)) as Hr.
  set (s := j1939_source f mod 2 ^ 8) in *.
  set (g := p mod 2 ^ 16) in *.
  set (r := j1939_prio f mod 2 ^ 3) in *.
  change (2 ^ 8) with 256 in *. change (2 ^ 16) with 65536 in *.
  change (2 ^ 3) with 8 in *. change (2 ^ 26) with 67108864.
  change (2 ^ (8 * 3)) with 16777216. change (2 ^ 2) with 4.
  repeat split; f_equal.
  - pose proof (Z.div_mod (s + g * 256 + r * 67108864) 256 ltac:(lia)).
    pose proof (Z.mod_pos_bound (s + g * 256 + r * 67108864) 256 ltac:(lia)).
    lia.
  - assert ((s + g * 256 + r * 67108864) / 256 = g + r * 262144) as ->
      by (symmetry; apply Z.div_unique with s; lia).
    symmetry; apply Z.mod_unique with (r * 4); lia.
  - assert ((s + g * 256 + r * 67108864) / 16777216 = r * 4) as ->
      by (symmetry; apply Z.div_unique with (s + g * 256); lia).
    apply Z.mod_small; lia.
Qed.

(** C10, as the code has it: the identifier composed from source 0x12,
    PGN 0xBEEF and priority 3 decomposes into source 0x12 and PGN 0xBEEF;
    [CanId] has no priority field, its third value is the destination byte,
    bits 24 to 31 of the identifier, here 0x0C, of which the priority is the
    part above the two low bits. *)
Theorem CanId_of_composed_id :
  let c := CanId_init (compose_id 18 48879 3) true in
  source c = Some 18 /\
  pgn c = Some 48879 /\
  destination c = Some 12 /\
  tuples c = (Some 12, Some 48879, Some 18) /\
  Z.shiftr 12 2 = 3.
Proof. repeat split. Qed.

(** The claim as stated fails: none of the three values [CanId] holds for the
    composed identifier is the priority 3. *)
Lemma CanId_does_not_return_priority :
  let c := CanId_init (compose_id 18 48879 3) true in
  ~ In (Some 3) [source c; pgn c; destination c].
Proof.
  cbv. intros [H|[H|[H|[]]]]; discriminate.
Qed.

(** The start bit and the size of a signal built with [plain_signal]. *)
Lemma start_plain_signal (nm : string) (sb sz : Z) (m : multiplex_t) :
  getStartbit (plain_signal nm sb sz m) None None = sb.
Proof. destruct m; reflexivity. Qed.

Lemma size_plain_signal (nm : string) (sb sz : Z) (m : multiplex_t) :
  size (plain_signal nm sb sz m) = sz.
Proof. destruct m; reflexivity. Qed.

(** ** Recomputing the DLC *)

Lemma max_end_nonneg (sigs : list Signal) : 0 <= max_end sigs.
Proof. induction sigs; simpl; lia. Qed.

(** [max_end] is an upper bound of the signals' ends ... *)
Lemma max_end_upper (sigs : list Signal) (s : Signal) :
  In s sigs -> getStartbit s None None + size s <= max_end sigs.
Proof.
  induction sigs as [|x l IH]; simpl; [tauto|].
  intros [->|Hin]; [lia|]. specialize (IH Hin). lia.
Qed.

(** ... and it is the end of one of them, unless it is 0. *)
Lemma max_end_attained (sigs : list Signal) :
  max_end sigs = 0 \/
  exists s, In s sigs /\ max_end sigs = getStartbit s None None + size s.
Proof.
  induction sigs as [|x l IH]; simpl; [auto|].
  destruct (Z.max_spec (getStartbit x None None + size x) (max_end l))
    as [[Hlt ->]|[Hge ->]].
  - destruct IH as [H0|[s [Hin Hs]]]; [auto|]. right. exists s. auto.
  - right. exists x. auto.
Qed.

(** The loop of [calcDLC] computes that maximum. *)
Lemma maxBit_loop_max_end (sigs : list Signal) :
  forall maxBit, 0 <= maxBit ->
    maxBit_loop sigs maxBit = Z.max maxBit (max_end sigs).
Proof.
  induction sigs as [|x l IH]; intros m Hm; simpl.
  - lia.
  - destruct (m <? getStartbit x None None + size x) eqn:E.
    + apply Z.ltb_lt in E. rewrite IH by lia. lia.
    + apply Z.ltb_ge in E. rewrite IH by lia. lia.
Qed.

(** An integer of up to 53 bits, and [2^53] itself, is a float. *)
Lemma nearest_double_exact (n : Z) : 0 <= n <= 2 ^ 53 -> nearest_double n = n.
Proof.
  intros Hn. unfold nearest_double.
  destruct (Z.eq_dec n (2 ^ 53)) as [->|Hne]; [reflexivity|].
  destruct (Z.eq_dec n 0) as [->|Hn0]; [reflexivity|].
  assert (Z.log2 (Z.abs n) < 53)
    by (rewrite Z.abs_eq by lia; apply Z.log2_lt_pow2; lia).
  destruct (Z.leb_spec (Z.log2 (Z.abs n) + 1 - 53) 0); [reflexivity | lia].
Qed.

(** Up to [2^53] bits the float quotient is exact: [ceil_div_8] returns the
    least number of bytes that hold the bits. *)
Lemma ceil_div_8_least (a : Z) :
  0 <= a <= 2 ^ 53 ->
  exists bytes, ceil_div_8 a = Ok bytes /\ a <= 8 * bytes < a + 8.
Proof.
  intros Ha. unfold ceil_div_8. rewrite nearest_double_exact by assumption.
  destruct (Z.leb_spec (2 ^ 1027) (Z.abs a)) as [Hbig|_].
  - exfalso. rewrite Z.abs_eq in Hbig by lia.
    assert (2 ^ 53 < 2 ^ 1027) by (apply Z.pow_lt_mono_r; lia). lia.
  - eexists. split; [reflexivity|].
    pose proof (Z.div_mod (- a) 8 ltac:(lia)) as Hd.
    pose proof (Z.mod_pos_bound (- a) 8 ltac:(lia)) as Hb. lia.
Qed.

Lemma calcDLC_size (f : Frame) :
  max_end (signals f) <= 2 ^ 53 ->
  exists bytes,
    max_end (signals f) <= 8 * bytes < max_end (signals f) + 8 /\
    calcDLC f = Ok (set_size f (Z.max (frame_size f) bytes)).
Proof.
  intros Hm. unfold calcDLC.
  rewrite maxBit_loop_max_end by lia.
  pose proof (max_end_nonneg (signals f)). rewrite (Z.max_r 0) by assumption.
  destruct (ceil_div_8_least (max_end (signals f)) ltac:(lia))
    as [bytes [-> Hb]].
  exists bytes. auto.
Qed.

Lemma recalcDLC_frame_max (f : Frame) :
  max_end (signals f) <= 2 ^ 53 ->
  exists bytes,
    max_end (signals f) <= 8 * bytes < max_end (signals f) + 8 /\
    recalcDLC_frame "max" f = Ok (set_size f (Z.max (frame_size f) bytes)).
Proof.
  intros Hm. destruct (calcDLC_size f Hm) as [bytes [Hb Hc]].
  exists bytes. split; [exact Hb|].
  unfold recalcDLC_frame. cbn [String.eqb Ascii.eqb Bool.eqb].
  rewrite Hc. reflexivity.
Qed.

Lemma recalcDLC_frame_force (f : Frame) :
  max_end (signals f) <= 2 ^ 53 ->
  exists bytes,
    max_end (signals f) <= 8 * bytes < max_end (signals f) + 8 /\
    recalcDLC_frame "force" f = Ok (set_size f bytes).
Proof.
  intros Hm. unfold recalcDLC_frame. cbn [String.eqb Ascii.eqb Bool.eqb].
  rewrite maxBit_loop_max_end by lia.
  pose proof (max_end_nonneg (signals f)). rewrite (Z.max_r 0) by assumption.
  destruct (ceil_div_8_least (max_end (signals f)) ltac:(lia))
    as [bytes [-> Hb]].
  exists bytes. auto.
Qed.

(** C9, for frames whose signals end at or below bit [2^53], where the float
    quotient [maxBit / 8] is exact: both strategies succeed and change
    nothing but the size of each frame.  With "max" the new size is the
    maximum of the old one and of the least number of bytes that hold the
    largest [start bit + size] of the signals, hence not below the old size;
    with "force" it is exactly that least number of bytes. *)
Theorem recalcDLC_max_and_force (m : CanMatrix) :
  Forall (fun f => max_end (signals f) <= 2 ^ 53) (frames m) ->
  (exists m',
      recalcDLC m "max" = Ok m' /\
      Forall2 (fun f f' =>
                 exists bytes,
                   max_end (signals f) <= 8 * bytes < max_end (signals f) + 8 /\
                   f' = set_size f (Z.max (frame_size f) bytes) /\
                   frame_size f <= frame_size f')
              (frames m) (frames m')) /\
  (exists m',
      recalcDLC m "force" = Ok m' /\
      Forall2 (fun f f' =>
                 exists bytes,
                   max_end (signals f) <= 8 * bytes < max_end (signals f) + 8 /\
                   f' = set_size f bytes)
              (frames m) (frames m')).
Proof.
  intros Hm. unfold recalcDLC. split.
  - induction Hm as [|f l Hf Hl IH].
    + exists (mkCanMatrix []). split; [reflexivity | constructor].
    + destruct IH as [m' [Hrec Hall]].
      destruct (recalcDLC_frame_max f Hf) as [bytes [Hb Hr]].
      cbn [recalcDLC_loop]. rewrite Hr.
      destruct (recalcDLC_loop "max" l) as [l'|e]; [|discriminate].
      injection Hrec as <-. cbn [frames] in Hall.
      eexists. split; [reflexivity|]. cbn [frames].
      constructor; [|exact Hall].
      exists bytes. split; [exact Hb|]. split; [reflexivity|].
      cbn [set_size frame_size]. lia.
  - induction Hm as [|f l Hf Hl IH].
    + exists (mkCanMatrix []). split; [reflexivity | constructor].
    + destruct IH as [m' [Hrec Hall]].
      destruct (recalcDLC_frame_force f Hf) as [bytes [Hb Hr]].
      cbn [recalcDLC_loop]. rewrite Hr.
      destruct (recalcDLC_loop "force" l) as [l'|e]; [|discriminate].
      injection Hrec as <-. cbn [frames] in Hall.
      eexists. split; [reflexivity|]. cbn [frames].
      constructor; [|exact Hall].
      exists bytes. auto.
Qed.

Lemma recalcDLC_max_and_force_witness :
  (exists m',
      recalcDLC (mkCanMatrix [wide_frame]) "max" = Ok m' /\
      Forall2 (fun f f' =>
                 exists bytes,
                   max_end (signals f) <= 8 * bytes < max_end (signals f) + 8 /\
                   f' = set_size f (Z.max (frame_size f) bytes) /\
                   frame_size f <= frame_size f')
              [wide_frame] (frames m')) /\
  (exists m',
      recalcDLC (mkCanMatrix [wide_frame]) "force" = Ok m' /\
      Forall2 (fun f f' =>
                 exists bytes,
                   max_end (signals f) <= 8 * bytes < max_end (signals f) + 8 /\
                   f' = set_size f bytes)
              [wide_frame] (frames m')).
Proof.
  apply (recalcDLC_max_and_force (mkCanMatrix [wide_frame])).
  constructor; [|constructor].
  unfold wide_frame, plain_frame, max_end.
  cbn [signals fold_right].
  rewrite !start_plain_signal, !size_plain_signal. vm_compute. discriminate.
Defined.

(** The two strategies differ: "force" brings a frame of 8 bytes whose signals
    end at bit 12 down to 2 bytes, "max" leaves it at 8. *)
Example recalcDLC_force_reduces :
  recalcDLC (mkCanMatrix [wide_frame]) "force"
  = Ok (mkCanMatrix [set_size wide_frame 2]) /\
  recalcDLC (mkCanMatrix [wide_frame]) "max"
  = Ok (mkCanMatrix [set_size wide_frame 8]).
Proof. split; reflexivity. Qed.

(** The claim as stated fails beyond [2^53] bits, where [maxBit / 8] is
    rounded to the nearest float: a signal of one bit at bit [2^56] ends at
    [2^56 + 1], which takes [2^53 + 1] bytes, and "force" sets the size to
    [2^53], "max" leaves a smaller size at [2^53] too. *)
Lemma recalcDLC_beyond_float :
  max_end (signals huge_frame) = 2 ^ 56 + 1 /\
  recalcDLC (mkCanMatrix [huge_frame]) "force"
  = Ok (mkCanMatrix [set_size huge_frame (2 ^ 53)]) /\
  recalcDLC (mkCanMatrix [huge_frame]) "max"
  = Ok (mkCanMatrix [set_size huge_frame (2 ^ 53)]) /\
  8 * 2 ^ 53 < max_end (signals huge_frame).
Proof.
  assert (H : max_end (signals huge_frame) = 2 ^ 56 + 1).
  { unfold huge_frame, plain_frame, max_end. cbn [signals fold_right].
    rewrite start_plain_signal, size_plain_signal. reflexivity. }
  split; [exact H|]. split; [reflexivity|]. split; [reflexivity|].
  rewrite H. reflexivity.
Qed.

(** ** Decimal values *)

Lemma this_of_int (z : Z) : this (of_int z) = inject_Z z.
Proof.
  unfold of_int, Q2Qc. cbn [this]. apply Qred_identity.
  cbn. apply Z.gcd_1_r.
Qed.

Lemma int_of_of_int (z : Z) : int_of (of_int z) = z.
Proof.
  unfold int_of. rewrite this_of_int. cbn. apply Z.quot_1_r.
Qed.

Lemma is_zero_true (x : Decimal) : is_zero x = true <-> x = Q2Qc 0.
Proof.
  unfold is_zero. split.
  - intros H. apply Z.eqb_eq in H. apply Qc_is_canon.
    unfold Qeq. rewrite H. reflexivity.
  - intros ->. reflexivity.
Qed.

Lemma is_zero_false (x : Decimal) : x <> Q2Qc 0 -> is_zero x = false.
Proof.
  intros H. destruct (is_zero x) eqn:E; [|reflexivity].
  apply is_zero_true in E. contradiction.
Qed.

Lemma dle_true (x y : Decimal) : dle x y = true <-> (x <= y)%Qc.
Proof.
  unfold dle, Qcle, Qccompare. rewrite Qle_alt.
  destruct (this x ?= this y)%Q; split; congruence.
Qed.

Lemma in_range_dle (self : Signal) (value : Decimal) :
  dle (min self) value && dle value (max self) = true <-> in_range self value.
Proof.
  unfold in_range. rewrite andb_true_iff, !dle_true. tauto.
Qed.

(** The rounding on a few values: 1/3 and 2/3 at 28 digits, a tie that goes
    to the even neighbour, and a 29-digit integer. *)
Example rnd_third :
  this (rnd (Q2Qc (1 # 3))) == 3333333333333333333333333333 # 10 ^ 28 /\
  this (rnd (Q2Qc (2 # 3))) == 6666666666666666666666666667 # 10 ^ 28.
Proof. split; vm_compute; reflexivity. Qed.

Example rnd_ties_to_even :
  rnd (of_int 10000000000000000000000000005) = of_int (10 ^ 28) /\
  rnd (of_int 10000000000000000000000000015) = of_int (10 ^ 28 + 20) /\
  rnd (of_int (10 ^ 28 + 1)) = of_int (10 ^ 28).
Proof. repeat split; apply Qc_is_canon; vm_compute; reflexivity. Qed.

Lemma ndigits_aux_le (fuel : nat) :
  forall n k, 1 <= k -> n < 10 ^ k -> ndigits_aux fuel n <= k.
Proof.
  induction fuel as [|fuel IH]; intros n k Hk Hn; cbn [ndigits_aux]; [lia|].
  destruct (n <? 10) eqn:E; [lia|]. apply Z.ltb_ge in E.
  assert (2 <= k).
  { destruct (Z_lt_le_dec k 2); [|assumption].
    assert (k = 1) by lia. subst. change (10 ^ 1) with 10 in Hn. lia. }
  assert (n / 10 < 10 ^ (k - 1)).
  { apply Z.div_lt_upper_bound; [lia|].
    replace k with (1 + (k - 1)) in Hn by lia.
    rewrite Z.pow_add_r in Hn by lia. exact Hn. }
  specialize (IH (n / 10) (k - 1)). lia.
Qed.

Lemma adjusted_integer_le (n : Z) :
  n < 10 ^ context_prec -> adjusted n 1 <= context_prec - 1.
Proof.
  intros Hn. unfold adjusted.
  assert (ndigits n <= context_prec)
    by (apply ndigits_aux_le; [unfold context_prec; lia | assumption]).
  change (ndigits 1) with 1.
  destruct (0 <=? ndigits n - 1);
    [destruct (1 * 10 ^ (ndigits n - 1) <=? n)
    |destruct (1 <=? n * 10 ^ (- (ndigits n - 1)))]; lia.
Qed.

Lemma round_half_even_1 (n : Z) : round_half_even n 1 = n.
Proof.
  unfold round_half_even. rewrite Z.mod_1_r, Z.div_1_r. reflexivity.
Qed.

Lemma ndigits_aux_pos (fuel : nat) (n : Z) : 1 <= ndigits_aux (S fuel) n.
Proof.
  assert (H : forall f m, 0 <= ndigits_aux f m).
  { induction f as [|f IH]; intros m; cbn [ndigits_aux]; [lia|].
    destruct (m <? 10); [lia|]. specialize (IH (m / 10)). lia. }
  cbn [ndigits_aux]. destruct (n <? 10); [lia|].
  specialize (H fuel (n / 10)). lia.
Qed.

Lemma adjusted_integer_nonneg (n : Z) : 1 <= n -> 0 <= adjusted n 1.
Proof.
  intros Hn. unfold adjusted. change (ndigits 1) with 1.
  pose proof (ndigits_aux_pos (Z.to_nat (Z.log2 n)) n) as Hd.
  fold (ndigits n) in Hd.
  destruct (Z.leb_spec 0 (ndigits n - 1)) as [Hk|Hk]; [|lia].
  destruct (Z.leb_spec (1 * 10 ^ (ndigits n - 1)) n) as [|Hlt]; [lia|].
  destruct (Z.eq_dec (ndigits n) 1) as [E|]; [|lia].
  rewrite E in Hlt. change (1 * 10 ^ (1 - 1)) with 1 in Hlt. lia.
Qed.

Lemma rnd_of_int (z : Z) :
  Z.abs z < 10 ^ context_prec -> rnd (of_int z) = of_int z.
Proof.
  intros Hz. unfold rnd. rewrite this_of_int.
  cbn [Qnum Qden inject_Z].
  destruct (Z.abs z =? 0) eqn:E0.
  - apply Z.eqb_eq in E0. assert (z = 0) by lia. subst. reflexivity.
  - pose proof (adjusted_integer_le (Z.abs z) Hz) as Ha.
    set (e := adjusted (Z.abs z) 1 - (context_prec - 1)) in *.
    assert (He : e <= 0) by (unfold e; lia).
    unfold scale10. destruct (0 <=? e) eqn:Ee.
    + apply Z.leb_le in Ee. assert (e = 0) as -> by lia.
      change (1 * 10 ^ 0) with 1. rewrite round_half_even_1.
      change (10 ^ 0) with 1. rewrite Z.mul_1_r.
      rewrite Z.mul_comm, Z.abs_sgn. reflexivity.
    + apply Z.leb_gt in Ee. rewrite round_half_even_1.
      unfold of_int. apply Q2Qc_eq_iff. unfold Qeq. cbn [Qnum Qden inject_Z].
      assert (0 < 10 ^ (- e)) by (apply Z.pow_pos_nonneg; lia).
      rewrite Z2Pos.id by assumption.
      rewrite Z.mul_assoc, (Z.mul_comm (Z.sgn z)), Z.abs_sgn. lia.
Qed.

(** An integer of at most 28 digits is representable: no rounding, and an
    exponent from 0 to 27. *)
Lemma exact_of_int (z : Z) : Z.abs z < 10 ^ context_prec -> exact (of_int z).
Proof.
  intros Hz. split; [apply rnd_of_int; exact Hz|].
  unfold within_context. rewrite rnd_of_int by exact Hz.
  destruct (Z.eq_dec z 0) as [->|Hz0]; [left; reflexivity|].
  right. unfold adjusted_exponent. rewrite this_of_int.
  cbn [Qnum Qden inject_Z].
  pose proof (adjusted_integer_nonneg (Z.abs z) ltac:(lia)).
  pose proof (adjusted_integer_le (Z.abs z) Hz).
  unfold context_Emin, context_Emax, context_prec in *. lia.
Qed.

(** ** phys2raw *)


Lemma lookup_choice_present (table : list (Z * string)) (value : string) :
  In value (map snd table) ->
  exists value_key,
    In (value_key, value) table /\ lookup_choice table value = Some value_key.
Proof.
  induction table as [|[k s] l IH]; simpl; [tauto|].
  intros H. destruct (String.eqb s value) eqn:E.
  - apply String.eqb_eq in E. subst. exists k. auto.
  - destruct H as [H|H]; [apply String.eqb_neq in E; contradiction|].
    destruct (IH H) as [key [Hin Hl]]. exists key. auto.
Qed.


(** Whatever the range, an [int] or a finite [Decimal] handed to [phys2raw]
    of a signal with a factor other than zero is scaled by the same formula;
    the range check decides only what is logged. *)
Lemma phys2raw_numeric_scaled (self : Signal) (given : pyvalue)
    (value : Decimal) :
  factor self <> Q2Qc 0 ->
  phys2raw_numeric self given value
  = ((if dle (min self) value && dle value (max self) then []
      else [Logged_not_valid given (name self) (min self) (max self)]),
     Ok (if is_float self
         then RawDec (rnd (rnd (value - offset self) / factor self))
         else RawInt (int_of (rnd (rnd (value - offset self) / factor self))))).
Proof.
  intros Hf. unfold phys2raw_numeric, ddiv, dsub, log_not_valid.
  rewrite (is_zero_false _ Hf).
  destruct (dle (min self) value && dle value (max self));
    destruct (is_float self); reflexivity.
Qed.




(** Inside the range the formula is the same, and nothing is logged. *)
Lemma phys2raw_in_range (self : Signal) (value : Decimal) :
  factor self <> Q2Qc 0 ->
  in_range self value ->
  phys2raw self (PyNum value)
  = ([],
     Ok (if is_float self
         then RawDec (rnd (rnd (value - offset self) / factor self))
         else RawInt (int_of (rnd (rnd (value - offset self) / factor self))))).
Proof.
  intros Hf Hin. cbn [phys2raw phys2raw_checked].
  rewrite phys2raw_numeric_scaled by assumption.
  apply in_range_dle in Hin. now rewrite Hin.
Qed.



(** A NaN, [Decimal] or [float], makes the comparison with the bounds raise
    [InvalidOperation]; nothing is logged. *)
Example phys2raw_nan (self : Signal) :
  phys2raw self PyNaN = raise InvalidOperation /\
  phys2raw self PyFloatNaN = raise InvalidOperation.
Proof. split; reflexivity. Qed.

(** ** The round trip raw -> physical -> raw *)

(** When none of the three results is rounded, [raw2phys] returns
    [raw * factor + offset] and [phys2raw] divides the factor out again. *)
Lemma phys2raw_raw2phys_unrounded (self : Signal) (raw : Z) :
  is_float self = false ->
  factor self <> Q2Qc 0 ->
  rnd (of_int raw) = of_int raw ->
  rnd (of_int raw * factor self)%Qc = (of_int raw * factor self)%Qc ->
  rnd (of_int raw * factor self + offset self)%Qc
  = (of_int raw * factor self + offset self)%Qc ->
  raw2phys self (RawInt raw) false
  = Ok (PyNum (of_int raw * factor self + offset self)%Qc) /\
  phys2raw_raw2phys self raw = Ok (RawInt raw).
Proof.
  intros Hfloat Hf Hraw Hmul Hadd.
  assert (E : raw2phys self (RawInt raw) false
              = Ok (PyNum (of_int raw * factor self + offset self)%Qc)).
  { unfold raw2phys, raw2phys_finite, dadd, dmul. rewrite Hmul, Hadd.
    reflexivity. }
  split; [exact E|]. unfold phys2raw_raw2phys. rewrite E.
  cbn [phys2raw phys2raw_checked].
  rewrite phys2raw_numeric_scaled by assumption. cbn [snd].
  rewrite Hfloat.
  replace (of_int raw * factor self + offset self - offset self)%Qc
    with (of_int raw * factor self)%Qc by ring.
  rewrite Hmul.
  rewrite Qcdiv_mult_l by exact Hf.
  rewrite Hraw, int_of_of_int. reflexivity.
Qed.


(** For raw values of at most 28 digits, which covers every signal of up to
    93 bits, the raw value itself is representable. *)
Corollary phys2raw_raw2phys_small (self : Signal) (raw : Z) :
  is_float self = false ->
  factor self <> Q2Qc 0 ->
  Z.abs raw < 10 ^ context_prec ->
  exact (of_int raw * factor self)%Qc ->
  exact (of_int raw * factor self + offset self)%Qc ->
  phys2raw_raw2phys self raw = Ok (RawInt raw).
Proof.
  intros Hfloat Hf Hraw [Hmul _] [Hadd _].
  apply phys2raw_raw2phys_unrounded; auto using rnd_of_int.
Qed.


(** With factor 0.1 every raw value of the 8-bit signal comes back. *)
Example tenth_signal_roundtrip :
  forallb (roundtrip_ok tenth_signal) (map Z.of_nat (seq 0 256)) = true.
Proof. vm_compute. reflexivity. Qed.


(** ** Width of the format of a frame *)

Section FormatWidth.

Local Abbreviation start s := (getStartbit s None None).

Lemma overlap_sym (a b : Signal) : overlap a b -> overlap b a.
Proof. intros [bit [Ha Hb]]. exists bit. auto. Qed.

Lemma Forall_insert_sorted (P : Signal -> Prop) (x : Signal) (l : list Signal) :
  Forall P (insert_sorted x l) <-> P x /\ Forall P l.
Proof.
  induction l as [|y l IH]; simpl.
  - split; [intros H; inversion H; auto | intros [H _]; auto].
  - destruct (start x <=? start y).
    + split; [intros H; inversion H; auto | intros [H1 H2]; auto].
    + split.
      * intros H. inversion H as [|? ? Hy Hr]; subst.
        apply IH in Hr. destruct Hr. auto.
      * intros [Hx Hl]. inversion Hl; subst. constructor; [assumption|].
        apply IH. auto.
Qed.

Lemma Forall_sorted (P : Signal -> Prop) (l : list Signal) :
  Forall P l -> Forall P (sorted l).
Proof.
  induction 1 as [|x l Hx Hl IH]; simpl; [constructor|].
  apply Forall_insert_sorted. auto.
Qed.

Lemma ascending_insert_sorted (x : Signal) (l : list Signal) :
  ascending l -> ascending (insert_sorted x l).
Proof.
  induction l as [|y l IH]; simpl; [auto|].
  intros [Hy Hl]. destruct (start x <=? start y) eqn:E.
  - apply Z.leb_le in E. simpl. repeat split; try assumption.
    constructor; [assumption|].
    eapply Forall_impl; [|exact Hy]. simpl. intros; lia.
  - apply Z.leb_gt in E. simpl. split; [|auto].
    apply Forall_insert_sorted. split; [lia|assumption].
Qed.

Lemma ascending_sorted (l : list Signal) : ascending (sorted l).
Proof.
  induction l; simpl; [exact I|]. now apply ascending_insert_sorted.
Qed.

Lemma pairwise_disjoint_insert_sorted (x : Signal) (l : list Signal) :
  Forall (fun y => ~ overlap x y) l -> pairwise_disjoint l ->
  pairwise_disjoint (insert_sorted x l).
Proof.
  induction l as [|y l IH]; simpl; [auto|].
  intros Hx [Hy Hl]. inversion Hx as [|? ? Hxy Hxl]; subst.
  destruct (start x <=? start y); simpl; [auto|].
  split; [|auto].
  apply Forall_insert_sorted. split; [|assumption].
  intros H. apply Hxy. now apply overlap_sym.
Qed.

Lemma pairwise_disjoint_sorted (l : list Signal) :
  pairwise_disjoint l -> pairwise_disjoint (sorted l).
Proof.
  induction l as [|x l IH]; simpl; [auto|].
  intros [Hx Hl]. apply pairwise_disjoint_insert_sorted; [|auto].
  now apply Forall_sorted.
Qed.

(** Two fields of positive width that share no bit, the first starting no
    later than the second: the first ends before the second starts. *)
Lemma disjoint_ordered (x y : Signal) :
  0 < size x -> 0 < size y -> start x <= start y -> ~ overlap x y ->
  start x + size x <= start y.
Proof.
  intros Hx Hy Hle Hno.
  destruct (Z_lt_le_dec (start y) (start x + size x)) as [Hlt|]; [|assumption].
  exfalso. apply Hno. exists (start y). unfold in_field. lia.
Qed.

Lemma separated_of_ascending (l : list Signal) :
  Forall (fun s => 0 < size s) l -> ascending l -> pairwise_disjoint l ->
  separated l.
Proof.
  induction l as [|x l IH]; simpl; [auto|].
  intros Hpos [Hasc Hl] [Hdis Hd]. inversion Hpos as [|? ? Hx Hp]; subst.
  split; [|auto].
  clear IH Hl Hd Hpos. induction l as [|y l IH]; constructor.
  - inversion Hasc; inversion Hdis; inversion Hp; subst.
    now apply disjoint_ordered.
  - inversion Hasc; inversion Hdis; inversion Hp; subst. auto.
Qed.

Lemma calcsize_app (f g : list fmt_item) :
  calcsize (f ++ g) = calcsize f + calcsize g.
Proof. induction f; simpl; [reflexivity|]. unfold calcsize in *. simpl. lia. Qed.

(** Along separated signals that start at or after the bit the loop has
    reached, the pieces appended span exactly the bits from [end_] down to
    the final [end]. *)
Lemma format_loop_width (frame_bits : Z) (l : list Signal) :
  forall end_,
    separated l ->
    Forall (fun s => frame_bits - start s <= end_) l ->
    calcsize (fst (format_loop frame_bits l end_))
    = end_ - snd (format_loop frame_bits l end_).
Proof.
  induction l as [|x l IH]; intros e Hsep Hhead; simpl.
  - lia.
  - destruct Hsep as [Hx Hsep]. inversion Hhead as [|? ? Hxe Hle]; subst.
    specialize (IH (frame_bits - start x - size x) Hsep).
    destruct (format_loop frame_bits l (frame_bits - start x - size x))
      as [fmt e'] eqn:E.
    cbn [fst snd] in *.
    rewrite calcsize_app.
    assert (Hrest : calcsize fmt = frame_bits - start x - size x - e').
    { apply IH. eapply Forall_impl; [|exact Hx]. simpl. intros; lia. }
    change (calcsize (Signal_bitstruct_format x :: fmt))
      with (size x + calcsize fmt).
    destruct (0 <? e - (frame_bits - start x - size x + size x)) eqn:P.
    + change (calcsize [Pad (e - (frame_bits - start x - size x + size x))])
        with (e - (frame_bits - start x - size x + size x) + 0). lia.
    + apply Z.ltb_ge in P. change (calcsize []) with 0. lia.
Qed.

End FormatWidth.

(** The format of a list of sorted signals that share no bit and lie within
    the payload, with the padding that closes it, is as wide as the frame. *)
Lemma format_loop_padded_width (frame_bits : Z) (sigs : list Signal) :
  Forall (fun s => 0 < size s) sigs ->
  Forall (fits frame_bits) sigs ->
  pairwise_disjoint sigs ->
  calcsize (let '(fmt, e) := format_loop frame_bits (sorted sigs) frame_bits in
            (fmt ++ (if e =? 0 then [] else [Pad e]))%list)
  = frame_bits.
Proof.
  intros Hpos Hfit Hdis.
  pose proof (format_loop_width frame_bits (sorted sigs) frame_bits) as Hw.
  destruct (format_loop frame_bits (sorted sigs) frame_bits) as [fmt e] eqn:E.
  cbn [fst snd] in Hw. rewrite calcsize_app, Hw.
  - destruct (e =? 0) eqn:Z0.
    + apply Z.eqb_eq in Z0. change (calcsize []) with 0. lia.
    + change (calcsize [Pad e]) with (e + 0). lia.
  - apply separated_of_ascending.
    + now apply Forall_sorted.
    + apply ascending_sorted.
    + now apply pairwise_disjoint_sorted.
  - apply Forall_sorted. eapply Forall_impl; [|exact Hfit].
    intros s [H0 _]. simpl. lia.
Qed.

(** C1, for signals of positive width: when the signals handed to
    [bitstruct_format] have fields that share no bit and lie within the
    payload, the widths of the pieces of the format, signals and padding,
    add up to [frame.size * 8]. *)
Theorem bitstruct_format_width (self : Frame) (sigs : list Signal) :
  Forall (fun s => 0 < size s) sigs ->
  Forall (fits (frame_size self * 8)) sigs ->
  pairwise_disjoint sigs ->
  calcsize (bitstruct_format self (Some sigs)) = frame_size self * 8.
Proof.
  intros Hpos Hfit Hdis. unfold bitstruct_format.
  now apply format_loop_padded_width.
Qed.

(** The same for the whole frame, [bitstruct_format()] without argument. *)
Corollary bitstruct_format_width_all (self : Frame) :
  Forall (fun s => 0 < size s) (signals self) ->
  Forall (fits (frame_size self * 8)) (signals self) ->
  pairwise_disjoint (signals self) ->
  calcsize (bitstruct_format self None) = frame_size self * 8.
Proof.
  intros Hpos Hfit Hdis. unfold bitstruct_format.
  now apply format_loop_padded_width.
Qed.

Lemma bitstruct_format_width_witness :
  calcsize (bitstruct_format wide_frame (Some (signals wide_frame))) = 64.
Proof.
  apply (bitstruct_format_width wide_frame (signals wide_frame)).
  - repeat constructor.
  - repeat constructor; rewrite ?start_plain_signal, ?size_plain_signal;
      change (frame_size wide_frame) with 8; lia.
  - unfold wide_frame, plain_frame. cbn [signals pairwise_disjoint].
    repeat split; repeat constructor.
    intros [bit [H1 H2]]. unfold in_field in *.
    rewrite ?start_plain_signal, ?size_plain_signal in *. lia.
Defined.

(** The claim as stated fails with a signal of width zero: the empty field
    at bit 4 shares no bit with the field on bits 4 to 7, both lie within the
    byte, and the format is 12 bits wide. *)
Lemma bitstruct_format_zero_width :
  pairwise_disjoint (signals nibble_frame) /\
  Forall (fits (frame_size nibble_frame * 8)) (signals nibble_frame) /\
  join (bitstruct_format nibble_frame (Some (signals nibble_frame)))
    = "p4<s4<s0p4" /\
  calcsize (bitstruct_format nibble_frame (Some (signals nibble_frame))) = 12 /\
  calcsize (bitstruct_format nibble_frame (Some (signals nibble_frame)))
    <> frame_size nibble_frame * 8.
Proof.
  split; [|split; [|split; [|split]]].
  - unfold nibble_frame, plain_frame. cbn [signals pairwise_disjoint].
    repeat split; repeat constructor.
    intros [bit [H1 H2]]. unfold in_field, nibble_signal, empty_signal in *.
    rewrite ?start_plain_signal, ?size_plain_signal in *. lia.
  - repeat constructor; unfold nibble_signal, empty_signal;
      rewrite ?start_plain_signal, ?size_plain_signal;
      change (frame_size nibble_frame) with 1; lia.
  - vm_compute. reflexivity.
  - vm_compute. reflexivity.
  - vm_compute. discriminate.
Qed.

(** ** Encoding and decoding a multiplexed frame *)

(** [decode] resolves the group from the multiplexor field alone and then
    unpacks the selected signals, the multiplexor once: a payload laid out
    with that format decodes to the values packed. *)
Example decode_multiplexed
    (pack_float : Z -> Decimal -> result (list bool))
    (unpack_float : Z -> list bool -> result Decimal) :
  join (bitstruct_format mux_frame (Some [sig_mux; sig_A])) = "<s2<s4p2" /\
  pack pack_float (bitstruct_format mux_frame (Some [sig_mux; sig_A]))
       [RawInt 0; RawInt 5] = Ok [40] /\
  decode_mux_loop unpack_float mux_frame [40] false (signals mux_frame)
                  None None = Ok (Some 0) /\
  returns_dict (decode unpack_float mux_frame [40] false) data_A = true.
Proof. repeat split; vm_compute; reflexivity. Qed.

(** C3, evaluated on the code: [encode] puts the multiplexor twice in the
    list of signals it packs, so that the format of the one-byte frame is 10
    bits wide and the payload two bytes long; [decode] reads the selected
    signal two bits too early and returns A = 4 for {mux: 0, A: 5} and
    B = -7 for {mux: 1, B: 30}. *)
Theorem encode_decode_multiplexed
    (pack_float : Z -> Decimal -> result (list bool))
    (unpack_float : Z -> list bool -> result Decimal) :
  (exists fmt,
     encode_layout mux_frame data_A = ret (fmt, [sig_mux; sig_mux; sig_A]) /\
     join fmt = "<s2<s2<s4p2" /\ calcsize fmt = 10) /\
  snd (encode pack_float mux_frame data_A) = Ok [10; 0] /\
  returns_dict (decode_encode pack_float unpack_float mux_frame data_A)
               data_A = false /\
  returns_dict (decode_encode pack_float unpack_float mux_frame data_A)
               [("mux", PyNum (of_int 0)); ("A", PyNum (of_int 4))] = true /\
  snd (encode pack_float mux_frame data_B) = Ok [167; 128] /\
  returns_dict (decode_encode pack_float unpack_float mux_frame data_B)
               data_B = false /\
  returns_dict (decode_encode pack_float unpack_float mux_frame data_B)
               [("mux", PyNum (of_int 1)); ("B", PyNum (of_int (-7)))] = true.
Proof.
  split.
  - eexists. split; [reflexivity|]. split; vm_compute; reflexivity.
  - repeat split; vm_compute; reflexivity.
Qed.

(** * Further properties *)

(** ** Start bits, the other way round *)

(** X1: when [setStartbit] succeeds, [getStartbit] with the same
    [bitNumbering] and [startLittle] returns the start bit that was given. *)
Theorem getStartbit_setStartbit_roundtrip :
  forall (self self' : Signal) (b : Z) (bitNumbering startLittle : option bool)
         (out : list event),
    setStartbit self b bitNumbering startLittle = (self', (out, Ok tt)) ->
    getStartbit self' bitNumbering startLittle = b.
Proof.
  intros self self' b bn sl out H. unfold setStartbit in H.
  destruct (setStartbit_position self b bn sl <? 0); [cbn in H; inversion H|].
  unfold ret in H. inversion H; subst. clear H.
  unfold getStartbit, setStartbit_position, numbering_differs, from_lsb.
  destruct self as [nm sb sz le sg off fac mn mx m fl at_ vals mv im].
  cbn [set_startBit startBit size is_little_endian name].
  destruct bn as [bn|], sl as [[|]|], le; cbn [negb Bool.eqb];
    try destruct bn; cbn [negb Bool.eqb];
    rewrite ?byte_reflect_involutive;
    try lia; try reflexivity;
    match goal with
    | |- byte_reflect ?x = _ =>
        replace x with (byte_reflect b) by lia;
        apply byte_reflect_involutive
    end.
Qed.

Lemma getStartbit_setStartbit_roundtrip_witness :
  getStartbit (fst (setStartbit signal_be12 20 (Some true) (Some true)))
              (Some true) (Some true) = 20.
Proof.
  apply (getStartbit_setStartbit_roundtrip signal_be12 _ 20 (Some true)
           (Some true) []).
  reflexivity.
Defined.

(** The reflection stays in the byte of the bit it is given. *)
Lemma byte_reflect_same_byte (b : Z) : byte_reflect b / 8 = b / 8.
Proof.
  unfold byte_reflect.
  pose proof (Z.mod_pos_bound b 8 ltac:(lia)) as Hb.
  pose proof (Z.div_mod b 8 ltac:(lia)) as Hd.
  symmetry. apply Z.div_unique with (7 - b mod 8); lia.
Qed.

(** X2: without the lsb-to-msb transform (a little endian signal, or
    [startLittle] not [True]), [setStartbit] never raises for a start bit that
    is not negative, and the bit it stores lies in the byte of the bit given. *)
Theorem setStartbit_nonnegative_succeeds :
  forall (self : Signal) (b : Z) (bitNumbering startLittle : option bool),
    0 <= b ->
    from_lsb self startLittle = false ->
    snd (setStartbit self b bitNumbering startLittle) = ret tt /\
    0 <= startBit (fst (setStartbit self b bitNumbering startLittle)) /\
    startBit (fst (setStartbit self b bitNumbering startLittle)) / 8 = b / 8.
Proof.
  intros self b bn sl Hb Hl. unfold setStartbit, setStartbit_position.
  rewrite Hl.
  assert (Hpos : 0 <= (if numbering_differs self bn then byte_reflect b else b)
                 /\ (if numbering_differs self bn then byte_reflect b else b) / 8
                    = b / 8).
  { destruct (numbering_differs self bn); [|auto].
    split; [|apply byte_reflect_same_byte].
    unfold byte_reflect.
    pose proof (Z.mod_pos_bound b 8 ltac:(lia)).
    pose proof (Z.div_mod b 8 ltac:(lia)).
    assert (0 <= b / 8) by (apply Z.div_pos; lia). lia. }
  destruct Hpos as [H0 H8].
  destruct ((if numbering_differs self bn then byte_reflect b else b) <? 0)
    eqn:E; [apply Z.ltb_lt in E; lia|].
  cbn [fst snd]. destruct self; cbn [set_startBit startBit]. auto.
Qed.

Lemma setStartbit_nonnegative_succeeds_witness :
  snd (setStartbit signal_be12 10 (Some true) None) = ret tt /\
  0 <= startBit (fst (setStartbit signal_be12 10 (Some true) None)) /\
  startBit (fst (setStartbit signal_be12 10 (Some true) None)) / 8 = 10 / 8.
Proof.
  apply (setStartbit_nonnegative_succeeds signal_be12 10 (Some true) None).
  - lia.
  - reflexivity.
Defined.

(** ** The format of a frame, for any signals *)

(** Whatever the signals, the pieces the loop appends span at least the bits
    from [end_] down to the final [end]: a negative padding is dropped, never
    subtracted. *)
Lemma format_loop_at_least (frame_bits : Z) (l : list Signal) :
  forall end_,
    end_ - snd (format_loop frame_bits l end_)
    <= calcsize (fst (format_loop frame_bits l end_)).
Proof.
  induction l as [|x l IH]; intros e; simpl; [lia|].
  specialize (IH (frame_bits - getStartbit x None None - size x)).
  destruct (format_loop frame_bits l
              (frame_bits - getStartbit x None None - size x)) as [fmt e'].
  cbn [fst snd] in *. rewrite calcsize_app.
  change (calcsize (Signal_bitstruct_format x :: fmt))
    with (size x + calcsize fmt).
  destruct (0 <? e - (frame_bits - getStartbit x None None - size x + size x))
    eqn:P.
  - change (calcsize [Pad (e - (frame_bits - getStartbit x None None
                                - size x + size x))])
      with (e - (frame_bits - getStartbit x None None - size x + size x) + 0).
    lia.
  - apply Z.ltb_ge in P. change (calcsize []) with 0. lia.
Qed.

(** X3: for any signals, overlapping or not, the format [bitstruct_format]
    builds is never narrower than the payload, [frame.size * 8] bits. *)
Theorem bitstruct_format_at_least (self : Frame)
    (signalsToDecode : option (list Signal)) :
  frame_size self * 8 <= calcsize (bitstruct_format self signalsToDecode).
Proof.
  unfold bitstruct_format.
  set (sigs := match signalsToDecode with
               | Some l => sorted l
               | None => sorted (signals self)
               end).
  pose proof (format_loop_at_least (frame_size self * 8) sigs
                (frame_size self * 8)) as H.
  destruct (format_loop (frame_size self * 8) sigs (frame_size self * 8))
    as [fmt e].
  cbn [fst snd] in H. rewrite calcsize_app.
  destruct (e =? 0) eqn:E.
  - apply Z.eqb_eq in E. change (calcsize []) with 0. lia.
  - change (calcsize [Pad e]) with (e + 0). lia.
Qed.

Lemma filter_is_field_format_loop (frame_bits : Z) (l : list Signal) :
  forall end_,
    filter is_field (fst (format_loop frame_bits l end_))
    = map Signal_bitstruct_format l.
Proof.
  induction l as [|x l IH]; intros e; simpl; [reflexivity|].
  specialize (IH (frame_bits - getStartbit x None None - size x)).
  destruct (format_loop frame_bits l
              (frame_bits - getStartbit x None None - size x)) as [fmt e'].
  cbn [fst] in *.
  destruct (0 <? e - (frame_bits - getStartbit x None None - size x + size x));
    cbn; now rewrite IH.
Qed.

(** X4: the value fields of the format are the formats of the signals given,
    one for each, in ascending order of start bit; all the other pieces are
    padding.  [pack] and [unpack] thus handle as many values as there are
    signals, in the order of [sorted]. *)
Theorem bitstruct_format_fields (self : Frame) (sigs : list Signal) :
  filter is_field (bitstruct_format self (Some sigs))
  = map Signal_bitstruct_format (sorted sigs) /\
  ascending (sorted sigs) /\
  List.length (sorted sigs) = List.length sigs.
Proof.
  split; [|split].
  - unfold bitstruct_format.
    pose proof (filter_is_field_format_loop (frame_size self * 8) (sorted sigs)
                  (frame_size self * 8)) as H.
    destruct (format_loop (frame_size self * 8) (sorted sigs)
                          (frame_size self * 8)) as [fmt e].
    cbn [fst] in H. rewrite filter_app, H.
    destruct (e =? 0); cbn; now rewrite app_nil_r.
  - apply ascending_sorted.
  - induction sigs as [|x l IH]; [reflexivity|]. cbn [sorted].
    assert (Hins : forall y m, List.length (insert_sorted y m)
                               = S (List.length m)).
    { intros y m. induction m as [|z m IHm]; [reflexivity|].
      cbn [insert_sorted].
      destruct (getStartbit y None None <=? getStartbit z None None);
        cbn [List.length]; [reflexivity | now rewrite IHm]. }
    rewrite Hins, IH. reflexivity.
Qed.

(** ** The DLC *)

Lemma set_size_set_size (f : Frame) (a b : Z) :
  set_size (set_size f a) b = set_size f b.
Proof. reflexivity. Qed.

(** X5: for a frame whose signals end at or below bit [2^53], where the
    float quotient of [calcDLC] is exact: [calcDLC] succeeds, every signal of
    the frame then ends within the payload, and a second [calcDLC] changes
    nothing. *)
Theorem calcDLC_covers (f : Frame) :
  max_end (signals f) <= 2 ^ 53 ->
  exists f',
    calcDLC f = Ok f' /\
    signals f' = signals f /\
    Forall (fun s => getStartbit s None None + size s <= frame_size f' * 8)
           (signals f) /\
    calcDLC f' = Ok f'.
Proof.
  intros Hm. destruct (calcDLC_size f Hm) as [bytes [Hb Hc]].
  eexists. split; [exact Hc|]. split; [reflexivity|]. split.
  - apply Forall_forall. intros s Hin.
    pose proof (max_end_upper (signals f) s Hin).
    cbn [set_size frame_size]. lia.
  - destruct (calcDLC_size (set_size f (Z.max (frame_size f) bytes)) Hm)
      as [bytes' [Hb' Hc']].
    rewrite Hc'. cbn [set_size frame_size signals frame_name id extended
                      is_complex_multiplexed j1939_pgn j1939_source
                      j1939_prio is_j1939] in *.
    unfold set_size.
    cbn [signals frame_size frame_name id extended is_complex_multiplexed
         j1939_pgn j1939_source j1939_prio is_j1939].
    do 2 f_equal. lia.
Qed.

Lemma calcDLC_covers_witness :
  exists f',
    calcDLC nibble_frame = Ok f' /\
    signals f' = signals nibble_frame /\
    Forall (fun s => getStartbit s None None + size s <= frame_size f' * 8)
           (signals nibble_frame) /\
    calcDLC f' = Ok f'.
Proof.
  apply (calcDLC_covers nibble_frame).
  unfold nibble_frame, nibble_signal, empty_signal, plain_frame, max_end.
  cbn [signals fold_right].
  rewrite !start_plain_signal, !size_plain_signal. vm_compute. discriminate.
Defined.

(** The two branches of [recalcDLC] on one frame, by the byte count of its
    signals. *)
Lemma recalcDLC_frame_max_eq (f : Frame) :
  recalcDLC_frame "max" f
  = match ceil_div_8 (maxBit_loop (signals f) 0) with
    | Raise e => Raise e
    | Ok bytes => Ok (set_size f (Z.max (frame_size f) bytes))
    end.
Proof.
  unfold recalcDLC_frame, calcDLC. cbn [String.eqb Ascii.eqb Bool.eqb].
  destruct (ceil_div_8 (maxBit_loop (signals f) 0)); reflexivity.
Qed.

Lemma recalcDLC_frame_force_eq (f : Frame) :
  recalcDLC_frame "force" f
  = match ceil_div_8 (maxBit_loop (signals f) 0) with
    | Raise e => Raise e
    | Ok bytes => Ok (set_size f bytes)
    end.
Proof. reflexivity. Qed.

Lemma recalcDLC_frame_other (strategy : string) (f : Frame) :
  strategy <> "max" -> strategy <> "force" ->
  recalcDLC_frame strategy f = Ok f.
Proof.
  intros Hm Hf. unfold recalcDLC_frame.
  destruct (String.eqb "max" strategy) eqn:E1;
    [apply String.eqb_eq in E1; congruence|].
  destruct (String.eqb "force" strategy) eqn:E2;
    [apply String.eqb_eq in E2; congruence|].
  reflexivity.
Qed.

Lemma recalcDLC_loop_max_force (l : list Frame) :
  match recalcDLC_loop "max" l with
  | Ok l' => recalcDLC_loop "force" l'
  | Raise e => Raise e
  end = recalcDLC_loop "force" l.
Proof.
  induction l as [|f l IH]; [reflexivity|].
  cbn [recalcDLC_loop].
  rewrite recalcDLC_frame_max_eq, recalcDLC_frame_force_eq.
  destruct (ceil_div_8 (maxBit_loop (signals f) 0)) as [bytes|e] eqn:E;
    [|reflexivity].
  destruct (recalcDLC_loop "max" l) as [l'|e].
  - cbn [recalcDLC_loop]. rewrite recalcDLC_frame_force_eq.
    cbn [set_size signals]. rewrite E, IH. reflexivity.
  - rewrite <- IH. reflexivity.
Qed.

Lemma recalcDLC_loop_force_max (l : list Frame) :
  match recalcDLC_loop "force" l with
  | Ok l' => recalcDLC_loop "max" l'
  | Raise e => Raise e
  end = recalcDLC_loop "force" l.
Proof.
  induction l as [|f l IH]; [reflexivity|].
  cbn [recalcDLC_loop]. rewrite recalcDLC_frame_force_eq.
  destruct (ceil_div_8 (maxBit_loop (signals f) 0)) as [bytes|e] eqn:E;
    [|reflexivity].
  destruct (recalcDLC_loop "force" l) as [l'|e]; [|reflexivity].
  cbn [recalcDLC_loop]. rewrite recalcDLC_frame_max_eq.
  cbn [set_size signals frame_size]. rewrite E, IH, Z.max_id. reflexivity.
Qed.

Lemma recalcDLC_loop_other (strategy : string) (l : list Frame) :
  strategy <> "max" -> strategy <> "force" ->
  recalcDLC_loop strategy l = Ok l.
Proof.
  intros Hm Hf. induction l as [|f l IH]; [reflexivity|].
  cbn [recalcDLC_loop]. rewrite recalcDLC_frame_other, IH by assumption.
  reflexivity.
Qed.

(** X6: "force" decides alone: after a "max" recomputation, or before one,
    the outcome is that of "force", the sizes as well as an [OverflowError];
    any other strategy string leaves the matrix as it is. *)
Theorem recalcDLC_compose (m : CanMatrix) :
  match recalcDLC m "max" with
  | Ok m' => recalcDLC m' "force"
  | Raise e => Raise e
  end = recalcDLC m "force" /\
  match recalcDLC m "force" with
  | Ok m' => recalcDLC m' "max"
  | Raise e => Raise e
  end = recalcDLC m "force" /\
  (forall strategy, strategy <> "max" -> strategy <> "force" ->
                    recalcDLC m strategy = Ok m).
Proof.
  destruct m as [fs]. unfold recalcDLC. cbn [frames].
  split; [|split].
  - rewrite <- (recalcDLC_loop_max_force fs).
    destruct (recalcDLC_loop "max" fs); reflexivity.
  - rewrite <- (recalcDLC_loop_force_max fs) at 2.
    destruct (recalcDLC_loop "force" fs); reflexivity.
  - intros strategy Hm Hf. now rewrite recalcDLC_loop_other.
Qed.

(** ** J1939 identifiers *)

(** X7: [CanId] loses nothing of an identifier of up to 32 bits: the source,
    the PGN and the destination are a byte, 16 bits and a byte, and the
    identifier is their sum at the offsets 0, 8 and 24. *)
Theorem CanId_lossless (i : Z) :
  0 <= i < 2 ^ 32 ->
  exists s p d,
    CanId_init i true = mkCanId (Some s) (Some d) (Some p) /\
    0 <= s < 256 /\ 0 <= p < 65536 /\ 0 <= d < 256 /\
    i = s + Z.shiftl p 8 + Z.shiftl d 24.
Proof.
  intros Hi. unfold CanId_init.
  change 255 with (2 ^ 8 - 1). change 65535 with (2 ^ 16 - 1).
  rewrite !land_low by lia. rewrite !Z.shiftr_div_pow2 by lia.
  change (2 ^ (8 * 3)) with 16777216. change (2 ^ 8) with 256.
  change (2 ^ 16) with 65536. change (2 ^ 32) with 4294967296 in Hi.
  do 3 eexists. split; [reflexivity|].
  rewrite !Z.shiftl_mul_pow2 by lia.
  change (2 ^ 8) with 256. change (2 ^ 24) with 16777216.
  pose proof (Z.div_mod i 256 ltac:(lia)).
  pose proof (Z.mod_pos_bound i 256 ltac:(lia)).
  pose proof (Z.div_mod (i / 256) 65536 ltac:(lia)).
  pose proof (Z.mod_pos_bound (i / 256) 65536 ltac:(lia)).
  pose proof (Z.div_mod i 16777216 ltac:(lia)).
  pose proof (Z.mod_pos_bound i 16777216 ltac:(lia)).
  pose proof (Z.mod_pos_bound (i / 16777216) 256 ltac:(lia)).
  assert (i / 16777216 = i / 256 / 65536)
    by (rewrite Z.div_div by lia; reflexivity).
  assert (0 <= i / 16777216 < 256)
    by (split; [apply Z.div_pos; lia | apply Z.div_lt_upper_bound; lia]).
  rewrite (Z.mod_small (i / 16777216) 256) by lia.
  repeat split; lia.
Qed.

Lemma CanId_lossless_witness :
  exists s p d,
    CanId_init 419360305 true = mkCanId (Some s) (Some d) (Some p) /\
    0 <= s < 256 /\ 0 <= p < 65536 /\ 0 <= d < 256 /\
    419360305 = s + Z.shiftl p 8 + Z.shiftl d 24.
Proof. apply (CanId_lossless 419360305). lia. Defined.

(** X8: setting the PGN of a frame rebuilds its identifier, which then has 29
    bits at most and is marked extended and J1939; reading the PGN back gives
    the 16 low bits of the value set, and the payload description is left
    alone. *)
Theorem Frame_pgn_set_pgn (self : Frame) (value : Z) :
  exists f',
    Frame_set_pgn self value = Ok f' /\
    Frame_pgn f' = Some (Z.land value 65535) /\
    0 <= id f' < 2 ^ 29 /\
    extended f' = true /\ is_j1939 f' = true /\
    signals f' = signals self /\ frame_size f' = frame_size self.
Proof.
  unfold Frame_set_pgn, Frame_pgn.
  destruct (CanId_recalcJ1939Id (set_j1939_pgn self (Some value)) value
              eq_refl) as [f' [Hr [_ [Hp _]]]].
  exists f'. split; [exact Hr|]. split; [exact Hp|].
  unfold recalcJ1939Id in Hr. cbn [set_j1939_pgn j1939_pgn] in Hr.
  match type of Hr with
  | Ok ?a = Ok _ => assert (Hf : f' = a) by congruence
  end.
  rewrite Hf. clear Hr Hp Hf.
  cbn [id extended is_j1939 signals frame_size set_j1939_pgn j1939_source
       j1939_prio].
  repeat split.
  - change 255 with (2 ^ 8 - 1). change 65535 with (2 ^ 16 - 1).
    change 7 with (2 ^ 3 - 1). rewrite !land_low by lia.
    rewrite !Z.shiftl_mul_pow2 by lia.
    pose proof (Z.mod_pos_bound (j1939_source self) (2 ^ 8) ltac:(lia)).
    pose proof (Z.mod_pos_bound value (2 ^ 16) ltac:(lia)).
    pose proof (Z.mod_pos_bound (j1939_prio self) (2 ^ 3) ltac:(lia)).
    lia.
  - change 255 with (2 ^ 8 - 1). change 65535 with (2 ^ 16 - 1).
    change 7 with (2 ^ 3 - 1). rewrite !land_low by lia.
    rewrite !Z.shiftl_mul_pow2 by lia.
    pose proof (Z.mod_pos_bound (j1939_source self) (2 ^ 8) ltac:(lia)).
    pose proof (Z.mod_pos_bound value (2 ^ 16) ltac:(lia)).
    pose proof (Z.mod_pos_bound (j1939_prio self) (2 ^ 3) ltac:(lia)).
    change (2 ^ 8) with 256 in *. change (2 ^ 16) with 65536 in *.
    change (2 ^ 3) with 8 in *. change (2 ^ 26) with 67108864.
    change (2 ^ 29) with 536870912. lia.
Qed.

(** ** Looking frames up *)

(** [Id & 0x80000000] is non-zero exactly when bit 31 of [Id] is set. *)
Lemma land_extendedMarker (i : Z) :
  negb (Z.land i extendedMarker =? 0) = Z.testbit i 31.
Proof.
  unfold extendedMarker. change 2147483648 with (2 ^ 31).
  destruct (Z.testbit i 31) eqn:E.
  - destruct (Z.land i (2 ^ 31) =? 0) eqn:L; [|reflexivity].
    apply Z.eqb_eq in L.
    assert (Z.testbit (Z.land i (2 ^ 31)) 31 = true)
      by (rewrite Z.land_spec, E, Z.pow2_bits_true by lia; reflexivity).
    rewrite L, Z.bits_0 in H. discriminate.
  - assert (Z.land i (2 ^ 31) = 0) as ->; [|reflexivity].
    apply Z.bits_inj'. intros n Hn. rewrite Z.land_spec, Z.bits_0.
    destruct (Z.eq_dec n 31) as [->|Hne].
    + now rewrite E.
    + rewrite (Z.pow2_bits_false 31 n) by lia. apply andb_false_r.
Qed.

(** The loop of [frameById] is a search for the first frame that matches. *)
Lemma frameById_loop_find (tests : list Frame) (Id : Z)
    (extended_ : option bool) :
  frameById_loop tests Id extended_ = find (frame_matches Id extended_) tests.
Proof.
  induction tests as [|test rest IH]; [reflexivity|].
  cbn [frameById_loop find]. unfold frame_matches at 1.
  rewrite <- land_extendedMarker.
  destruct (id test =? Id) eqn:E; destruct extended_ as [e|]; cbn [orb andb].
  - destruct (Bool.eqb (extended test) e); [reflexivity | exact IH].
  - reflexivity.
  - exact IH.
  - destruct (extended test && negb (Z.land Id extendedMarker =? 0));
      [|exact IH].
    cbn [andb]. destruct (id test =? Id - extendedMarker);
      [reflexivity | exact IH].
Qed.

(** X9: [frameById] returns the first frame, in the order of the matrix, that
    has the id asked for and, when [extended] is given, that flag; when
    [extended] is not given, an extended frame also answers to its id with
    bit 31 added.  It returns [None] when there is no such frame. *)
Theorem frameById_first_match (self : CanMatrix) (Id : Z)
    (extended_ : option bool) :
  frameById self Id extended_ = find (frame_matches Id extended_) (frames self).
Proof. unfold frameById. apply frameById_loop_find. Qed.

(** X10: the matrix hands [encode] and [decode] to the frame [frameById]
    finds for the id, whatever its [extended] flag; for an id that no frame
    answers to, both raise [AttributeError] and nothing is packed or logged. *)
Theorem CanMatrix_encode_decode_unknown_id
    (pack_float : Z -> Decimal -> result (list bool))
    (unpack_float : Z -> list bool -> result Decimal)
    (self : CanMatrix) (frame_id : Z) :
  Forall (fun f => frame_matches frame_id None f = false) (frames self) ->
  (forall data,
     CanMatrix_encode pack_float self frame_id data = raise AttributeError) /\
  (forall data decodeToStr,
     CanMatrix_decode unpack_float self frame_id data decodeToStr
     = Raise AttributeError).
Proof.
  intros Hnone.
  assert (frameById self frame_id None = None) as Hf.
  { unfold frameById. rewrite frameById_loop_find.
    destruct (find (frame_matches frame_id None) (frames self)) as [f|] eqn:E;
      [|reflexivity].
    apply find_some in E. destruct E as [Hin Hm].
    rewrite Forall_forall in Hnone. rewrite (Hnone f Hin) in Hm.
    discriminate. }
  unfold CanMatrix_encode, CanMatrix_decode. rewrite Hf. split; reflexivity.
Qed.

Lemma CanMatrix_encode_decode_unknown_id_witness :
  (forall data,
     CanMatrix_encode (fun _ _ => Raise BitstructError)
                      (mkCanMatrix [j1939_frame]) 291 data
     = raise AttributeError) /\
  (forall data decodeToStr,
     CanMatrix_decode (fun _ _ => Raise BitstructError)
                      (mkCanMatrix [j1939_frame]) 291 data decodeToStr
     = Raise AttributeError).
Proof.
  apply (CanMatrix_encode_decode_unknown_id _ _ (mkCanMatrix [j1939_frame]) 291).
  repeat constructor.
Defined.

Lemma frameByName_loop_app (fs : list Frame) (f : Frame) (n : string) :
  frameByName_loop (fs ++ [f]) n
  = match frameByName_loop fs n with
    | Some g => Some g
    | None => if String.eqb (frame_name f) n then Some f else None
    end.
Proof.
  induction fs as [|g fs IH]; cbn [app frameByName_loop]; [reflexivity|].
  destruct (String.eqb (frame_name g) n); [reflexivity | exact IH].
Qed.

(** X11: [addFrame] returns the frame it was given and puts it last: a name
    that an earlier frame of the matrix already has still finds that frame,
    and the new frame is found by name only if no frame had its name. *)
Theorem frameByName_addFrame (self : CanMatrix) (frame : Frame) (n : string) :
  snd (addFrame self frame) = frame /\
  frames (fst (addFrame self frame)) = (frames self ++ [frame])%list /\
  frameByName (fst (addFrame self frame)) n
  = match frameByName self n with
    | Some g => Some g
    | None => if String.eqb (frame_name frame) n then Some frame else None
    end.
Proof.
  unfold addFrame, frameByName. cbn [fst snd frames].
  split; [apply last_last|]. split; [reflexivity|].
  apply frameByName_loop_app.
Qed.

(** ** Value tables *)

Lemma deqb_true (x y : Decimal) : deqb x y = true <-> x = y.
Proof.
  unfold deqb. rewrite Qceq_alt.
  destruct (x ?= y)%Qc; split; congruence.
Qed.

Lemma of_int_inj (a b : Z) : of_int a = of_int b -> a = b.
Proof.
  intros H. apply (f_equal int_of) in H. now rewrite !int_of_of_int in H.
Qed.

Lemma lookup_name_found (table : list (Z * string)) (v : Decimal) (n : string) :
  lookup_name table v = Some n -> exists k, In (k, n) table /\ of_int k = v.
Proof.
  induction table as [|[k s] l IH]; cbn [lookup_name]; [discriminate|].
  destruct (deqb (of_int k) v) eqn:E.
  - intros H. inversion H; subst. apply deqb_true in E. exists k. cbn. auto.
  - intros H. destruct (IH H) as [k' [Hin Hk]]. exists k'. cbn. auto.
Qed.

Lemma lookup_choice_unique (table : list (Z * string)) (k : Z) (n : string) :
  NoDup (map snd table) -> In (k, n) table -> lookup_choice table n = Some k.
Proof.
  induction table as [|[k' s] l IH]; cbn [lookup_choice map snd In];
    [tauto|].
  intros Hnd Hin. inversion Hnd as [|? ? Hnot Hl]; subst.
  destruct (String.eqb s n) eqn:E.
  - apply String.eqb_eq in E. subst. destruct Hin as [H|H].
    + now inversion H.
    + exfalso. apply Hnot. apply (in_map snd) in H. exact H.
  - destruct Hin as [H|H].
    + inversion H; subst. rewrite String.eqb_refl in E. discriminate.
    + now apply IH.
Qed.

(** The value handed to the log apart, [phys2raw] treats an [int] and a
    [Decimal] of the same value alike. *)
Lemma phys2raw_numeric_given (self : Signal) (given given' : pyvalue)
    (value : Decimal) :
  snd (phys2raw_numeric self given value)
  = snd (phys2raw_numeric self given' value) /\
  (fst (phys2raw_numeric self given value) = [] <->
   fst (phys2raw_numeric self given' value) = []).
Proof.
  unfold phys2raw_numeric, log_not_valid.
  destruct (dle (min self) value && dle value (max self));
    destruct (ddiv (dsub value (offset self)) (factor self));
    destruct (is_float self); cbn; split; try reflexivity;
    split; intros H; try reflexivity; discriminate.
Qed.

(** X12: when no two entries of the value table carry the same name and a
    raw value decodes to a name, the name belongs to a key that is the
    physical value, and encoding the name gives what encoding that number
    gives: [phys2raw] of the name goes on as for the [int] key, returns (or
    raises) what it does for the [Decimal] that [raw2phys] returns without
    names, and writes a log entry exactly when that one does (with the key in
    place of the [Decimal]). *)
Theorem phys2raw_raw2phys_symbol (self : Signal) (raw : rawvalue)
    (value_string : string) :
  NoDup (map snd (values self)) ->
  raw2phys self raw true = Ok (PyStr value_string) ->
  exists value_key,
    In (value_key, value_string) (values self) /\
    raw2phys self raw false = Ok (PyNum (of_int value_key)) /\
    phys2raw self (PyStr value_string) = phys2raw self (PyInt value_key) /\
    snd (phys2raw self (PyStr value_string))
    = snd (phys2raw self (PyNum (of_int value_key))) /\
    (fst (phys2raw self (PyStr value_string)) = [] <->
     fst (phys2raw self (PyNum (of_int value_key))) = []).
Proof.
  intros Hnd Hr.
  assert (Hfin : exists v,
             raw2phys self raw true = Ok (raw2phys_finite self v true) /\
             raw2phys self raw false = Ok (raw2phys_finite self v false)).
  { destruct raw as [z|d|negative].
    - exists (of_int z). split; reflexivity.
    - exists d. split; reflexivity.
    - cbn [raw2phys] in Hr. destruct (is_zero (factor self)); discriminate. }
  destruct Hfin as [v [Ht Hf]]. rewrite Ht in Hr. rewrite Hf.
  unfold raw2phys_finite in *.
  set (p := dadd (dmul v (factor self)) (offset self)) in *.
  destruct (lookup_name (values self) p) as [n|] eqn:E; [|discriminate].
  injection Hr as ->.
  destruct (lookup_name_found _ _ _ E) as [k [Hin Hk]].
  exists k. split; [exact Hin|]. split; [now rewrite Hk|].
  assert (Es : phys2raw self (PyStr value_string) = phys2raw self (PyInt k)).
  { cbn [phys2raw].
    rewrite (lookup_choice_unique _ k value_string Hnd Hin). reflexivity. }
  split; [exact Es|]. rewrite Es. cbn [phys2raw phys2raw_checked].
  apply phys2raw_numeric_given.
Qed.

Lemma phys2raw_raw2phys_symbol_witness :
  exists value_key,
    In (value_key, "Drive") (values gear_signal) /\
    raw2phys gear_signal (RawInt 3) false = Ok (PyNum (of_int value_key)) /\
    phys2raw gear_signal (PyStr "Drive")
    = phys2raw gear_signal (PyInt value_key) /\
    snd (phys2raw gear_signal (PyStr "Drive"))
    = snd (phys2raw gear_signal (PyNum (of_int value_key))) /\
    (fst (phys2raw gear_signal (PyStr "Drive")) = [] <->
     fst (phys2raw gear_signal (PyNum (of_int value_key))) = []).
Proof.
  apply (phys2raw_raw2phys_symbol gear_signal (RawInt 3) "Drive").
  - change (values gear_signal)
      with [(0, "Park"); (1, "Reverse"); (2, "Neutral"); (3, "Drive")].
    cbn [map snd].
    repeat constructor; cbn [In];
      intros H; repeat destruct H as [H|H]; try discriminate; exact H.
  - vm_compute. reflexivity.
Defined.

Lemma deqb_of_int (a b : Z) : deqb (of_int a) (of_int b) = (a =? b).
Proof.
  destruct (a =? b) eqn:E.
  - apply Z.eqb_eq in E. subst. now apply deqb_true.
  - destruct (deqb (of_int a) (of_int b)) eqn:D; [|reflexivity].
    apply deqb_true, of_int_inj in D. apply Z.eqb_neq in E. contradiction.
Qed.

Lemma lookup_name_values_set (table : list (Z * string)) (k : Z) (n : string) :
  lookup_name (values_set table k n) (of_int k) = Some n.
Proof.
  induction table as [|[k' s] l IH]; cbn [values_set lookup_name].
  - now rewrite deqb_of_int, Z.eqb_refl.
  - destruct (k' =? k) eqn:E; cbn [lookup_name]; rewrite deqb_of_int, E;
      [reflexivity | exact IH].
Qed.

Lemma lookup_choice_values_set (table : list (Z * string)) (k : Z) (n : string) :
  lookup_choice (values_set table k n) n <> None.
Proof.
  induction table as [|[k' s] l IH]; cbn [values_set lookup_choice].
  - rewrite String.eqb_refl. discriminate.
  - destruct (k' =? k); cbn [lookup_choice].
    + rewrite String.eqb_refl. discriminate.
    + destruct (String.eqb s n); [discriminate | exact IH].
Qed.

Lemma phys2raw_numeric_not_ValueError (self : Signal) (given : pyvalue)
    (v : Decimal) :
  snd (phys2raw_numeric self given v) <> Raise ValueError.
Proof.
  unfold phys2raw_numeric, ddiv, log_not_valid.
  destruct (dle (min self) v && dle v (max self));
    destruct (is_zero (factor self)); destruct (is_zero (dsub v (offset self)));
    destruct (is_float self); cbn; discriminate.
Qed.

(** X13: after [addValues(value, valueName)] a raw value whose physical value
    is [value] decodes to [valueName] when names are asked for (the table is
    matched against the physical value, not the raw one), [valueName] is
    accepted by [phys2raw], and the scaling of the signal is as before. *)
Theorem raw2phys_addValues (self : Signal) (value : Z) (valueName : string)
    (raw : rawvalue) :
  raw2phys self raw false = Ok (PyNum (of_int value)) ->
  raw2phys (addValues self value valueName) raw true = Ok (PyStr valueName) /\
  snd (phys2raw (addValues self value valueName) (PyStr valueName))
    <> Raise ValueError /\
  raw2phys (addValues self value valueName) raw false
    = raw2phys self raw false.
Proof.
  intros Hp.
  assert (Hfin : exists v,
             dadd (dmul v (factor self)) (offset self) = of_int value /\
             forall s' b, factor s' = factor self -> offset s' = offset self ->
                          raw2phys s' raw b = Ok (raw2phys_finite s' v b)).
  { destruct raw as [z|d|negative].
    - exists (of_int z). split; [|reflexivity].
      cbn [raw2phys] in Hp. unfold raw2phys_finite in Hp. congruence.
    - exists d. split; [|reflexivity].
      cbn [raw2phys] in Hp. unfold raw2phys_finite in Hp. congruence.
    - cbn [raw2phys] in Hp. destruct (is_zero (factor self)); discriminate. }
  destruct Hfin as [v [Hv Hraw]].
  rewrite !(Hraw (addValues self value valueName)) by reflexivity.
  rewrite (Hraw self) by reflexivity.
  unfold raw2phys_finite, addValues. cbn [set_values values factor offset].
  rewrite Hv, lookup_name_values_set. split; [reflexivity|].
  split; [|reflexivity].
  cbn [phys2raw].
  change (values (set_values self (values_set (values self) value valueName)))
    with (values_set (values self) value valueName).
  destruct (lookup_choice (values_set (values self) value valueName) valueName)
    as [key|] eqn:E; [|now apply lookup_choice_values_set in E].
  cbn [phys2raw_checked]. apply phys2raw_numeric_not_ValueError.
Qed.

Lemma raw2phys_addValues_witness :
  raw2phys (addValues gear_signal 4 "Sport") (RawInt 4) true
  = Ok (PyStr "Sport") /\
  snd (phys2raw (addValues gear_signal 4 "Sport") (PyStr "Sport"))
    <> Raise ValueError /\
  raw2phys (addValues gear_signal 4 "Sport") (RawInt 4) false
    = raw2phys gear_signal (RawInt 4) false.
Proof.
  apply (raw2phys_addValues gear_signal 4 "Sport" (RawInt 4)).
  change (raw2phys gear_signal (RawInt 4) false)
    with (Ok (PyNum (dadd (dmul (of_int 4) (factor gear_signal))
                          (offset gear_signal)))).
  do 2 f_equal. apply Qc_is_canon. vm_compute. reflexivity.
Defined.

(** ** The signals of a frame *)

Lemma signalByName_loop_app (sigs : list Signal) (s : Signal) (n : string) :
  signalByName_loop (sigs ++ [s]) n
  = match signalByName_loop sigs n with
    | Some t => Some t
    | None => if String.eqb (name s) n then Some s else None
    end.
Proof.
  induction sigs as [|t sigs IH]; cbn [app signalByName_loop]; [reflexivity|].
  destruct (String.eqb (name t) n); [reflexivity | exact IH].
Qed.

(** X14: [Frame.addSignal] returns the signal it was given and puts it last;
    [signalByName] then still returns an earlier signal of that name, and the
    new signal only for a name that no signal of the frame had. *)
Theorem signalByName_addSignal (self : Frame) (signal : Signal) (n : string) :
  snd (addSignal self signal) = signal /\
  signals (fst (addSignal self signal)) = (signals self ++ [signal])%list /\
  signalByName (fst (addSignal self signal)) n
  = match signalByName self n with
    | Some t => Some t
    | None => if String.eqb (name signal) n then Some signal else None
    end.
Proof.
  unfold addSignal, signalByName. cbn [fst snd signals set_signals].
  split; [apply last_last|]. split; [reflexivity|].
  apply signalByName_loop_app.
Qed.

Lemma nth_error_middle {A : Type} (pre l : list A) :
  nth_error (pre ++ l) (List.length pre) = nth_error l 0.
Proof. induction pre; [reflexivity | assumption]. Qed.

Lemma remove_at_middle {A : Type} (pre : list A) (x : A) (l : list A) :
  remove_at (List.length pre) (pre ++ x :: l) = (pre ++ l)%list.
Proof. induction pre; cbn; [reflexivity | now f_equal]. Qed.

(** The loop, started at index [length pre] with enough steps left, leaves
    [pre] and what [skipping_zero] keeps of the rest. *)
Lemma deleteZero_loop_skipping (fuel : nat) :
  forall pre l,
    (List.length l <= fuel)%nat ->
    deleteZero_loop fuel (List.length pre) (pre ++ l)
    = (pre ++ skipping_zero l)%list.
Proof.
  induction fuel as [|fuel IH]; intros pre l Hl.
  - destruct l; [reflexivity | cbn in Hl; lia].
  - cbn [deleteZero_loop]. rewrite nth_error_middle.
    destruct l as [|s rest]; [reflexivity|].
    cbn [nth_error skipping_zero]. cbn [List.length] in Hl.
    destruct (0 =? size s).
    + rewrite remove_at_middle. destruct rest as [|t rest'].
      * destruct fuel; [reflexivity|]. cbn [deleteZero_loop].
        replace (nth_error (pre ++ []) (S (List.length pre)))
          with (@None Signal); [reflexivity|].
        symmetry. apply nth_error_None. rewrite app_nil_r. lia.
      * replace (S (List.length pre)) with (List.length (pre ++ [t]))
          by (rewrite length_app; cbn; lia).
        replace (pre ++ t :: rest')%list with ((pre ++ [t]) ++ rest')%list
          by (rewrite <- app_assoc; reflexivity).
        rewrite IH by (cbn [List.length] in Hl; lia).
        rewrite <- app_assoc. reflexivity.
    + replace (S (List.length pre)) with (List.length (pre ++ [s]))
        by (rewrite length_app; cbn; lia).
      replace (pre ++ s :: rest)%list with ((pre ++ [s]) ++ rest)%list
        by (rewrite <- app_assoc; reflexivity).
      rewrite IH by lia. rewrite <- app_assoc. reflexivity.
Qed.

Lemma deleteZeroSignals_frame_signals (frame : Frame) :
  signals (deleteZeroSignals_frame frame) = skipping_zero (signals frame).
Proof.
  unfold deleteZeroSignals_frame. cbn [signals set_signals].
  apply (deleteZero_loop_skipping _ [] (signals frame)). lia.
Qed.

Lemma filter_skipping_zero (l : list Signal) :
  filter nonzero_width (skipping_zero l) = filter nonzero_width l.
Proof.
  assert (H : forall n l, (List.length l <= n)%nat ->
                          filter nonzero_width (skipping_zero l)
                          = filter nonzero_width l).
  { clear l. induction n as [|n IH]; intros l Hl.
    - destruct l; [reflexivity | cbn in Hl; lia].
    - destruct l as [|s rest]; [reflexivity|].
      cbn [skipping_zero filter]. unfold nonzero_width at 2.
      cbn [List.length] in Hl.
      destruct (0 =? size s) eqn:E; cbn [negb].
      + destruct rest as [|t rest']; [reflexivity|].
        cbn [filter]. cbn [List.length] in Hl.
        rewrite (IH rest') by lia. reflexivity.
      + cbn [filter]. unfold nonzero_width at 1. rewrite E. cbn [negb].
        rewrite (IH rest) by lia. reflexivity. }
  apply (H (List.length l)). lia.
Qed.

(** X15: [deleteZeroSignals] never removes a signal whose width is not zero
    and keeps the signals of every frame in their order: the signals of
    non-zero width are the same before and after, frame by frame, and nothing
    else of a frame changes. *)
Theorem deleteZeroSignals_keeps_nonzero (self : CanMatrix) :
  map (fun f => filter nonzero_width (signals f))
      (frames (deleteZeroSignals self))
  = map (fun f => filter nonzero_width (signals f)) (frames self) /\
  map frame_size (frames (deleteZeroSignals self))
  = map frame_size (frames self) /\
  map id (frames (deleteZeroSignals self)) = map id (frames self).
Proof.
  unfold deleteZeroSignals. cbn [frames]. rewrite !map_map.
  split; [|split]; apply map_ext; intros f; [|reflexivity|reflexivity].
  rewrite deleteZeroSignals_frame_signals. apply filter_skipping_zero.
Qed.

Lemma skipping_zero_complete (l : list Signal) :
  no_adjacent_zero l -> skipping_zero l = filter nonzero_width l.
Proof.
  induction l as [|s rest IH]; [reflexivity|].
  intros [Hadj Hrest]. cbn [skipping_zero filter]. unfold nonzero_width at 1.
  destruct (0 =? size s) eqn:E; cbn [negb].
  - apply Z.eqb_eq in E. destruct rest as [|t rest']; [reflexivity|].
    assert (Ht : (0 =? size t) = false)
      by (apply Z.eqb_neq; intros H; apply Hadj; split; lia).
    specialize (IH Hrest). cbn [skipping_zero filter] in IH.
    unfold nonzero_width at 1 in IH. rewrite Ht in IH. cbn [negb] in IH.
    cbn [filter]. unfold nonzero_width at 1. rewrite Ht. cbn [negb].
    exact IH.
  - f_equal. exact (IH Hrest).
Qed.

(** X16: in a frame where no signal of width zero directly follows another
    one, [deleteZeroSignals] removes every signal of width zero. *)
Theorem deleteZeroSignals_complete (frame : Frame) :
  no_adjacent_zero (signals frame) ->
  signals (deleteZeroSignals_frame frame)
  = filter nonzero_width (signals frame) /\
  Forall (fun s => size s <> 0) (signals (deleteZeroSignals_frame frame)).
Proof.
  intros H. rewrite deleteZeroSignals_frame_signals.
  rewrite (skipping_zero_complete _ H). split; [reflexivity|].
  apply Forall_forall. intros s Hs. apply filter_In in Hs.
  destruct Hs as [_ Hs]. unfold nonzero_width in Hs.
  intros E. rewrite E in Hs. discriminate.
Qed.

Lemma deleteZeroSignals_complete_witness :
  signals (deleteZeroSignals_frame gap_frame)
  = filter nonzero_width (signals gap_frame) /\
  Forall (fun s => size s <> 0) (signals (deleteZeroSignals_frame gap_frame)).
Proof.
  apply (deleteZeroSignals_complete gap_frame).
  unfold gap_frame, plain_frame. cbn [signals no_adjacent_zero].
  rewrite !size_plain_signal. repeat split; lia.
Defined.

(** Two signals of width zero in a row: the second one is stepped over and
    stays in the frame. *)
Example deleteZeroSignals_skips :
  map name
      (signals (deleteZeroSignals_frame
                  (plain_frame "Two" 1 [plain_signal "z1" 0 0 MuxNone;
                                        plain_signal "z2" 0 0 MuxNone])))
  = ["z2"].
Proof. vm_compute. reflexivity. Qed.

(** ** Decoding a multiplexed frame *)

(** X17: [decode] of a multiplexed frame whose first signal is not a
    multiplexer raises [UnboundLocalError], whatever the payload: [muxVal] is
    read off [signals_values] in every round of the search loop, and the
    first round has not yet met the multiplexer. *)
Theorem decode_multiplexer_not_first
    (unpack_float : Z -> list bool -> result Decimal)
    (self : Frame) (first : Signal) (rest : list Signal)
    (data : list Z) (decodeToStr : bool) :
  is_complex_multiplexed self = false ->
  is_multiplexed self = true ->
  signals self = first :: rest ->
  is_multiplexer first = false ->
  decode unpack_float self data decodeToStr
  = Raise (UnboundLocalError "signals_values").
Proof.
  intros Hc Hm Hs Hf. unfold decode, decode_layout.
  rewrite Hc, Hm, Hs. cbn [decode_mux_loop]. rewrite Hf. reflexivity.
Qed.

Lemma decode_multiplexer_not_first_witness :
  decode (fun _ _ => Raise BitstructError) late_mux_frame [40] false
  = Raise (UnboundLocalError "signals_values").
Proof.
  apply (decode_multiplexer_not_first _ late_mux_frame sig_A [sig_mux; sig_B]).
  - reflexivity.
  - reflexivity.
  - reflexivity.
  - reflexivity.
Defined.

(** ** computeSignalValueInFrame *)

(** More rounds than [ln] change nothing: the loop has stopped by then. *)
Lemma intel_loop_fuel (fuel : nat) :
  forall extra pos ln value frame,
    (Z.to_nat ln <= fuel)%nat ->
    intel_loop (fuel + extra) pos ln value frame
    = intel_loop fuel pos ln value frame.
Proof.
  induction fuel as [|fuel IH]; intros extra pos ln value frame Hf.
  - assert (ln <= 0) by lia.
    destruct extra; [reflexivity|]. cbn [Nat.add intel_loop].
    destruct (0 <? ln) eqn:E; [apply Z.ltb_lt in E; lia | reflexivity].
  - cbn [Nat.add intel_loop]. destruct (0 <? ln) eqn:E; [|reflexivity].
    apply Z.ltb_lt in E.
    destruct (py_shiftl _ _); [|reflexivity].
    apply IH. pose proof (Z.mod_pos_bound pos 8 ltac:(lia)). lia.
Qed.

Lemma sawtooth_nonneg (b : Z) :
  0 <= b ->
  sawtooth b mod 8 = 7 - b mod 8 /\ sawtooth (sawtooth b) = b /\
  0 <= sawtooth b.
Proof.
  intros Hb. unfold sawtooth.
  pose proof (Z.mod_pos_bound b 8 ltac:(lia)) as Hm.
  rewrite (Z.quot_div_nonneg b 8) by lia.
  assert (0 <= b / 8) by (apply Z.div_pos; lia).
  pose proof (Z.div_mod b 8 ltac:(lia)) as Hd.
  assert (Hs : (7 - b mod 8 + 8 * (b / 8)) mod 8 = 7 - b mod 8).
  { rewrite Z.mul_comm, Z.mod_add by lia. apply Z.mod_small. lia. }
  split; [exact Hs|]. split; [|lia].
  rewrite Hs. rewrite Z.quot_div_nonneg by lia.
  assert ((7 - b mod 8 + 8 * (b / 8)) / 8 = b / 8) as ->
    by (symmetry; apply Z.div_unique with (7 - b mod 8); lia).
  lia.
Qed.

(** X18: for a little endian (Intel) signal that lies within one byte and a
    value that fits its [ln] bits, [computeSignalValueInFrame] returns the
    value shifted to the start bit. *)
Theorem computeSignalValueInFrame_intel_one_byte (startBit ln value : Z) :
  0 <= startBit ->
  0 < ln <= 8 - startBit mod 8 ->
  0 <= value < 2 ^ ln ->
  computeSignalValueInFrame startBit ln 1 value
  = Ok (Z.shiftl value startBit).
Proof.
  intros Hs Hln Hv. unfold computeSignalValueInFrame. cbn [Z.eqb Pos.eqb].
  destruct (sawtooth_nonneg startBit Hs) as [Hm [Hinv Hpos]].
  destruct (Z.to_nat ln) as [|fuel] eqn:Ef; [lia|].
  cbn [intel_loop]. destruct (0 <? ln) eqn:E; [|apply Z.ltb_ge in E; lia].
  rewrite Hm, Hinv. unfold py_shiftl.
  destruct (startBit <? 0) eqn:En; [apply Z.ltb_lt in En; lia|].
  pose proof (Z.mod_pos_bound startBit 8 ltac:(lia)) as Hb.
  assert (Hmask : Z.land value (Z.shiftl 1 (1 + (7 - startBit mod 8)) - 1)
                  = value).
  { rewrite Z.shiftl_1_l. rewrite land_low by lia.
    apply Z.mod_small. split; [lia|].
    apply Z.lt_le_trans with (2 ^ ln); [lia|].
    apply Z.pow_le_mono_r; lia. }
  rewrite Hmask. cbn [Z.lor].
  destruct fuel as [|fuel']; [reflexivity|]. cbn [intel_loop].
  destruct (0 <? ln - (1 + (7 - startBit mod 8))) eqn:E2;
    [apply Z.ltb_lt in E2; lia | reflexivity].
Qed.

Lemma computeSignalValueInFrame_intel_one_byte_witness :
  computeSignalValueInFrame 10 4 1 11 = Ok (Z.shiftl 11 10).
Proof.
  apply (computeSignalValueInFrame_intel_one_byte 10 4 11).
  - lia.
  - cbn. lia.
  - cbn. lia.
Defined.

(** ** Unused bits and dummy signals *)

Lemma update_length (l : list Z) (k : nat) (v : Z) :
  List.length (update l k v) = List.length l.
Proof.
  revert k. induction l as [|x l IH]; intros [|k]; cbn; auto.
Qed.

Lemma nth_update (l : list Z) (k k' : nat) (v : Z) :
  (k < List.length l)%nat ->
  nth k' (update l k v) 0 = if Nat.eqb k' k then v else nth k' l 0.
Proof.
  revert k k'. induction l as [|x l IH]; intros k k' Hk; [cbn in Hk; lia|].
  destruct k as [|k], k' as [|k']; cbn; try reflexivity.
  apply IH. cbn in Hk. lia.
Qed.

Lemma zrange_cons (a n : Z) :
  0 < n -> zrange a n = a :: zrange (a + 1) (n - 1).
Proof.
  intros Hn. unfold zrange.
  replace (Z.to_nat n) with (S (Z.to_nat (n - 1))) by lia.
  cbn [seq map]. f_equal; [lia|].
  rewrite <- seq_shift, map_map. apply map_ext. intros k. lia.
Qed.

Lemma zrange_nil (a n : Z) : n <= 0 -> zrange a n = [].
Proof.
  intros Hn. unfold zrange. replace (Z.to_nat n) with O by lia. reflexivity.
Qed.

(** Marking the bits [a .. a + n - 1] of a field that holds them all. *)
Lemma mark_bits_zrange (n : nat) :
  forall (a : Z) (field : list Z) (i : Z),
    0 <= a -> a + Z.of_nat n <= Z.of_nat (List.length field) ->
    exists field',
      mark_bits (zrange a (Z.of_nat n)) field i = Ok field' /\
      List.length field' = List.length field /\
      forall p, 0 <= p ->
                zth field' p
                = if (a <=? p) && (p <? a + Z.of_nat n) then i else zth field p.
Proof.
  induction n as [|n IH]; intros a field i Ha Hlen.
  - exists field. rewrite zrange_nil by lia. cbn [mark_bits].
    repeat split. intros p Hp.
    destruct (a <=? p) eqn:E1, (p <? a + Z.of_nat 0) eqn:E2; cbn [andb];
      try reflexivity.
    apply Z.leb_le in E1. apply Z.ltb_lt in E2. lia.
  - rewrite zrange_cons by lia. cbn [mark_bits]. unfold list_assign.
    destruct ((0 <=? a) && (a <? Z.of_nat (List.length field))) eqn:E;
      [|apply andb_false_iff in E; destruct E as [E|E];
        [apply Z.leb_gt in E | apply Z.ltb_ge in E]; lia].
    replace (Z.of_nat (S n) - 1) with (Z.of_nat n) by lia.
    destruct (IH (a + 1) (update field (Z.to_nat a) i) i) as [f' [Hm [Hl Hz]]];
      [lia | rewrite update_length; lia |].
    exists f'. split; [exact Hm|]. split; [now rewrite Hl, update_length|].
    intros p Hp. rewrite (Hz p Hp). unfold zth.
    rewrite nth_update by lia.
    destruct (Z.eq_dec p a) as [->|Hne].
    + rewrite Nat.eqb_refl.
      replace ((a + 1 <=? a) && (a <? a + 1 + Z.of_nat n)) with false
        by (symmetry; apply andb_false_iff; left; apply Z.leb_gt; lia).
      replace ((a <=? a) && (a <? a + Z.of_nat (S n))) with true;
        [reflexivity|].
      symmetry. apply andb_true_iff. split;
        [apply Z.leb_le | apply Z.ltb_lt]; lia.
    + replace (Nat.eqb (Z.to_nat p) (Z.to_nat a)) with false
        by (symmetry; apply Nat.eqb_neq; lia).
      replace ((a + 1 <=? p) && (p <? a + 1 + Z.of_nat n))
        with ((a <=? p) && (p <? a + Z.of_nat (S n))); [reflexivity|].
      destruct (a <=? p) eqn:E1, (a + 1 <=? p) eqn:E2,
               (p <? a + Z.of_nat (S n)) eqn:E3,
               (p <? a + 1 + Z.of_nat n) eqn:E4; cbn [andb]; try reflexivity;
        repeat match goal with
               | H : (_ <=? _) = true |- _ => apply Z.leb_le in H
               | H : (_ <=? _) = false |- _ => apply Z.leb_gt in H
               | H : (_ <? _) = true |- _ => apply Z.ltb_lt in H
               | H : (_ <? _) = false |- _ => apply Z.ltb_ge in H
               end; lia.
Qed.

Lemma claims_cons (little : bool) (s : Signal) (sigs : list Signal) (p : Z) :
  claims little (s :: sigs) p <->
  (is_little_endian s = little /\ in_field s p) \/ claims little sigs p.
Proof.
  unfold claims. split.
  - intros [t [[->|Hin] [Hl Hf]]]; [left; auto | right; exists t; auto].
  - intros [[Hl Hf]|[t [Hin [Hl Hf]]]];
      [exists s | exists t]; cbn [In]; auto.
Qed.

Lemma in_field_range (s : Signal) (p : Z) :
  (getStartbit s None None <=? p)
  && (p <? getStartbit s None None + size s) = true <-> in_field s p.
Proof.
  unfold in_field. rewrite andb_true_iff, Z.leb_le, Z.ltb_lt. tauto.
Qed.

(** Marking signals that lie within the 64 bits: no error, and an entry is
    non-zero afterwards exactly when it was before or a signal of the right
    byte order has the bit. *)
Lemma mark_signals_fits (sigs : list Signal) :
  forall (i : Z) (le be : list Z),
    0 <= i -> List.length le = 64%nat -> List.length be = 64%nat ->
    Forall (fits 64) sigs ->
    exists le' be',
      mark_signals sigs i le be = Ok (le', be') /\
      List.length le' = 64%nat /\ List.length be' = 64%nat /\
      (forall p, 0 <= p < 64 ->
                 (zth le' p <> 0 <-> zth le p <> 0 \/ claims true sigs p) /\
                 (zth be' p <> 0 <-> zth be p <> 0 \/ claims false sigs p)) /\
      (Forall (fun s => is_little_endian s = false) sigs -> le' = le).
Proof.
  induction sigs as [|s sigs IH]; intros i le be Hi Hle Hbe Hfit.
  - exists le, be. cbn [mark_signals].
    split; [reflexivity|]. split; [assumption|]. split; [assumption|].
    split; [|reflexivity].
    intros p Hp. split; (split; [auto | intros [H|[t [[] _]]]; exact H]).
  - inversion Hfit as [|? ? [Hs0 [Hn0 Hs64]] Hrest]; subst.
    cbn [mark_signals].
    destruct (is_little_endian s) eqn:El.
    + destruct (mark_bits_zrange (Z.to_nat (size s))
                  (getStartbit s None None) le (i + 1))
        as [le1 [Hm [Hl1 Hz]]]; [lia | rewrite Hle; lia |].
      rewrite Z2Nat.id in Hm, Hz by lia. rewrite Hm.
      destruct (IH (i + 1) le1 be) as [le' [be' [Hr [Hl' [Hb' [Hc Hbe_only]]]]]];
        [lia | congruence | assumption | assumption |].
      exists le', be'. split; [exact Hr|]. split; [exact Hl'|].
      split; [exact Hb'|]. split.
      * intros p Hp. destruct (Hc p Hp) as [Hc1 Hc2].
        rewrite Hc1, Hc2, !claims_cons, El. rewrite (Hz p) by lia.
        pose proof (in_field_range s p) as Hr'.
        destruct ((getStartbit s None None <=? p)
                  && (p <? getStartbit s None None + size s));
          clear - Hi Hr'; split; intuition (try congruence; try lia).
      * intros Hall. inversion Hall; congruence.
    + destruct (mark_bits_zrange (Z.to_nat (size s))
                  (getStartbit s None None) be (i + 1))
        as [be1 [Hm [Hl1 Hz]]]; [lia | rewrite Hbe; lia |].
      rewrite Z2Nat.id in Hm, Hz by lia. rewrite Hm.
      destruct (IH (i + 1) le be1) as [le' [be' [Hr [Hl' [Hb' [Hc Hbe_only]]]]]];
        [lia | assumption | congruence | assumption |].
      exists le', be'. split; [exact Hr|]. split; [exact Hl'|].
      split; [exact Hb'|]. split.
      * intros p Hp. destruct (Hc p Hp) as [Hc1 Hc2].
        rewrite Hc1, Hc2, !claims_cons, El. rewrite (Hz p) by lia.
        pose proof (in_field_range s p) as Hr'.
        destruct ((getStartbit s None None <=? p)
                  && (p <? getStartbit s None None + size s));
          clear - Hi Hr'; split; intuition (try congruence; try lia).
      * intros Hall. inversion Hall; subst. auto.
Qed.

Lemma zth_map_zrange (f : Z -> Z) (p : Z) :
  0 <= p < 64 -> zth (map f (zrange 0 64)) p = f p.
Proof.
  intros Hp. unfold zth, zrange. rewrite map_map.
  set (g := fun k : nat => f (0 + Z.of_nat k)).
  rewrite (nth_indep _ 0 (g O))
    by (rewrite length_map, length_seq; lia).
  rewrite (map_nth g). rewrite seq_nth by lia. unfold g.
  f_equal. lia.
Qed.

Lemma byte_reflect_64 (p : Z) : 0 <= p < 64 -> 0 <= byte_reflect p < 64.
Proof.
  intros Hp. unfold byte_reflect.
  pose proof (Z.mod_pos_bound p 8 ltac:(lia)).
  pose proof (Z.div_mod p 8 ltac:(lia)).
  assert (0 <= p / 8 < 8)
    by (split; [apply Z.div_pos; lia | apply Z.div_lt_upper_bound; lia]).
  lia.
Qed.

Lemma merge_bitfields_spec (le be : list Z) :
  List.length (merge_bitfields le be) = 64%nat /\
  forall p, 0 <= p < 64 ->
            zth (merge_bitfields le be) p
            = if zth le (byte_reflect p) =? 0 then zth be p
              else zth le (byte_reflect p).
Proof.
  unfold merge_bitfields. split.
  - unfold zrange. rewrite !length_map, length_seq. reflexivity.
  - intros p Hp. rewrite zth_map_zrange by assumption.
    rewrite zth_map_zrange by assumption.
    replace (p / 8 * 8 + (7 - p mod 8)) with (byte_reflect p); [reflexivity|].
    unfold byte_reflect. pose proof (Z.div_mod p 8 ltac:(lia)). lia.
Qed.

Lemma zth_zeros (p : Z) : zth (repeat 0 64%nat) p = 0.
Proof. unfold zth. apply nth_repeat. Qed.

(** X19: on a frame whose signals lie within the 64 bits, [findNotUsedBits]
    returns 64 entries, and the entry of position [p] is 0 exactly when no
    big endian signal has bit [p] and no little endian signal has the bit
    that mirrors [p] in its byte. *)
Theorem findNotUsedBits_unused (self : Frame) :
  Forall (fits 64) (signals self) ->
  exists bitfield,
    findNotUsedBits self = Ok bitfield /\
    List.length bitfield = 64%nat /\
    forall p, 0 <= p < 64 ->
              (zth bitfield p = 0 <->
               ~ claims true (signals self) (byte_reflect p) /\
               ~ claims false (signals self) p).
Proof.
  intros Hfit. unfold findNotUsedBits.
  destruct (mark_signals_fits (signals self) 0 (repeat 0 64%nat)
              (repeat 0 64%nat)) as [le [be [Hm [Hl [Hb [Hc _]]]]]];
    [lia | apply repeat_length | apply repeat_length | assumption |].
  rewrite Hm. eexists. split; [reflexivity|].
  destruct (merge_bitfields_spec le be) as [Hlen Hz].
  split; [exact Hlen|]. intros p Hp. rewrite (Hz p Hp).
  destruct (Hc p Hp) as [_ Hbe].
  destruct (Hc (byte_reflect p) (byte_reflect_64 p Hp)) as [Hle _].
  rewrite !zth_zeros in *.
  destruct (zth le (byte_reflect p) =? 0) eqn:E.
  - apply Z.eqb_eq in E. split.
    + intros H0. split; intros Hcl.
      * apply (proj2 Hle) in E; [exact E | right; exact Hcl].
      * apply (proj2 Hbe) in H0; [exact H0 | right; exact Hcl].
    + intros [_ Hnb]. destruct (Z.eq_dec (zth be p) 0) as [|Hne]; [assumption|].
      apply Hbe in Hne. destruct Hne as [Hne|Hcl]; [lia | contradiction].
  - apply Z.eqb_neq in E. split; [intros H0; contradiction|].
    intros [Hnl _]. apply Hle in E. destruct E as [E|Hcl];
      [lia | contradiction].
Qed.

Lemma findNotUsedBits_unused_witness :
  exists bitfield,
    findNotUsedBits gap_frame = Ok bitfield /\
    List.length bitfield = 64%nat /\
    forall p, 0 <= p < 64 ->
              (zth bitfield p = 0 <->
               ~ claims true (signals gap_frame) (byte_reflect p) /\
               ~ claims false (signals gap_frame) p).
Proof.
  apply (findNotUsedBits_unused gap_frame).
  repeat constructor; rewrite ?start_plain_signal, ?size_plain_signal; lia.
Defined.

Lemma list_assign_result (l : list Z) (idx v : Z) :
  match list_assign l idx v with
  | Ok l' => List.length l' = List.length l /\
             - Z.of_nat (List.length l) <= idx < Z.of_nat (List.length l)
  | Raise e => e = IndexError
  end.
Proof.
  unfold list_assign.
  destruct ((0 <=? idx) && (idx <? Z.of_nat (List.length l))) eqn:E1.
  - apply andb_true_iff in E1. destruct E1 as [A B].
    apply Z.leb_le in A. apply Z.ltb_lt in B.
    split; [apply update_length | lia].
  - destruct ((- Z.of_nat (List.length l) <=? idx) && (idx <? 0)) eqn:E2;
      [|reflexivity].
    apply andb_true_iff in E2. destruct E2 as [A B].
    apply Z.leb_le in A. apply Z.ltb_lt in B.
    split; [apply update_length | lia].
Qed.

(** Marking bits either keeps the length of the field or raises
    [IndexError], and it raises when one of the bits is beyond the field. *)
Lemma mark_bits_result (bits : list Z) :
  forall (field : list Z) (i : Z),
    match mark_bits bits field i with
    | Ok field' => List.length field' = List.length field /\
                   Forall (fun b => b < Z.of_nat (List.length field)) bits
    | Raise e => e = IndexError
    end.
Proof.
  induction bits as [|b bits IH]; intros field i; cbn [mark_bits].
  - split; [reflexivity | constructor].
  - pose proof (list_assign_result field b i) as Ha.
    destruct (list_assign field b i) as [field'|e]; [|exact Ha].
    destruct Ha as [Hl Hb]. specialize (IH field' i).
    destruct (mark_bits bits field' i) as [field''|e]; [|exact IH].
    destruct IH as [Hl' Hall]. split; [congruence|].
    constructor; [lia|]. now rewrite <- Hl.
Qed.

Lemma mark_signals_result (sigs : list Signal) :
  forall (i : Z) (le be : list Z),
    List.length le = 64%nat -> List.length be = 64%nat ->
    match mark_signals sigs i le be with
    | Ok (le', be') =>
        Forall (fun s => 0 < size s ->
                         getStartbit s None None + size s <= 64) sigs
    | Raise e => e = IndexError
    end.
Proof.
  induction sigs as [|s sigs IH]; intros i le be Hle Hbe;
    cbn [mark_signals]; [constructor|].
  assert (Hlast : forall field : list Z,
             List.length field = 64%nat ->
             Forall (fun b => b < Z.of_nat (List.length field))
                    (zrange (getStartbit s None None) (size s)) ->
             0 < size s -> getStartbit s None None + size s <= 64).
  { intros field Hf Hall Hpos. rewrite Forall_forall in Hall.
    assert (In (getStartbit s None None + Z.of_nat (Z.to_nat (size s) - 1))
               (zrange (getStartbit s None None) (size s))) as Hin.
    { unfold zrange.
      apply (in_map (fun k => getStartbit s None None + Z.of_nat k)).
      apply in_seq. lia. }
    apply Hall in Hin. rewrite Hf in Hin. lia. }
  destruct (is_little_endian s).
  - pose proof (mark_bits_result
                  (zrange (getStartbit s None None) (size s)) le (i + 1)) as Hm.
    destruct (mark_bits _ le (i + 1)) as [le1|e]; [|exact Hm].
    destruct Hm as [Hl Hall].
    specialize (IH (i + 1) le1 be ltac:(congruence) Hbe).
    destruct (mark_signals sigs (i + 1) le1 be) as [[le' be']|e]; [|exact IH].
    constructor; [|exact IH]. now apply (Hlast le).
  - pose proof (mark_bits_result
                  (zrange (getStartbit s None None) (size s)) be (i + 1)) as Hm.
    destruct (mark_bits _ be (i + 1)) as [be1|e]; [|exact Hm].
    destruct Hm as [Hl Hall].
    specialize (IH (i + 1) le be1 Hle ltac:(congruence)).
    destruct (mark_signals sigs (i + 1) le be1) as [[le' be']|e]; [|exact IH].
    constructor; [|exact IH]. now apply (Hlast be).
Qed.

(** X20: [findNotUsedBits], and [createDummySignals] with it, handle 64 bits
    only: when a signal of the frame reaches beyond bit 63, as in a CAN FD
    frame of more than 8 bytes, both raise [IndexError]. *)
Theorem findNotUsedBits_beyond_64 (self : Frame) (s : Signal) :
  In s (signals self) ->
  0 < size s ->
  64 < getStartbit s None None + size s ->
  findNotUsedBits self = Raise IndexError /\
  createDummySignals self = Raise IndexError.
Proof.
  intros Hin Hpos Hbig.
  assert (findNotUsedBits self = Raise IndexError) as H.
  { unfold findNotUsedBits.
    pose proof (mark_signals_result (signals self) 0 (repeat 0 64%nat)
                  (repeat 0 64%nat) (repeat_length _ _) (repeat_length _ _))
      as Hr.
    destruct (mark_signals (signals self) 0 (repeat 0 64%nat)
                           (repeat 0 64%nat)) as [[le be]|e];
      [|now rewrite Hr].
    rewrite Forall_forall in Hr. specialize (Hr s Hin Hpos). lia. }
  split; [exact H|]. unfold createDummySignals. now rewrite H.
Qed.

Lemma findNotUsedBits_beyond_64_witness :
  findNotUsedBits fd_frame = Raise IndexError /\
  createDummySignals fd_frame = Raise IndexError.
Proof.
  apply (findNotUsedBits_beyond_64 fd_frame (plain_signal "tail" 64 8 MuxNone)).
  - right. left. reflexivity.
  - rewrite size_plain_signal. lia.
  - rewrite start_plain_signal, size_plain_signal. lia.
Defined.

Lemma dummy_signal_fields (nm : string) (c sb sz : Z) :
  getStartbit (dummy_signal nm c sb sz) None None = sb /\
  size (dummy_signal nm c sb sz) = sz /\
  is_little_endian (dummy_signal nm c sb sz) = false.
Proof. repeat split. Qed.

Lemma claims_dummy (nm : string) (c sb sz p : Z) (D : list Signal) :
  sb <= p < sb + sz -> claims false (dummy_signal nm c sb sz :: D) p.
Proof.
  intros Hp. exists (dummy_signal nm c sb sz).
  destruct (dummy_signal_fields nm c sb sz) as [Hs [Hz Hl]].
  split; [left; reflexivity|]. split; [exact Hl|].
  unfold in_field. rewrite Hs, Hz. exact Hp.
Qed.

Lemma claims_tail (little : bool) (d : Signal) (D : list Signal) (p : Z) :
  claims little D p -> claims little (d :: D) p.
Proof. intros H. apply claims_cons. now right. Qed.

(** The scan of [createDummySignals] over the entries from position [i] on,
    with a run of unused bits open since [startBit] unless that is -1: the
    signals it makes are big endian, of positive width and within the 64
    bits, and they have every position whose entry is 0, and the open run. *)
Lemma dummy_scan_covers (nm : string) (l : list Z) :
  forall i sb c,
    0 <= i -> i + Z.of_nat (List.length l) = 64 ->
    sb = -1 \/ 0 <= sb < i ->
    Forall (fun d => is_little_endian d = false /\ fits 64 d)
           (dummy_scan nm l i sb c) /\
    (forall p, i <= p < 64 -> nth (Z.to_nat (p - i)) l 0 = 0 ->
               claims false (dummy_scan nm l i sb c) p) /\
    (sb <> -1 -> l <> [] ->
     forall p, sb <= p < i -> claims false (dummy_scan nm l i sb c) p).
Proof.
  induction l as [|b rest IH]; intros i sb c Hi Hlen Hsb.
  - cbn [List.length] in Hlen. cbn [dummy_scan].
    split; [constructor|]. split; [intros p Hp; lia | intros _ H; congruence].
  - cbn [List.length] in Hlen.
    assert (Hshift : forall p, i < p ->
               nth (Z.to_nat (p - i)) (b :: rest) 0
               = nth (Z.to_nat (p - (i + 1))) rest 0).
    { intros p Hp. replace (Z.to_nat (p - i)) with (S (Z.to_nat (p - (i + 1))))
        by lia. reflexivity. }
    assert (Hrest : i <> 63 -> rest <> []).
    { intros Hne E. subst rest. cbn [List.length] in Hlen. lia. }
    cbn [dummy_scan].
    destruct (Z.eqb_spec b 0) as [Eb|Eb];
      destruct (Z.eqb_spec sb (-1)) as [Es|Es]; cbn [andb negb].
    + (* an unused bit opens a run at [i] *)
      replace (i =? -1) with false by (symmetry; apply Z.eqb_neq; lia).
      destruct (i =? 63) eqn:E63; cbn [andb negb orb];
        [apply Z.eqb_eq in E63 | apply Z.eqb_neq in E63].
      * destruct (IH (i + 1) (-1) (c + 1)) as [Hf [Ha _]]; [lia | lia | auto |].
        split; [|split].
        -- constructor; [|exact Hf].
           split; [reflexivity|]. unfold fits.
           destruct (dummy_signal_fields nm c i (64 - i)) as [-> [-> _]]. lia.
        -- intros p Hp _. apply claims_dummy. lia.
        -- intros Hne. contradiction.
      * destruct (IH (i + 1) i c) as [Hf [Ha Hb]]; [lia | lia | right; lia |].
        split; [exact Hf|]. split.
        -- intros p Hp Hz. destruct (Z.eq_dec p i) as [->|Hne].
           ++ apply Hb; [lia | auto | lia].
           ++ apply Ha; [lia|]. rewrite <- Hshift by lia. exact Hz.
        -- intros Hne. contradiction.
    + (* an unused bit in an open run *)
      assert (0 <= sb < i) as Hsb' by (destruct Hsb; [contradiction | lia]).
      replace (sb =? -1) with false by (symmetry; apply Z.eqb_neq; lia).
      destruct (i =? 63) eqn:E63; cbn [andb negb orb];
        [apply Z.eqb_eq in E63 | apply Z.eqb_neq in E63].
      * destruct (IH (i + 1) (-1) (c + 1)) as [Hf [Ha _]]; [lia | lia | auto |].
        split; [|split].
        -- constructor; [|exact Hf].
           split; [reflexivity|]. unfold fits.
           destruct (dummy_signal_fields nm c sb (64 - sb)) as [-> [-> _]]. lia.
        -- intros p Hp _. apply claims_dummy. lia.
        -- intros _ _ p Hp. apply claims_dummy. lia.
      * destruct (IH (i + 1) sb c) as [Hf [Ha Hb]]; [lia | lia | right; lia |].
        split; [exact Hf|]. split.
        -- intros p Hp Hz. destruct (Z.eq_dec p i) as [->|Hne].
           ++ apply Hb; [lia | auto | lia].
           ++ apply Ha; [lia|]. rewrite <- Hshift by lia. exact Hz.
        -- intros _ _ p Hp. apply Hb; [lia | auto | lia].
    + (* a used bit, no run open *)
      subst sb. change (-1 =? -1) with true.
      destruct (IH (i + 1) (-1) c) as [Hf [Ha _]]; [lia | lia | auto |].
      destruct (i =? 63); cbn [andb negb orb];
        (split; [exact Hf|]; split;
         [intros p Hp Hz; destruct (Z.eq_dec p i) as [->|Hne];
          [replace (Z.to_nat (i - i)) with O in Hz by lia; cbn in Hz; lia
          |apply Ha; [lia|]; rewrite <- Hshift by lia; exact Hz]
         |intros Hne; contradiction]).
    + (* a used bit closes the run *)
      assert (0 <= sb < i) as Hsb' by (destruct Hsb; [contradiction | lia]).
      replace (sb =? -1) with false by (symmetry; apply Z.eqb_neq; lia).
      destruct (IH (i + 1) (-1) (c + 1)) as [Hf [Ha _]]; [lia | lia | auto |].
      destruct (i =? 63) eqn:E63; cbn [andb negb orb];
        [apply Z.eqb_eq in E63 | apply Z.eqb_neq in E63];
        (split; [|split];
         [constructor; [|exact Hf];
          split; [reflexivity|]; unfold fits;
          match goal with
          | |- context [dummy_signal nm c sb ?z] =>
              destruct (dummy_signal_fields nm c sb z) as [-> [-> _]]
          end; lia
         |intros p Hp Hz; destruct (Z.eq_dec p i) as [->|Hne];
          [replace (Z.to_nat (i - i)) with O in Hz by lia; cbn in Hz; lia
          |apply claims_tail; apply Ha; [lia|];
           rewrite <- Hshift by lia; exact Hz]
         |intros _ _ p Hp; apply claims_dummy; lia]).
Qed.

Lemma mark_signals_app (a b : list Signal) :
  forall (i : Z) (le be : list Z),
    mark_signals (a ++ b) i le be
    = match mark_signals a i le be with
      | Ok (le', be') => mark_signals b (i + Z.of_nat (List.length a)) le' be'
      | Raise e => Raise e
      end.
Proof.
  induction a as [|s a IH]; intros i le be.
  - cbn. f_equal. lia.
  - cbn [app mark_signals List.length].
    destruct (is_little_endian s).
    + destruct (mark_bits _ le (i + 1)); [|reflexivity].
      rewrite IH. replace (i + 1 + Z.of_nat (List.length a))
        with (i + Z.of_nat (S (List.length a))) by lia. reflexivity.
    + destruct (mark_bits _ be (i + 1)); [|reflexivity].
      rewrite IH. replace (i + 1 + Z.of_nat (List.length a))
        with (i + Z.of_nat (S (List.length a))) by lia. reflexivity.
Qed.

Lemma Forall_zth (l : list Z) (P : Z -> Prop) :
  (forall p, 0 <= p < Z.of_nat (List.length l) -> P (zth l p)) -> Forall P l.
Proof.
  intros H. apply Forall_forall. intros x Hx.
  destruct (In_nth l x 0 Hx) as [n [Hn Hnth]].
  specialize (H (Z.of_nat n) ltac:(lia)). unfold zth in H.
  rewrite Nat2Z.id, Hnth in H. exact H.
Qed.

(** X21: on a frame whose signals lie within the 64 bits,
    [createDummySignals] appends big endian signals after the signals of the
    frame, and then every one of the 64 bits is in use: [findNotUsedBits] of
    the new frame has no entry 0. *)
Theorem createDummySignals_covers (self : Frame) :
  Forall (fits 64) (signals self) ->
  exists frame' dummies bitfield,
    createDummySignals self = Ok frame' /\
    signals frame' = (signals self ++ dummies)%list /\
    Forall (fun d => is_little_endian d = false /\ fits 64 d) dummies /\
    findNotUsedBits frame' = Ok bitfield /\
    List.length bitfield = 64%nat /\
    Forall (fun v => v <> 0) bitfield.
Proof.
  intros Hfit. unfold createDummySignals, findNotUsedBits.
  destruct (mark_signals_fits (signals self) 0 (repeat 0 64%nat)
              (repeat 0 64%nat)) as [le [be [Hm [Hl [Hb [Hc _]]]]]];
    [lia | apply repeat_length | apply repeat_length | assumption |].
  rewrite Hm.
  destruct (merge_bitfields_spec le be) as [Hlen Hz].
  set (bf := merge_bitfields le be) in *.
  set (D := dummy_scan (frame_name self) bf 0 (-1) 0).
  destruct (dummy_scan_covers (frame_name self) bf 0 (-1) 0) as [HD [Hcov _]];
    [lia | rewrite Hlen; reflexivity | auto |].
  fold D in HD, Hcov.
  assert (HDfit : Forall (fits 64) D)
    by (eapply Forall_impl; [|exact HD]; intros d [_ H]; exact H).
  assert (HDbe : Forall (fun s => is_little_endian s = false) D)
    by (eapply Forall_impl; [|exact HD]; intros d [H _]; exact H).
  destruct (mark_signals_fits D (0 + Z.of_nat (List.length (signals self)))
              le be) as [le2 [be2 [Hm2 [Hl2 [Hb2 [Hc2 Hsame]]]]]];
    [lia | assumption | assumption | assumption |].
  specialize (Hsame HDbe). subst le2.
  exists (set_signals self (signals self ++ D)), D, (merge_bitfields le be2).
  split; [reflexivity|]. split; [reflexivity|]. split; [exact HD|].
  cbn [signals set_signals]. rewrite mark_signals_app, Hm, Hm2.
  split; [reflexivity|].
  destruct (merge_bitfields_spec le be2) as [Hlen2 Hz2].
  split; [exact Hlen2|].
  apply Forall_zth. rewrite Hlen2. intros p Hp.
  rewrite (Hz2 p) by lia.
  destruct (zth le (byte_reflect p) =? 0) eqn:E;
    [|apply Z.eqb_neq in E; exact E].
  destruct (Hc2 p ltac:(lia)) as [_ Hbe2]. apply Hbe2.
  destruct (Z.eq_dec (zth be p) 0) as [H0|Hne]; [|left; exact Hne].
  right. apply Hcov; [lia|].
  replace (Z.to_nat (p - 0)) with (Z.to_nat p) by lia.
  change (zth bf p = 0). rewrite (Hz p) by lia. rewrite E. exact H0.
Qed.

Lemma createDummySignals_covers_witness :
  exists frame' dummies bitfield,
    createDummySignals gap_frame = Ok frame' /\
    signals frame' = (signals gap_frame ++ dummies)%list /\
    Forall (fun d => is_little_endian d = false /\ fits 64 d) dummies /\
    findNotUsedBits frame' = Ok bitfield /\
    List.length bitfield = 64%nat /\
    Forall (fun v => v <> 0) bitfield.
Proof.
  apply (createDummySignals_covers gap_frame).
  repeat constructor; rewrite ?start_plain_signal, ?size_plain_signal; lia.
Defined.


(** ** The Motorola branch of computeSignalValueInFrame *)

(** The digits read so far stay in front of the mirrored digits of [p]. *)
Lemma mirror_digits_acc (p : positive) :
  forall acc,
    mirror_digits p acc
    = acc * 2 ^ (Z.log2 (Zpos p) + 1) + mirror_digits p 0 /\
    0 <= mirror_digits p 0 < 2 ^ (Z.log2 (Zpos p) + 1).
Proof.
  induction p as [q IH|q IH|]; intros acc.
  - assert (Hl : Z.log2 (Zpos q~1) = Z.succ (Z.log2 (Zpos q)))
      by (change (Zpos q~1) with (2 * Zpos q + 1);
          apply Z.log2_succ_double; lia).
    rewrite Hl. cbn [mirror_digits].
    destruct (IH (2 * acc + 1)) as [E1 B]. destruct (IH (2 * 0 + 1)) as [E0 _].
    rewrite E1, E0.
    replace (Z.succ (Z.log2 (Zpos q)) + 1) with (Z.succ (Z.log2 (Zpos q) + 1))
      by lia.
    pose proof (Z.log2_nonneg (Zpos q)).
    rewrite Z.pow_succ_r by lia. split; [ring|lia].
  - assert (Hl : Z.log2 (Zpos q~0) = Z.succ (Z.log2 (Zpos q)))
      by (change (Zpos q~0) with (2 * Zpos q); apply Z.log2_double; lia).
    rewrite Hl. cbn [mirror_digits].
    destruct (IH (2 * acc)) as [E1 B]. change (2 * 0) with 0.
    rewrite E1.
    replace (Z.succ (Z.log2 (Zpos q)) + 1) with (Z.succ (Z.log2 (Zpos q) + 1))
      by lia.
    pose proof (Z.log2_nonneg (Zpos q)).
    rewrite Z.pow_succ_r by lia. split; [ring|lia].
  - cbn [mirror_digits]. change (2 ^ (Z.log2 1 + 1)) with 2. split; lia.
Qed.

(** Digit [k] of the mirrored number is digit [n - 1 - k] of [p], where [n]
    is the number of binary digits of [p]. *)
Lemma mirror_digits_testbit (p : positive) :
  forall k, 0 <= k <= Z.log2 (Zpos p) ->
            Z.testbit (mirror_digits p 0) k
            = Z.testbit (Zpos p) (Z.log2 (Zpos p) - k).
Proof.
  induction p as [q IH|q IH|]; intros k Hk.
  - assert (Hl : Z.log2 (Zpos q~1) = Z.succ (Z.log2 (Zpos q)))
      by (change (Zpos q~1) with (2 * Zpos q + 1);
          apply Z.log2_succ_double; lia).
    rewrite Hl in *. cbn [mirror_digits]. change (2 * 0 + 1) with 1.
    destruct (mirror_digits_acc q 1) as [E B]. rewrite E, Z.mul_1_l.
    pose proof (Z.log2_nonneg (Zpos q)) as Hn.
    set (n := Z.log2 (Zpos q) + 1) in *.
    destruct (Z.eq_dec k (Z.succ (Z.log2 (Zpos q)))) as [->|Hne].
    + rewrite Z.sub_diag. change (Z.succ (Z.log2 (Zpos q))) with (Z.succ (Z.log2 (Zpos q))).
      replace (Z.succ (Z.log2 (Zpos q))) with n by (unfold n; lia).
      rewrite Z.testbit_true by lia.
      replace ((2 ^ n + mirror_digits q 0) / 2 ^ n) with 1; [reflexivity|].
      apply Z.div_unique with (mirror_digits q 0); lia.
    + rewrite <- (Z.mod_pow2_bits_low _ n) by (unfold n; lia).
      rewrite <- Z.add_mod_idemp_l, Z.mod_same, Z.add_0_l, Z.mod_small
        by lia.
      rewrite IH by lia.
      replace (Z.succ (Z.log2 (Zpos q)) - k)
        with (Z.succ (Z.log2 (Zpos q) - k)) by lia.
      change (Zpos q~1) with (2 * Zpos q + 1).
      rewrite Z.testbit_odd_succ by lia. reflexivity.
  - assert (Hl : Z.log2 (Zpos q~0) = Z.succ (Z.log2 (Zpos q)))
      by (change (Zpos q~0) with (2 * Zpos q); apply Z.log2_double; lia).
    rewrite Hl in *. cbn [mirror_digits]. change (2 * 0) with 0.
    destruct (mirror_digits_acc q 0) as [_ B].
    pose proof (Z.log2_nonneg (Zpos q)) as Hn.
    destruct (Z.eq_dec k (Z.succ (Z.log2 (Zpos q)))) as [->|Hne].
    + rewrite Z.sub_diag. change (Z.testbit (Zpos q~0) 0) with false.
      destruct (Z.eq_dec (mirror_digits q 0) 0) as [->|Hz];
        [apply Z.testbit_0_l|].
      apply Z.bits_above_log2; [lia|].
      apply Z.log2_lt_pow2; lia.
    + rewrite IH by lia.
      replace (Z.succ (Z.log2 (Zpos q)) - k)
        with (Z.succ (Z.log2 (Zpos q) - k)) by lia.
      change (Zpos q~0) with (2 * Zpos q).
      rewrite Z.testbit_even_succ by lia. reflexivity.
  - change (Z.log2 1) with 0 in *. assert (k = 0) as -> by lia. reflexivity.
Qed.

(** X22: Motorola byte order, for a value of exactly [ln] binary digits that
    has room below the start bit: the result holds the digits of the value in
    reverse, digit [i] of the value at bit [lsbpos - i] where [lsbpos] is the
    start bit counted from the other end of its byte, and no other bit. *)
Theorem computeSignalValueInFrame_motorola_bits (startBit ln fmt value : Z) :
  fmt <> 1 ->
  0 <= startBit ->
  0 < ln <= 1 + sawtooth startBit ->
  2 ^ (ln - 1) <= value < 2 ^ ln ->
  exists frame,
    computeSignalValueInFrame startBit ln fmt value = Ok frame /\
    forall k, 0 <= k ->
              Z.testbit frame k
              = if (1 + sawtooth startBit - ln <=? k) && (k <=? sawtooth startBit)
                then Z.testbit value (sawtooth startBit - k)
                else false.
Proof.
  intros Hfmt Hs Hln Hv. unfold computeSignalValueInFrame.
  destruct (fmt =? 1) eqn:E; [apply Z.eqb_eq in E; contradiction|].
  assert (0 < 2 ^ (ln - 1)) by (apply Z.pow_pos_nonneg; lia).
  destruct value as [|p|p]; try lia.
  assert (Hlog : Z.log2 (Zpos p) = ln - 1).
  { apply Z.log2_unique; [lia|].
    replace (Z.succ (ln - 1)) with ln by lia. exact Hv. }
  cbn [mirror]. unfold py_shiftl.
  destruct (1 + sawtooth startBit - ln <? 0) eqn:En;
    [apply Z.ltb_lt in En; lia|].
  eexists. split; [reflexivity|]. intros k Hk.
  rewrite Z.shiftl_spec by lia.
  destruct (mirror_digits_acc p 0) as [_ B]. rewrite Hlog in B.
  replace (ln - 1 + 1) with ln in B by lia.
  destruct (Z.leb_spec (1 + sawtooth startBit - ln) k) as [H1|H1];
    cbn [andb]; [|apply Z.testbit_neg_r; lia].
  destruct (Z.leb_spec k (sawtooth startBit)) as [H2|H2].
  - rewrite mirror_digits_testbit by lia. rewrite Hlog. f_equal. lia.
  - destruct (Z.eq_dec (mirror_digits p 0) 0) as [->|Hz];
      [apply Z.testbit_0_l|].
    apply Z.bits_above_log2; [lia|].
    apply Z.lt_le_trans with ln; [apply Z.log2_lt_pow2; lia | lia].
Qed.

Lemma computeSignalValueInFrame_motorola_bits_witness :
  exists frame,
    computeSignalValueInFrame 8 4 0 11 = Ok frame /\
    forall k, 0 <= k ->
              Z.testbit frame k
              = if (1 + sawtooth 8 - 4 <=? k) && (k <=? sawtooth 8)
                then Z.testbit 11 (sawtooth 8 - k)
                else false.
Proof.
  apply (computeSignalValueInFrame_motorola_bits 8 4 0 11).
  - discriminate.
  - lia.
  - split; [reflexivity | vm_compute; discriminate].
  - split; [vm_compute; discriminate | reflexivity].
Defined.

(** X23: Motorola byte order: the trailing zero digits of the value are lost
    when its digits are reversed, so that a value and its double give the
    same result, an error included. *)
Theorem computeSignalValueInFrame_motorola_double (startBit ln fmt value : Z) :
  fmt <> 1 ->
  computeSignalValueInFrame startBit ln fmt (2 * value)
  = computeSignalValueInFrame startBit ln fmt value.
Proof.
  intros Hfmt. unfold computeSignalValueInFrame.
  destruct (fmt =? 1) eqn:E; [apply Z.eqb_eq in E; contradiction|].
  destruct value as [|p|p]; reflexivity.
Qed.

Lemma computeSignalValueInFrame_motorola_double_witness :
  computeSignalValueInFrame 8 4 0 (2 * 3) = computeSignalValueInFrame 8 4 0 3.
Proof.
  apply (computeSignalValueInFrame_motorola_double 8 4 0 3). discriminate.
Defined.

(** ** Encoding and decoding a frame *)

(** *** Packing and unpacking integers *)

Lemma bits_of_S (n : nat) (v : Z) :
  bits_of (Z.of_nat (S n)) v = Z.testbit v (Z.of_nat n) :: bits_of (Z.of_nat n) v.
Proof.
  unfold bits_of. rewrite !Nat2Z.id, seq_S, rev_app_distr. reflexivity.
Qed.

Lemma bits_of_length (n : nat) (v : Z) :
  List.length (bits_of (Z.of_nat n) v) = n.
Proof.
  unfold bits_of. rewrite length_map, length_rev, length_seq. apply Nat2Z.id.
Qed.

Lemma unsigned_of_acc (l : list bool) :
  forall acc,
    fold_left (fun a (b : bool) => 2 * a + (if b then 1 else 0)) l acc
    = acc * 2 ^ Z.of_nat (List.length l) + unsigned_of l /\
    0 <= unsigned_of l < 2 ^ Z.of_nat (List.length l).
Proof.
  unfold unsigned_of.
  induction l as [|b l IH]; intros acc.
  - cbn. lia.
  - cbn [fold_left List.length]. rewrite Nat2Z.inj_succ, Z.pow_succ_r by lia.
    destruct (IH (2 * acc + (if b then 1 else 0))) as [E1 B].
    destruct (IH (2 * 0 + (if b then 1 else 0))) as [E0 _].
    rewrite E1, E0. split; [ring|]. destruct b; lia.
Qed.

Lemma unsigned_of_cons (b : bool) (l : list bool) :
  unsigned_of (b :: l)
  = (if b then 1 else 0) * 2 ^ Z.of_nat (List.length l) + unsigned_of l.
Proof.
  unfold unsigned_of at 1. cbn [fold_left].
  destruct (unsigned_of_acc l (2 * 0 + (if b then 1 else 0))) as [E _].
  rewrite E. destruct b; reflexivity.
Qed.

Lemma unsigned_of_bits_of (n : nat) (v : Z) :
  unsigned_of (bits_of (Z.of_nat n) v) = v mod 2 ^ Z.of_nat n.
Proof.
  induction n as [|n IH].
  - cbn. symmetry. apply Z.mod_1_r.
  - rewrite bits_of_S, unsigned_of_cons, bits_of_length, IH.
    rewrite Nat2Z.inj_succ, Z.pow_succ_r by lia.
    rewrite (Z.mul_comm 2), Z.rem_mul_r by lia.
    rewrite <- Z.testbit_spec' by lia.
    destruct (Z.testbit v (Z.of_nat n)); cbn [Z.b2z]; lia.
Qed.

Lemma bits_of_mod (n : nat) (v : Z) :
  bits_of (Z.of_nat n) (v mod 2 ^ Z.of_nat n) = bits_of (Z.of_nat n) v.
Proof.
  unfold bits_of. apply map_ext_in. intros i Hi.
  apply in_rev, in_seq in Hi. rewrite Nat2Z.id in Hi.
  apply Z.mod_pow2_bits_low. lia.
Qed.

Lemma bits_of_unsigned_of (l : list bool) :
  bits_of (Z.of_nat (List.length l)) (unsigned_of l) = l.
Proof.
  induction l as [|b l IH]; [reflexivity|].
  cbn [List.length]. rewrite bits_of_S, unsigned_of_cons.
  destruct (unsigned_of_acc l 0) as [_ B].
  assert (0 < 2 ^ Z.of_nat (List.length l)) by (apply Z.pow_pos_nonneg; lia).
  f_equal.
  - apply eq_true_iff_eq. rewrite Z.testbit_true by lia.
    replace (((if b then 1 else 0) * 2 ^ Z.of_nat (List.length l)
              + unsigned_of l) / 2 ^ Z.of_nat (List.length l))
      with (if b then 1 else 0)
      by (apply Z.div_unique with (unsigned_of l); lia).
    destruct b; cbn; intuition congruence.
  - rewrite <- bits_of_mod.
    rewrite Z.add_comm, Z.mod_add, Z.mod_small by lia. exact IH.
Qed.

Lemma signed_of_bits_of (n : nat) (z : Z) :
  - 2 ^ Z.of_nat n <= z < 2 ^ Z.of_nat n ->
  signed_of (bits_of (Z.of_nat (S n)) z) = z.
Proof.
  intros Hz. unfold signed_of. rewrite unsigned_of_bits_of, bits_of_length.
  rewrite bits_of_S.
  assert (0 < 2 ^ Z.of_nat n) by (apply Z.pow_pos_nonneg; lia).
  assert (Hp : 2 ^ Z.of_nat (S n) = 2 * 2 ^ Z.of_nat n)
    by (rewrite Nat2Z.inj_succ, Z.pow_succ_r by lia; reflexivity).
  destruct (Z.testbit z (Z.of_nat n)) eqn:T.
  - rewrite Z.testbit_true in T by lia.
    assert (z < 0).
    { destruct (Z_lt_le_dec z 0); [assumption|].
      rewrite Z.div_small in T by lia. discriminate. }
    rewrite Hp. symmetry.
    assert (z mod (2 * 2 ^ Z.of_nat n) = z + 2 * 2 ^ Z.of_nat n);
      [|lia].
    symmetry. apply Z.mod_unique with (-1); lia.
  - assert (0 <= z).
    { destruct (Z_lt_le_dec z 0) as [Hneg|]; [|assumption].
      assert (Z.testbit z (Z.of_nat n) = true); [|congruence].
      rewrite Z.testbit_true by lia.
      replace (z / 2 ^ Z.of_nat n) with (-1); [reflexivity|].
      apply Z.div_unique with (z + 2 ^ Z.of_nat n); lia. }
    apply Z.mod_small. lia.
Qed.

Local Abbreviation start s := (getStartbit s None None).

Section RoundTrip.

Variable pack_float : Z -> Decimal -> result (list bool).
Variable unpack_float : Z -> list bool -> result Decimal.

(** A value that fits the bit field of an integer signal is packed into
    [size] bits, and unpacking them gives the value back. *)
Lemma unpack_pack_value (s : Signal) (v : rawvalue) :
  is_float s = false -> 0 < size s -> packable s v ->
  exists bits,
    pack_value pack_float (Signal_bitstruct_format s) v = Ok bits /\
    List.length bits = Z.to_nat (size s) /\
    unpack_value unpack_float (Signal_bitstruct_format s) bits = Ok v.
Proof.
  intros Hf Hs Hp. unfold Signal_bitstruct_format. rewrite Hf.
  destruct v as [z|d|negative]; [|contradiction|contradiction].
  cbn [packable] in Hp.
  destruct (Z.to_nat (size s)) as [|n] eqn:En; [lia|].
  assert (Hsz : size s = Z.of_nat (S n)) by lia.
  assert (Hlen : forall little,
             List.length (if little : bool then rev (bits_of (size s) z)
                          else bits_of (size s) z) = S n).
  { intros little. rewrite Hsz. destruct little;
      rewrite ?length_rev; apply bits_of_length. }
  destruct (is_signed s) eqn:Esg.
  - cbn [pack_value unpack_value].
    change (Ascii.eqb "s"%char "f"%char) with false.
    change (Ascii.eqb "s"%char "s"%char) with true. cbn iota.
    destruct ((- 2 ^ (size s - 1) <=? z) && (z <? 2 ^ (size s - 1))) eqn:R;
      [|apply andb_false_iff in R; destruct R as [R|R];
        [apply Z.leb_gt in R | apply Z.ltb_ge in R]; lia].
    eexists. split; [reflexivity|]. split; [apply Hlen|].
    replace (if is_little_endian s
             then rev (if is_little_endian s then rev (bits_of (size s) z)
                       else bits_of (size s) z)
             else if is_little_endian s then rev (bits_of (size s) z)
                  else bits_of (size s) z)
      with (bits_of (size s) z)
      by (destruct (is_little_endian s); rewrite ?rev_involutive; reflexivity).
    rewrite Hsz. rewrite signed_of_bits_of; [reflexivity|].
    replace (Z.of_nat n) with (size s - 1) by lia. exact Hp.
  - cbn [pack_value unpack_value].
    change (Ascii.eqb "u"%char "f"%char) with false.
    change (Ascii.eqb "u"%char "s"%char) with false. cbn iota.
    destruct ((0 <=? z) && (z <? 2 ^ size s)) eqn:R;
      [|apply andb_false_iff in R; destruct R as [R|R];
        [apply Z.leb_gt in R | apply Z.ltb_ge in R]; lia].
    eexists. split; [reflexivity|]. split; [apply Hlen|].
    replace (if is_little_endian s
             then rev (if is_little_endian s then rev (bits_of (size s) z)
                       else bits_of (size s) z)
             else if is_little_endian s then rev (bits_of (size s) z)
                  else bits_of (size s) z)
      with (bits_of (size s) z)
      by (destruct (is_little_endian s); rewrite ?rev_involutive; reflexivity).
    rewrite Hsz, unsigned_of_bits_of, <- Hsz, Z.mod_small by lia. reflexivity.
Qed.

(** Cutting a bit string of [8 * n] bits into bytes and spelling the bytes
    out again gives the bit string. *)
Lemma bits_of_bytes_of_bits (n : nat) :
  forall (bits : list bool) (fuel : nat),
    List.length bits = (8 * n)%nat -> (n <= fuel)%nat ->
    bits_of_bytes (bytes_of_bits fuel bits) = bits /\
    List.length (bytes_of_bits fuel bits) = n.
Proof.
  induction n as [|n IH]; intros bits fuel Hl Hf.
  - destruct bits; [|discriminate]. destruct fuel; split; reflexivity.
  - destruct fuel as [|fuel]; [lia|].
    destruct bits as [|b bits']; [discriminate|].
    remember (b :: bits') as bits eqn:Hb.
    assert (Hstep : bytes_of_bits (S fuel) bits
                    = byte_of (firstn 8 bits)
                      :: bytes_of_bits fuel (skipn 8 bits))
      by (rewrite Hb; reflexivity).
    rewrite Hstep. clear Hstep Hb.
    destruct (IH (skipn 8 bits) fuel) as [E L];
      [rewrite length_skipn; lia | lia |].
    unfold bits_of_bytes in *. cbn [flat_map List.length].
    rewrite E, L. split; [|reflexivity].
    unfold byte_of.
    assert (H8 : List.length (firstn 8 bits) = 8%nat)
      by (rewrite length_firstn; lia).
    change 8 with (Z.of_nat 8). rewrite <- H8 at 1.
    rewrite bits_of_unsigned_of. apply firstn_skipn.
Qed.

(** The bytes [pack] returns spell out the packed bits, followed by fewer
    than 8 zero bits that fill the last byte. *)
Lemma pack_bits_of_bytes (fmt : list fmt_item) (args : list rawvalue)
    (bits : list bool) :
  good_format fmt = true ->
  pack_bits pack_float fmt args = Ok bits ->
  exists bytes fill,
    pack pack_float fmt args = Ok bytes /\
    bits_of_bytes bytes = (bits ++ repeat false fill)%list /\
    (8 * List.length bytes = List.length bits + fill)%nat /\
    (fill < 8)%nat.
Proof.
  intros Hg Hp. unfold pack. rewrite Hg, Hp.
  pose proof (Z.mod_pos_bound (Z.of_nat (List.length bits)) 8 ltac:(lia)) as Hm.
  pose proof (Z.div_mod (Z.of_nat (List.length bits)) 8 ltac:(lia)) as Hd.
  destruct (Z.of_nat (List.length bits) mod 8 =? 0) eqn:E.
  - apply Z.eqb_eq in E.
    destruct (bits_of_bytes_of_bits
                (Z.to_nat (Z.of_nat (List.length bits) / 8)) bits
                (List.length bits)) as [E1 L1]; [lia | lia |].
    eexists _, 0%nat. split; [reflexivity|].
    cbn [repeat]. rewrite app_nil_r. split; [exact E1|]. rewrite L1. lia.
  - apply Z.eqb_neq in E.
    set (fill := Z.to_nat (8 - Z.of_nat (List.length bits) mod 8)).
    set (bits' := (bits ++ repeat false fill)%list).
    assert (Hl' : List.length bits' = (List.length bits + fill)%nat)
      by (unfold bits'; rewrite length_app, repeat_length; reflexivity).
    destruct (bits_of_bytes_of_bits
                (Z.to_nat (Z.of_nat (List.length bits) / 8 + 1)) bits'
                (List.length bits')) as [E1 L1];
      [unfold fill in Hl'; lia | unfold fill in Hl'; lia |].
    exists (bytes_of_bits (List.length bits') bits'), fill.
    split; [reflexivity|]. split; [exact E1|]. rewrite L1.
    unfold fill. lia.
Qed.

(** *** The format of a frame, piece by piece *)

Lemma format_loop_cons (fb : Z) (s : Signal) (l : list Signal) (e : Z) :
  format_loop fb (s :: l) e
  = ((if 0 <? e - (fb - start s)
      then [Pad (e - (fb - start s))] else [])
       ++ Signal_bitstruct_format s
       :: fst (format_loop fb l (fb - start s - size s)),
     snd (format_loop fb l (fb - start s - size s)))%list.
Proof.
  cbn [format_loop].
  replace (e - (fb - start s - size s + size s)) with (e - (fb - start s))
    by lia.
  destruct (format_loop fb l (fb - start s - size s)). reflexivity.
Qed.

Lemma format_loop_app (fb : Z) (a b : list Signal) :
  forall e,
    format_loop fb (a ++ b) e
    = ((fst (format_loop fb a e)
          ++ fst (format_loop fb b (snd (format_loop fb a e))))%list,
       snd (format_loop fb b (snd (format_loop fb a e)))).
Proof.
  induction a as [|s a IH]; intros e.
  - cbn [app format_loop fst snd]. destruct (format_loop fb b e); reflexivity.
  - cbn [app]. rewrite !format_loop_cons, IH. cbn [fst snd].
    rewrite <- app_assoc. reflexivity.
Qed.

Lemma good_format_app (f g : list fmt_item) :
  good_format (f ++ g) = good_format f && good_format g.
Proof. apply forallb_app. Qed.

Lemma good_format_loop (fb : Z) (l : list Signal) :
  Forall (fun s => 0 < size s) l ->
  forall e, good_format (fst (format_loop fb l e)) = true.
Proof.
  induction 1 as [|s l Hs Hl IH]; intros e; [reflexivity|].
  rewrite format_loop_cons. cbn [fst]. rewrite good_format_app.
  apply andb_true_iff. split.
  - destruct (0 <? e - (fb - start s)) eqn:P; [|reflexivity].
    unfold good_format. cbn [forallb item_width]. rewrite P. reflexivity.
  - unfold good_format in *. cbn [forallb item_width Signal_bitstruct_format].
    rewrite IH. apply andb_true_iff. split; [|reflexivity].
    apply Z.ltb_lt. exact Hs.
Qed.

Lemma pack_bits_field (s : Signal) (fmt : list fmt_item) (v : rawvalue)
    (args : list rawvalue) :
  pack_bits pack_float (Signal_bitstruct_format s :: fmt) (v :: args)
  = match pack_value pack_float (Signal_bitstruct_format s) v,
          pack_bits pack_float fmt args with
    | Ok b, Ok bits => Ok (b ++ bits)%list
    | Raise e, _ => Raise e
    | _, Raise e => Raise e
    end.
Proof. reflexivity. Qed.

Lemma unpack_bits_field (s : Signal) (fmt : list fmt_item) (bits : list bool) :
  unpack_bits unpack_float (Signal_bitstruct_format s :: fmt) bits
  = match unpack_value unpack_float (Signal_bitstruct_format s)
                       (firstn (Z.to_nat (size s)) bits),
          unpack_bits unpack_float fmt (skipn (Z.to_nat (size s)) bits) with
    | Ok v, Ok vs => Ok (v :: vs)
    | Raise e, _ => Raise e
    | _, Raise e => Raise e
    end.
Proof. reflexivity. Qed.

Lemma pack_bits_pad (n : Z) (fmt : list fmt_item) (args : list rawvalue) :
  pack_bits pack_float (Pad n :: fmt) args
  = match pack_bits pack_float fmt args with
    | Ok bits => Ok (repeat false (Z.to_nat n) ++ bits)%list
    | Raise e => Raise e
    end.
Proof. reflexivity. Qed.

Lemma unpack_bits_pad (n : Z) (fmt : list fmt_item) (bits : list bool) :
  unpack_bits unpack_float (Pad n :: fmt) bits
  = unpack_bits unpack_float fmt (skipn (Z.to_nat n) bits).
Proof. reflexivity. Qed.

(** Along the sorted signals, with values that fit their fields: the pieces
    of the format pack the values into as many bits as the pieces are wide,
    and unpack these bits into the values, whatever follows. *)
Lemma codec_loop (fb : Z) (l : list Signal) (vals : list rawvalue) :
  Forall2 packable l vals ->
  Forall (fun s => is_float s = false /\ 0 < size s) l ->
  forall e,
  exists bits,
    (forall g args,
        pack_bits pack_float (fst (format_loop fb l e) ++ g) (vals ++ args)
        = match pack_bits pack_float g args with
          | Ok b => Ok (bits ++ b)%list
          | Raise x => Raise x
          end) /\
    (forall g rest,
        unpack_bits unpack_float (fst (format_loop fb l e) ++ g)
                    (bits ++ rest)
        = match unpack_bits unpack_float g rest with
          | Ok vs => Ok (vals ++ vs)%list
          | Raise x => Raise x
          end) /\
    Z.of_nat (List.length bits) = calcsize (fst (format_loop fb l e)).
Proof.
  induction 1 as [|s v l vals Hp Hrest IH]; intros Hwf e.
  - exists []. cbn [format_loop fst app List.length]. split; [|split].
    + intros g args. destruct (pack_bits pack_float g args); reflexivity.
    + intros g rest. destruct (unpack_bits unpack_float g rest); reflexivity.
    + reflexivity.
  - inversion Hwf as [|? ? [Hf Hs] Hwf']; subst.
    destruct (IH Hwf' (fb - start s - size s)) as [bits' [Hpk [Hun Hlen]]].
    destruct (unpack_pack_value s v Hf Hs Hp) as [b [Hb [Hbl Hub]]].
    rewrite format_loop_cons. cbn [fst].
    destruct (0 <? e - (fb - start s)) eqn:P.
    + apply Z.ltb_lt in P.
      exists (repeat false (Z.to_nat (e - (fb - start s))) ++ b ++ bits')%list.
      split; [|split].
      * intros g args. cbn [app].
        rewrite pack_bits_pad, pack_bits_field, Hb, Hpk.
        destruct (pack_bits pack_float g args); [|reflexivity].
        rewrite <- !app_assoc. reflexivity.
      * intros g rest. cbn [app]. rewrite unpack_bits_pad.
        rewrite <- app_assoc.
        rewrite skipn_app, skipn_all2, repeat_length, Nat.sub_diag
          by (rewrite repeat_length; lia).
        cbn [app skipn]. rewrite unpack_bits_field.
        rewrite <- app_assoc, <- Hbl, firstn_app, firstn_all, Nat.sub_diag.
        cbn [firstn]. rewrite app_nil_r, Hub.
        rewrite skipn_app, skipn_all, Nat.sub_diag. cbn [app skipn].
        rewrite Hun.
        destruct (unpack_bits unpack_float g rest); reflexivity.
      * rewrite !length_app, repeat_length, calcsize_app.
        change (calcsize [Pad (e - (fb - start s))])
          with (e - (fb - start s) + 0).
        change (calcsize (Signal_bitstruct_format s
                            :: fst (format_loop fb l (fb - start s - size s))))
          with (size s
                + calcsize (fst (format_loop fb l (fb - start s - size s)))).
        lia.
    + exists (b ++ bits')%list.
      split; [|split].
      * intros g args. cbn [app].
        rewrite pack_bits_field, Hb, Hpk.
        destruct (pack_bits pack_float g args); [|reflexivity].
        rewrite <- !app_assoc. reflexivity.
      * intros g rest. cbn [app]. rewrite unpack_bits_field.
        rewrite <- app_assoc, <- Hbl, firstn_app, firstn_all, Nat.sub_diag.
        cbn [firstn]. rewrite app_nil_r, Hub.
        rewrite skipn_app, skipn_all, Nat.sub_diag. cbn [app skipn].
        rewrite Hun.
        destruct (unpack_bits unpack_float g rest); reflexivity.
      * rewrite length_app. cbn [app].
        change (calcsize (Signal_bitstruct_format s
                            :: fst (format_loop fb l (fb - start s - size s))))
          with (size s
                + calcsize (fst (format_loop fb l (fb - start s - size s)))).
        lia.
Qed.

(** *** Sorting a list whose last signal starts highest *)

Lemma insert_sorted_app_last (x lst : Signal) (l : list Signal) :
  start x <= start lst ->
  insert_sorted x (l ++ [lst]) = (insert_sorted x l ++ [lst])%list.
Proof.
  intros Hx. induction l as [|y l IH]; cbn [app insert_sorted].
  - destruct (Z.leb_spec (start x) (start lst)); [reflexivity | lia].
  - destruct (start x <=? start y); [reflexivity|]. rewrite IH. reflexivity.
Qed.

Lemma sorted_app_last (pre : list Signal) (lst : Signal) :
  Forall (fun s => start s < start lst) pre ->
  sorted (pre ++ [lst]) = (sorted pre ++ [lst])%list.
Proof.
  induction 1 as [|x pre Hx Hpre IH]; [reflexivity|].
  cbn [app sorted]. rewrite IH. apply insert_sorted_app_last. lia.
Qed.

Lemma insert_sorted_twice (lst : Signal) (l : list Signal) :
  Forall (fun s => start s < start lst) l ->
  insert_sorted lst (l ++ [lst]) = (l ++ [lst; lst])%list.
Proof.
  induction 1 as [|y l Hy Hl IH]; cbn [app insert_sorted].
  - rewrite Z.leb_refl. reflexivity.
  - destruct (Z.leb_spec (start lst) (start y)); [lia|].
    rewrite IH. reflexivity.
Qed.

Lemma snd_format_loop_last (fb : Z) (l : list Signal) (x : Signal) (e : Z) :
  snd (format_loop fb (l ++ [x]) e) = fb - start x - size x.
Proof.
  rewrite format_loop_app. cbn [snd]. rewrite format_loop_cons. reflexivity.
Qed.

Lemma bitstruct_format_pieces (self : Frame) (l : list Signal) :
  bitstruct_format self (Some l)
  = (fst (format_loop (frame_size self * 8) (sorted l) (frame_size self * 8))
       ++ (if snd (format_loop (frame_size self * 8) (sorted l)
                               (frame_size self * 8)) =? 0
           then []
           else [Pad (snd (format_loop (frame_size self * 8) (sorted l)
                                       (frame_size self * 8)))]))%list.
Proof.
  unfold bitstruct_format.
  destruct (format_loop (frame_size self * 8) (sorted l) (frame_size self * 8)).
  reflexivity.
Qed.

(** *** The signals encode and decode select *)

Lemma find_muxSignal_last (data : list (string * pyvalue)) (lst : Signal)
    (pre : list Signal) :
  is_multiplexer lst = true ->
  forall found,
    find_muxSignal (pre ++ [lst]) data found
    = Some (lst, data_get data (name lst)).
Proof.
  intros Hm. induction pre as [|s pre IH]; intros found.
  - cbn. rewrite Hm. reflexivity.
  - cbn [app find_muxSignal]. apply IH.
Qed.

Lemma filter_mux_selected (muxVal : pyvalue) (l : list Signal) :
  Forall (fun s => is_multiplexer s = true /\ mux_val s = None) l ->
  filter (fun signal => mux_selected signal muxVal) l = l.
Proof.
  induction 1 as [|s l [_ Hs] Hl IH]; [reflexivity|].
  cbn [filter]. unfold mux_selected at 1. rewrite Hs, IH. reflexivity.
Qed.

Lemma any_multiplexer_last (pre : list Signal) (lst : Signal) :
  is_multiplexer lst = true -> any_multiplexer (pre ++ [lst]) = true.
Proof.
  intros Hm. induction pre as [|s pre IH]; cbn [app any_multiplexer].
  - rewrite Hm. reflexivity.
  - rewrite IH. destruct (is_multiplexer s); reflexivity.
Qed.

Lemma snd_bind {A B : Type} (m : Eff A) (k : A -> Eff B) :
  snd (bind m k)
  = match snd m with
    | Ok a => snd (k a)
    | Raise e => Raise e
    end.
Proof.
  destruct m as [l [a|e]]; cbn [bind snd]; [|reflexivity].
  destruct (k a). reflexivity.
Qed.

Lemma snd_raw_values_app (data : list (string * pyvalue)) (a b : list Signal) :
  snd (raw_values (a ++ b) data)
  = match snd (raw_values a data) with
    | Ok va =>
        match snd (raw_values b data) with
        | Ok vb => Ok (va ++ vb)%list
        | Raise e => Raise e
        end
    | Raise e => Raise e
    end.
Proof.
  induction a as [|s a IH]; cbn [app raw_values].
  - cbn [ret snd]. destruct (snd (raw_values b data)); reflexivity.
  - rewrite !snd_bind.
    destruct (snd (phys2raw s (data_get data (name s)))) as [v|e];
      [|reflexivity].
    rewrite !snd_bind, IH.
    destruct (snd (raw_values a data)) as [va|e]; [|reflexivity].
    destruct (snd (raw_values b data)) as [vb|e]; reflexivity.
Qed.

Lemma snd_raw_values_length (data : list (string * pyvalue)) (a : list Signal) :
  forall va, snd (raw_values a data) = Ok va -> List.length va = List.length a.
Proof.
  induction a as [|s a IH]; intros va; cbn [raw_values].
  - cbn. intros H. injection H as <-. reflexivity.
  - rewrite snd_bind.
    destruct (snd (phys2raw s (data_get data (name s)))) as [v|e];
      [|discriminate].
    rewrite snd_bind.
    destruct (snd (raw_values a data)) as [va'|e]; [|discriminate].
    cbn. intros H. injection H as <-. cbn. f_equal. apply IH. reflexivity.
Qed.

(** *** Reading one field: the search for the multiplexer in decode *)

Lemma unpack_bits_fields (fb : Z) (l : list Signal) :
  Forall (fun s => is_float s = false /\ 0 < size s) l ->
  forall e g bits,
    (forall rest, unpack_bits unpack_float g rest = Ok []) ->
    exists zs,
      unpack_bits unpack_float (fst (format_loop fb l e) ++ g) bits
      = Ok (map RawInt zs) /\
      List.length zs = List.length l.
Proof.
  induction 1 as [|s l [Hf Hs] Hl IH]; intros e g bits Hg.
  - exists []. cbn [format_loop fst app]. auto.
  - rewrite format_loop_cons. cbn [fst].
    assert (Hv : forall b, exists z,
                 unpack_value unpack_float (Signal_bitstruct_format s) b
                 = Ok (RawInt z)).
    { intros b. unfold Signal_bitstruct_format. rewrite Hf.
      destruct (is_signed s); cbn [unpack_value].
      - change (Ascii.eqb "s"%char "f"%char) with false.
        change (Ascii.eqb "s"%char "s"%char) with true. cbn iota. eauto.
      - change (Ascii.eqb "u"%char "f"%char) with false.
        change (Ascii.eqb "u"%char "s"%char) with false. cbn iota. eauto. }
    assert (Hfield : forall b, exists zs,
               unpack_bits unpack_float
                 ((Signal_bitstruct_format s
                     :: fst (format_loop fb l (fb - start s - size s))) ++ g) b
               = Ok (map RawInt zs) /\ List.length zs = S (List.length l)).
    { intros b. cbn [app]. rewrite unpack_bits_field.
      destruct (Hv (firstn (Z.to_nat (size s)) b)) as [z ->].
      destruct (IH (fb - start s - size s) g (skipn (Z.to_nat (size s)) b) Hg)
        as [zs [-> Hlen]].
      exists (z :: zs). cbn [List.length map]. auto. }
    destruct (0 <? e - (fb - start s)).
    + cbn [app]. rewrite unpack_bits_pad. apply Hfield.
    + apply Hfield.
Qed.

Lemma unpack_single (self : Frame) (s : Signal) (bytes : list Z) :
  is_float s = false -> 0 < size s -> fits (frame_size self * 8) s ->
  frame_size self * 8 <= Z.of_nat (List.length (bits_of_bytes bytes)) ->
  exists z, unpack unpack_float (bitstruct_format self (Some [s])) bytes
            = Ok [RawInt z].
Proof.
  intros Hf Hs [H0 [_ H1]] Hlen. rewrite bitstruct_format_pieces.
  cbn [sorted insert_sorted].
  set (fb := frame_size self * 8) in *.
  set (tail := if snd (format_loop fb [s] fb) =? 0 then []
               else [Pad (snd (format_loop fb [s] fb))]).
  assert (He : snd (format_loop fb [s] fb) = fb - start s - size s)
    by apply (snd_format_loop_last fb [] s fb).
  assert (Hgood : good_format (fst (format_loop fb [s] fb) ++ tail) = true).
  { rewrite good_format_app, good_format_loop by (constructor; auto).
    unfold tail. rewrite He.
    destruct (Z.eqb_spec (fb - start s - size s) 0); [reflexivity|].
    unfold good_format. cbn [forallb item_width andb].
    rewrite andb_true_r. apply Z.ltb_lt. lia. }
  assert (Hsize : calcsize (fst (format_loop fb [s] fb) ++ tail) = fb).
  { rewrite calcsize_app, format_loop_cons. cbn [fst format_loop].
    unfold tail. rewrite He.
    replace (fb - (fb - start s)) with (start s) by lia.
    change (calcsize ((if 0 <? start s then [Pad (start s)] else [])
                        ++ [Signal_bitstruct_format s]))
      with (calcsize ((if 0 <? start s then [Pad (start s)] else [])
                        ++ [Field (is_little_endian s)
                                  (if is_float s then "f"%char
                                   else if is_signed s then "s"%char
                                        else "u"%char) (size s)])).
    rewrite calcsize_app.
    destruct (Z.ltb_spec 0 (start s));
      destruct (Z.eqb_spec (fb - start s - size s) 0);
      unfold calcsize; cbn [fold_right item_width]; lia. }
  unfold unpack. rewrite Hgood, Hsize.
  destruct (Z.ltb_spec (Z.of_nat (List.length (bits_of_bytes bytes))) fb);
    [lia|].
  destruct (unpack_bits_fields fb [s] ltac:(constructor; auto) fb tail
              (bits_of_bytes bytes)) as [zs [Hzs Hl]].
  { intros rest. unfold tail.
    destruct (snd (format_loop fb [s] fb) =? 0); reflexivity. }
  rewrite Hzs. destruct zs as [|z [|? ?]]; try discriminate.
  exists z. reflexivity.
Qed.

Lemma decode_values_nil (l : list Signal) (decodeToStr : bool)
    (signals_values : list (string * pyvalue)) :
  decode_values l [] decodeToStr signals_values = Ok signals_values.
Proof. destruct l; reflexivity. Qed.

(** Integers decode without an exception. *)
Lemma decode_values_packable (l : list Signal) (vals : list rawvalue)
    (decodeToStr : bool) :
  Forall2 packable l vals ->
  forall signals_values,
  exists values,
    decode_values l vals decodeToStr signals_values = Ok values.
Proof.
  induction 1 as [|s v l vals Hp Hrest IH]; intros signals_values.
  - exists signals_values. reflexivity.
  - destruct v as [z|d|negative]; try contradiction.
    cbn [decode_values raw2phys]. apply IH.
Qed.

(** Every round of the search finds a multiplexer, reads its field and
    takes the first decoded value as [muxVal]. *)
Lemma decode_mux_loop_all (self : Frame) (bytes : list Z) (first : Signal)
    (others : list Signal) (sigs : list Signal) :
  sorted (signals self) = first :: others ->
  Forall (fun s => is_multiplexer s = true /\
                   exists z, unpack unpack_float
                               (bitstruct_format self (Some [s])) bytes
                             = Ok [RawInt z]) sigs ->
  forall signals_values muxVal,
    sigs <> [] \/ muxVal <> None ->
    exists m,
      decode_mux_loop unpack_float self bytes false sigs signals_values muxVal
      = Ok (Some m).
Proof.
  intros Hsorted. induction 1 as [|s sigs [Hm [v Hv]] Hrest IH];
    intros signals_values muxVal Hne.
  - destruct Hne as [Hne|Hne]; [contradiction|].
    destruct muxVal as [m|]; [|contradiction]. exists m. reflexivity.
  - cbn [decode_mux_loop]. rewrite Hm, Hv, Hsorted.
    cbn [decode_values raw2phys]. rewrite decode_values_nil.
    cbn [odict_set]. unfold raw2phys_finite. cbn [py_int].
    apply IH. right. discriminate.
Qed.

(** The ['p'] piece that closes a format: zero bits on packing, skipped on
    unpacking. *)
Lemma final_pad (e : Z) :
  0 <= e ->
  exists zt,
    pack_bits pack_float (if e =? 0 then [] else [Pad e]) [] = Ok zt /\
    Z.of_nat (List.length zt) = e /\
    good_format (if e =? 0 then [] else [Pad e]) = true /\
    forall rest,
      unpack_bits unpack_float (if e =? 0 then [] else [Pad e]) rest = Ok [].
Proof.
  intros He. destruct (Z.eqb_spec e 0) as [E0|E0].
  - exists []. rewrite E0. repeat split; reflexivity.
  - exists (repeat false (Z.to_nat e)). split; [|split; [|split]].
    + rewrite pack_bits_pad. cbn [pack_bits]. rewrite app_nil_r.
      reflexivity.
    + rewrite repeat_length. lia.
    + unfold good_format. cbn [forallb item_width].
      rewrite andb_true_r. apply Z.ltb_lt. lia.
    + intros rest. reflexivity.
Qed.

Lemma calcsize_final_pad (e : Z) :
  calcsize (if e =? 0 then [] else [Pad e]) = e.
Proof.
  destruct (Z.eqb_spec e 0) as [E0|E0]; [rewrite E0; reflexivity|].
  unfold calcsize. cbn [fold_right item_width]. lia.
Qed.

Lemma snd_format_loop_nonneg (fb : Z) (l : list Signal) :
  Forall (fits fb) l ->
  forall e, 0 <= e -> 0 <= snd (format_loop fb l e).
Proof.
  induction 1 as [|s l [H0 [Hs H1]] Hl IH]; intros e He; [exact He|].
  rewrite format_loop_cons. cbn [snd]. apply IH. lia.
Qed.

Lemma bitstruct_format_pieces_all (self : Frame) :
  bitstruct_format self None = bitstruct_format self (Some (signals self)).
Proof. reflexivity. Qed.


End RoundTrip.

(** X24: a frame whose signals are all built with the default [multiplex]
    (each one is then flagged as multiplexer, with no multiplex value), are
    integers of positive width within the frame, and whose last listed signal
    starts at the highest bit.  When the raw values [phys2raw] picks fit
    their fields, [encode] succeeds and returns more bytes than the frame
    has, because the last signal is packed twice; [decode] of these bytes
    gives, for each signal, the physical value of the raw value that was
    packed. *)
Theorem encode_decode_last_highest
    (pack_float : Z -> Decimal -> result (list bool))
    (unpack_float : Z -> list bool -> result Decimal)
    (self : Frame) (pre : list Signal) (lst : Signal)
    (data : list (string * pyvalue)) (vals : list rawvalue) :
  is_complex_multiplexed self = false ->
  signals self = (pre ++ [lst])%list ->
  Forall (fun s => is_multiplexer s = true /\ mux_val s = None)
         (signals self) ->
  Forall (fun s => is_float s = false /\ 0 < size s) (signals self) ->
  Forall (fits (frame_size self * 8)) (signals self) ->
  Forall (fun s => getStartbit s None None < getStartbit lst None None) pre ->
  snd (raw_values (sorted (signals self)) data) = Ok vals ->
  Forall2 packable (sorted (signals self)) vals ->
  exists bytes values,
    snd (encode pack_float self data) = Ok bytes /\
    frame_size self < Z.of_nat (List.length bytes) /\
    decode_values (sorted (signals self)) vals false [] = Ok values /\
    decode unpack_float self bytes false = Ok values.
Proof.
  intros Hc Hsig Hmux Hwf Hfit Hlast Hraw Hpk.
  destruct (decode_values_packable (sorted (signals self)) vals false Hpk [])
    as [values Hvalues].
  assert (HS : sorted (signals self) = (sorted pre ++ [lst])%list)
    by (rewrite Hsig; apply sorted_app_last; exact Hlast).
  assert (HS2 : sorted (lst :: signals self)
                = (sorted (signals self) ++ [lst])%list).
  { cbn [sorted]. rewrite HS.
    rewrite insert_sorted_twice by (apply Forall_sorted; exact Hlast).
    rewrite <- app_assoc. reflexivity. }
  assert (Hin : In lst (signals self))
    by (rewrite Hsig; apply in_or_app; right; left; reflexivity).
  destruct (proj1 (Forall_forall _ _) Hmux lst Hin) as [Hml _].
  destruct (proj1 (Forall_forall _ _) Hwf lst Hin) as [Hfl Hsl].
  destruct (proj1 (Forall_forall _ _) Hfit lst Hin) as [Hl0 [_ Hl1]].
  assert (Hmx : is_multiplexed self = true)
    by (unfold is_multiplexed; rewrite Hsig; apply any_multiplexer_last;
        exact Hml).
  assert (Hfind : find_muxSignal (signals self) data None
                  = Some (lst, data_get data (name lst)))
    by (rewrite Hsig; apply find_muxSignal_last; exact Hml).
  (* the raw values: those of the signals before the last, and the last *)
  pose proof Hraw as Hraw'. rewrite HS, snd_raw_values_app in Hraw'.
  destruct (snd (raw_values (sorted pre) data)) as [va|] eqn:Eva;
    [|discriminate].
  destruct (snd (raw_values [lst] data)) as [vb|] eqn:Evb; [|discriminate].
  injection Hraw' as Hvals.
  pose proof (snd_raw_values_length _ _ _ Evb) as Hlb.
  destruct vb as [|vl [|? ?]]; try discriminate. clear Hlb.
  assert (Hpl : packable lst vl).
  { pose proof Hpk as Hpk'. rewrite HS, <- Hvals in Hpk'.
    apply Forall2_app_inv_l in Hpk'.
    destruct Hpk' as [l1 [l2 [_ [H2 Heq]]]].
    inversion H2 as [|? v' ? l2' Hp' Hn']; subst.
    inversion Hn'; subst.
    apply app_inj_tail in Heq. destruct Heq as [_ ->]. exact Hp'. }
  (* the two formats *)
  set (fb := frame_size self * 8) in *.
  set (F := fst (format_loop fb (sorted (signals self)) fb)).
  set (e1 := fb - start lst - size lst).
  set (tail := if e1 =? 0 then [] else [Pad e1]).
  assert (He1 : snd (format_loop fb (sorted (signals self)) fb) = e1)
    by (rewrite HS; apply snd_format_loop_last).
  assert (Hdec : bitstruct_format self (Some (signals self))
                 = (F ++ tail)%list).
  { rewrite bitstruct_format_pieces. fold fb. rewrite He1. reflexivity. }
  assert (Henc : bitstruct_format self (Some (lst :: signals self))
                 = (F ++ Signal_bitstruct_format lst :: tail)%list).
  { rewrite bitstruct_format_pieces. fold fb.
    rewrite HS2, format_loop_app, He1. cbn [fst snd].
    rewrite format_loop_cons. cbn [fst snd format_loop].
    fold e1. fold F.
    destruct (Z.ltb_spec 0 (e1 - (fb - start lst)));
      [unfold e1 in *; lia|].
    cbn [app]. rewrite <- app_assoc. reflexivity. }
  assert (Htail := final_pad pack_float unpack_float e1 ltac:(unfold e1; lia)). fold tail in Htail.
  destruct Htail as [zt [Hzt [Hzl [Hgt Hut]]]].
  assert (Hsizes : Forall (fun s => 0 < size s) (sorted (signals self))).
  { apply Forall_sorted. eapply Forall_impl; [|exact Hwf].
    intros s [_ H]. exact H. }
  assert (HgF : good_format F = true) by (apply good_format_loop; exact Hsizes).
  destruct (codec_loop pack_float unpack_float fb (sorted (signals self)) vals Hpk
              (Forall_sorted _ _ Hwf) fb) as [bits [Hpack [Hunpack Hlen]]].
  fold F in Hpack, Hunpack, Hlen.
  destruct (unpack_pack_value pack_float unpack_float lst vl Hfl Hsl Hpl) as [bl [Hbl [Hbll _]]].
  assert (Hbits : pack_bits pack_float
                    (F ++ Signal_bitstruct_format lst :: tail)
                    (vals ++ [vl])
                  = Ok (bits ++ bl ++ zt)%list).
  { rewrite Hpack, pack_bits_field, Hbl, Hzt. reflexivity. }
  assert (Hgenc : good_format (F ++ Signal_bitstruct_format lst :: tail)
                  = true).
  { rewrite good_format_app, HgF. cbn [andb].
    change (good_format (Signal_bitstruct_format lst :: tail))
      with ((0 <? size lst) && good_format tail).
    rewrite Hgt, andb_true_r. apply Z.ltb_lt. exact Hsl. }
  destruct (pack_bits_of_bytes pack_float _ _ _ Hgenc Hbits)
    as [bytes [fill [Hbytes [Hspell [Hcount Hfill]]]]].
  pose proof (format_loop_at_least fb (sorted (signals self)) fb) as Hwide.
  fold F in Hwide. rewrite He1 in Hwide.
  assert (Hlong : fb + size lst
                  <= Z.of_nat (List.length (bits_of_bytes bytes))).
  { rewrite Hspell, !length_app, repeat_length. lia. }
  exists bytes, values. split; [|split; [|split; [exact Hvalues|]]].
  - unfold encode. rewrite snd_bind. unfold encode_layout.
    rewrite Hc, Hmx, Hfind, (filter_mux_selected _ _ Hmux).
    cbn [ret snd]. rewrite snd_bind, HS2, snd_raw_values_app, Hraw, Evb.
    cbn [lift snd]. rewrite Henc. exact Hbytes.
  - rewrite !length_app in Hcount. unfold fb in *. lia.
  - unfold decode, decode_layout. rewrite Hc, Hmx.
    destruct (sorted (signals self)) as [|first others] eqn:Efirst;
      [rewrite HS in Efirst; destruct (sorted pre); discriminate|].
    destruct (decode_mux_loop_all unpack_float self bytes first others (signals self)
                Efirst) with (signals_values := @None (list (string * pyvalue)))
                             (muxVal := @None Z) as [m Hm].
    + apply Forall_forall. intros s Hs.
      destruct (proj1 (Forall_forall _ _) Hmux s Hs) as [Hms _].
      destruct (proj1 (Forall_forall _ _) Hwf s Hs) as [Hfs Hss].
      split; [exact Hms|].
      apply unpack_single; auto.
      * apply (proj1 (Forall_forall _ _) Hfit s Hs).
      * fold fb. lia.
    + left. rewrite Hsig. destruct pre; discriminate.
    + rewrite Hm, (filter_mux_selected _ _ Hmux), Hdec.
      unfold unpack. rewrite good_format_app, HgF, Hgt. cbn [andb].
      rewrite calcsize_app.
      assert (Hct : calcsize tail = e1) by apply calcsize_final_pad.
      destruct (Z.ltb_spec (Z.of_nat (List.length (bits_of_bytes bytes)))
                           (calcsize F + calcsize tail)) as [Hshort|_].
      { rewrite Hspell, !length_app, repeat_length in Hshort. lia. }
      rewrite Hspell, <- app_assoc, Hunpack, Hut, app_nil_r, Efirst.
      exact Hvalues.
Qed.


Lemma encode_decode_last_highest_witness :
  exists bytes values,
    snd (encode no_pack_float wide_frame wide_data) = Ok bytes /\
    frame_size wide_frame < Z.of_nat (List.length bytes) /\
    decode_values (sorted (signals wide_frame))
                  [RawInt 3; RawInt 100] false [] = Ok values /\
    decode no_unpack_float wide_frame bytes false = Ok values.
Proof.
  apply (encode_decode_last_highest no_pack_float no_unpack_float wide_frame
           [plain_signal "a" 0 4 MuxNone] (plain_signal "b" 4 8 MuxNone)
           wide_data [RawInt 3; RawInt 100]).
  - reflexivity.
  - reflexivity.
  - repeat constructor.
  - repeat constructor; rewrite size_plain_signal; lia.
  - repeat constructor; rewrite ?start_plain_signal, ?size_plain_signal;
      change (frame_size wide_frame) with 8; lia.
  - repeat constructor; rewrite ?start_plain_signal; lia.
  - vm_compute. reflexivity.
  - change (sorted (signals wide_frame))
      with [plain_signal "a" 0 4 MuxNone; plain_signal "b" 4 8 MuxNone].
    constructor; [vm_compute; split; [discriminate | reflexivity]|].
    constructor; [vm_compute; split; [discriminate | reflexivity]|].
    constructor.
Defined.

(** With the same two signals listed in the other order the signal packed
    twice is not the last field, and [b] does not come back. *)
Example encode_decode_reversed :
  returns_dict (decode_encode no_pack_float no_unpack_float
                              wide_frame_reversed wide_data)
               [("a", PyNum (of_int 3)); ("b", PyNum (of_int 67))] = true.
Proof. vm_compute. reflexivity. Qed.

(** X25: a frame without a multiplexer, that is one whose signals all carry
    a multiplex number, with integer signals of positive width within the
    frame.  When the raw values [phys2raw] picks fit their fields, [encode]
    succeeds and [decode] of its bytes gives, for each signal, the physical
    value of the raw value that was packed, as a number or as its name in the
    value table. *)
Theorem encode_decode_plain
    (pack_float : Z -> Decimal -> result (list bool))
    (unpack_float : Z -> list bool -> result Decimal)
    (self : Frame) (data : list (string * pyvalue))
    (vals : list rawvalue) (decodeToStr : bool) :
  is_complex_multiplexed self = false ->
  is_multiplexed self = false ->
  0 <= frame_size self ->
  Forall (fun s => is_float s = false /\ 0 < size s) (signals self) ->
  Forall (fits (frame_size self * 8)) (signals self) ->
  snd (raw_values (sorted (signals self)) data) = Ok vals ->
  Forall2 packable (sorted (signals self)) vals ->
  exists bytes values,
    snd (encode pack_float self data) = Ok bytes /\
    frame_size self <= Z.of_nat (List.length bytes) /\
    decode_values (sorted (signals self)) vals decodeToStr [] = Ok values /\
    decode unpack_float self bytes decodeToStr = Ok values.
Proof.
  intros Hc Hmx Hsz Hwf Hfit Hraw Hpk.
  destruct (decode_values_packable (sorted (signals self)) vals decodeToStr
              Hpk []) as [values Hvalues].
  set (fb := frame_size self * 8) in *.
  set (F := fst (format_loop fb (sorted (signals self)) fb)).
  set (e1 := snd (format_loop fb (sorted (signals self)) fb)).
  set (tail := if e1 =? 0 then [] else [Pad e1]).
  assert (He1 : 0 <= e1)
    by (apply snd_format_loop_nonneg;
        [apply Forall_sorted; exact Hfit | unfold fb; lia]).
  assert (Hfmt : bitstruct_format self None = (F ++ tail)%list)
    by (rewrite bitstruct_format_pieces_all; apply bitstruct_format_pieces).
  destruct (final_pad pack_float unpack_float e1 He1) as [zt [Hzt [Hzl [Hgt Hut]]]].
  fold tail in Hzt, Hgt, Hut.
  assert (HgF : good_format F = true).
  { apply good_format_loop. apply Forall_sorted.
    eapply Forall_impl; [|exact Hwf]. intros s [_ H]. exact H. }
  destruct (codec_loop pack_float unpack_float fb (sorted (signals self)) vals Hpk
              (Forall_sorted _ _ Hwf) fb) as [bits [Hpack [Hunpack Hlen]]].
  fold F in Hpack, Hunpack, Hlen.
  assert (Hbits : pack_bits pack_float (F ++ tail) vals
                  = Ok (bits ++ zt)%list).
  { specialize (Hpack tail []). rewrite app_nil_r, Hzt in Hpack.
    exact Hpack. }
  assert (Hgood : good_format (F ++ tail) = true)
    by (rewrite good_format_app, HgF, Hgt; reflexivity).
  destruct (pack_bits_of_bytes pack_float _ _ _ Hgood Hbits)
    as [bytes [fill [Hbytes [Hspell [Hcount Hfill]]]]].
  pose proof (format_loop_at_least fb (sorted (signals self)) fb) as Hwide.
  fold F in Hwide. fold e1 in Hwide.
  exists bytes, values. split; [|split; [|split; [exact Hvalues|]]].
  - unfold encode. rewrite snd_bind. unfold encode_layout.
    rewrite Hc, Hmx. cbn [ret snd]. rewrite snd_bind, Hraw.
    cbn [lift snd]. rewrite Hfmt. exact Hbytes.
  - rewrite length_app in Hcount. unfold fb in *. lia.
  - unfold decode, decode_layout. rewrite Hc, Hmx, Hfmt.
    unfold unpack. rewrite Hgood, calcsize_app.
    assert (Hct : calcsize tail = e1) by apply calcsize_final_pad.
    destruct (Z.ltb_spec (Z.of_nat (List.length (bits_of_bytes bytes)))
                         (calcsize F + calcsize tail)) as [Hshort|_].
    { rewrite Hspell, !length_app, repeat_length in Hshort. lia. }
    rewrite Hspell, <- app_assoc, Hunpack, Hut, app_nil_r. exact Hvalues.
Qed.

Lemma encode_decode_plain_witness :
  exists bytes values,
    snd (encode no_pack_float grouped_frame grouped_data) = Ok bytes /\
    frame_size grouped_frame <= Z.of_nat (List.length bytes) /\
    decode_values (sorted (signals grouped_frame))
                  [RawInt 3; RawInt (-2)] true [] = Ok values /\
    decode no_unpack_float grouped_frame bytes true = Ok values.
Proof.
  apply (encode_decode_plain no_pack_float no_unpack_float grouped_frame
           grouped_data [RawInt 3; RawInt (-2)] true).
  - reflexivity.
  - reflexivity.
  - discriminate.
  - repeat constructor; rewrite size_plain_signal; lia.
  - repeat constructor; rewrite ?start_plain_signal, ?size_plain_signal;
      change (frame_size grouped_frame) with 1; lia.
  - vm_compute. reflexivity.
  - change (sorted (signals grouped_frame))
      with [plain_signal "x" 0 4 (MuxNumber 0);
            plain_signal "y" 4 4 (MuxNumber 1)].
    constructor; [vm_compute; split; [discriminate | reflexivity]|].
    constructor; [vm_compute; split; [discriminate | reflexivity]|].
    constructor.
Defined.
